(** * hugo-multiversion: a shallow embedding of [main.go]

    The tool resolves a list of [version=branch] tokens into a version map,
    clones every branch into a temporary workspace with the system [git]
    and copies the content directory of every clone into a per-version
    subdirectory of the output directory.

    Layout of the development:
    - Go strings as [string] (sequences of bytes), [strings.Split] and
      [strings.Join], and [parseBranchesFlag] over a [gmap string string];
    - lexical paths: [path.Clean], [path.Join] ([filepath.Join] is the same
      function on a Unix system);
    - a file system as a finite map from resolved paths to nodes, the
      [os] / [ioutil] calls of the program as state-passing functions, and
      [copyFile], [copyDir], [fetchRepository], [cleanup], [run], [main];
    - the theorems. *)

From Stdlib Require Import NArith Ascii String List.
From stdpp Require Import gmap strings list fin_maps sorting.

Open Scope string_scope.
Open Scope list_scope.

(** ** Go strings *)

(** [strings.Contains] for a one-byte substring. *)
Fixpoint has_byte (c : ascii) (s : string) : bool :=
  match s with
  | EmptyString => false
  | String a s' => if Ascii.eqb a c then true else has_byte c s'
  end.

(** [strings.Split(s, sep)] for a one-byte separator: the substrings of [s]
    between the occurrences of [sep]; a string with [n] separators yields
    [n + 1] parts, and the empty string yields one empty part. *)
Fixpoint strings_Split (s : string) (sep : ascii) : list string :=
  match s with
  | EmptyString => [EmptyString]
  | String a s' =>
      if Ascii.eqb a sep then EmptyString :: strings_Split s' sep
      else match strings_Split s' sep with
           | [] => [String a EmptyString]
           | p :: ps => String a p :: ps
           end
  end.

(** [strings.Join(elems, sep)]. *)
Fixpoint strings_Join (elems : list string) (sep : string) : string :=
  match elems with
  | [] => EmptyString
  | [e] => e
  | e :: es => e +:+ sep +:+ strings_Join es sep
  end.

(** ** The version resolver *)

(** The body of the loop of [parseBranchesFlag]: one token is split on
    ['='] and written into the map. *)
Definition parseBranchesFlag_body (out : gmap string string) (b : string)
  : gmap string string :=
  let splitStr := strings_Split b "=" in
  if Nat.eqb (length splitStr) 1 then <[b := b]> out
  else <[hd EmptyString splitStr := strings_Join (tl splitStr) ""]> out.

Definition parseBranchesFlag (branches : list string) : gmap string string :=
  fold_left parseBranchesFlag_body branches ∅.

(** The map that [run] iterates over: the parsed tokens, with the entry
    ["latest"] written last when [--latest-branch] is not empty. *)
Definition versionMap (branches : list string) (latestBranch : string)
  : gmap string string :=
  let versionMap := parseBranchesFlag branches in
  if String.eqb latestBranch "" then versionMap
  else <["latest" := latestBranch]> versionMap.

(** ** Lexical paths

    [path.Clean] and [path.Join] of the Go library, on the elements of the
    path between slashes ([filepath.Clean] and [filepath.Join] are the same
    functions on a Unix system, where the separator is the slash and there
    is no volume name). [Clean] applies, until none applies: a run of
    slashes is one slash, a [.] element goes, a [..] element goes together
    with the element before it when that is not a [..], and a [..] at the
    start of a rooted path goes. The empty result is ["."]. *)

Definition rooted (p : string) : bool :=
  match p with
  | String "/" _ => true
  | _ => false
  end.

(** The buffer of [Clean] holds an element that [..] may remove: it is not
    empty and does not end in one of the leading [..] elements. *)
Definition can_backtrack (out : list string) : bool :=
  match last out with
  | Some e => negb (String.eqb e "..")
  | None => false
  end.

Definition Clean_step (rooted : bool) (out : list string) (elem : string)
  : list string :=
  if String.eqb elem "" then out
  else if String.eqb elem "." then out
  else if String.eqb elem ".." then
    if can_backtrack out then removelast out
    else if rooted then out
    else out ++ [".."]
  else out ++ [elem].

Definition path_Clean (p : string) : string :=
  if String.eqb p "" then "."
  else
    let out := fold_left (Clean_step (rooted p)) (strings_Split p "/") [] in
    if rooted p then "/" +:+ strings_Join out "/"
    else match out with
         | [] => "."
         | _ => strings_Join out "/"
         end.

(** [Join]: the leading empty elements are dropped, the rest is joined with
    slashes and cleaned; no element left gives the empty string. *)
Fixpoint path_Join (elem : list string) : string :=
  match elem with
  | [] => ""
  | e :: es =>
      if String.eqb e "" then path_Join es
      else path_Clean (strings_Join elem "/")
  end.

Definition filepath_Join := path_Join.

(** ** Path resolution

    A path name is resolved to a list of names below the root: a relative
    name starts at the working directory, empty elements and [.] are
    skipped, [..] goes to the parent (the root is its own parent). There
    are no symbolic links in the model.

    The resolution reads the name only, not the file system. It is the
    walk of the system for a clean name ([clean_name] below): plain names
    with one slash between them. At a name with [..] after a name that
    does not exist, and at a name that runs through a regular file, the
    system stops with [ENOENT] or [ENOTDIR] where the model goes on; the
    statements about [copyFile] and [copyDir] that depend on it are made
    for clean names. The names [run] passes on are cleaned by
    [filepath.Join]. *)

Definition resolve_step (at_ : list string) (elem : string) : list string :=
  if String.eqb elem "" then at_
  else if String.eqb elem "." then at_
  else if String.eqb elem ".." then removelast at_
  else at_ ++ [elem].

Definition resolve (cwd : list string) (name : string) : list string :=
  fold_left resolve_step (strings_Split name "/")
            (if rooted name then [] else cwd).

(** ** The world of a run

    A file system is a finite map from resolved paths to nodes; the root is
    the empty path. A regular file has permission bits and contents, a
    directory has permission bits; its entries are the paths one name
    longer. Access control is not part of the model: a call fails only for
    a missing name, a name of the wrong kind or a name that already
    exists. *)

Inductive node :=
  | File (perm : N) (data : string)
  | Dir (perm : N).

Definition is_dir (n : node) : bool :=
  match n with
  | Dir _ => true
  | File _ _ => false
  end.

Definition perm_of (n : node) : N :=
  match n with
  | Dir m => m
  | File m _ => m
  end.

Abbreviation FS := (gmap (list string) node).

Inductive error :=
  | ENOENT
  | ENOTDIR
  | EISDIR
  | EEXIST
  | EINVAL
  | ExitError.

(** A decimal digit, and a number in decimal digits as a string. *)
Inductive digit := d0 | d1 | d2 | d3 | d4 | d5 | d6 | d7 | d8 | d9.

Definition digit_byte (d : digit) : ascii :=
  match d with
  | d0 => "0" | d1 => "1" | d2 => "2" | d3 => "3" | d4 => "4"
  | d5 => "5" | d6 => "6" | d7 => "7" | d8 => "8" | d9 => "9"
  end%char.

Fixpoint digits_string (ds : list digit) : string :=
  match ds with
  | [] => EmptyString
  | d :: ds' => String (digit_byte d) (digits_string ds')
  end.

(** What a run leaves behind besides the files: the lines it logs, each with
    the key/value pairs of its logger, and the calls it makes that can
    change the file system, in the order they happen. *)
Inductive event :=
  | EvLog (is_error : bool) (kv : list (string * string)) (msg : string)
  | EvCall (fn : string) (args : list string).

#[global] Instance event_eq_dec : EqDecision event.
Proof. solve_decision. Defined.

Record World := mkWorld {
  fs : gmap (list string) node;
  trace : list event
}.

(** What the process finds around it: its umask and working directory, the
    directory [os.TempDir()] names, the decimal digits of the random suffix
    [ioutil.TempDir] draws, the external commands (what running a command does to the file
    system, and whether it exits with status zero), the numbers that
    decide in which order a [range] over a map visits it, and whether
    klog's [logtostderr] flag can be set. *)
Record Env := mkEnv {
  umask : N;
  cwd : list string;
  os_TempDir : string;
  nextRandom : list digit;
  exec : World → string → list string → bool * gmap (list string) node;
  range_seed : list nat;
  logtostderr_ok : bool
}.

(** A call returns a value, returns an error, or is still running when the
    fuel of the model is used up. The world is threaded through all three;
    an error keeps what was done before it. *)
Inductive outcome (A : Type) :=
  | Ok (a : A)
  | Err (e : error)
  | OutOfFuel.
Arguments Ok {A} a.
Arguments Err {A} e.
Arguments OutOfFuel {A}.

Definition M (A : Type) : Type := World → outcome A * World.

Definition ret {A} (a : A) : M A := λ w, (Ok a, w).

Definition throw {A} (e : error) : M A := λ w, (Err e, w).

Definition bind {A B} (m : M A) (k : A → M B) : M B :=
  λ w, match m w with
       | (Ok a, w') => k a w'
       | (Err e, w') => (Err e, w')
       | (OutOfFuel, w') => (OutOfFuel, w')
       end.

Declare Scope run_scope.
Notation "x <- c1 ;; c2" := (bind c1 (λ x, c2))
  (at level 20, c1 at level 99, c2 at level 200, only parsing) : run_scope.
Notation "c1 ;; c2" := (bind c1 (λ _, c2))
  (at level 100, c2 at level 200, only parsing, right associativity)
  : run_scope.
Open Scope run_scope.

Definition emit (ev : event) : M unit :=
  λ w, (Ok tt, mkWorld (fs w) (trace w ++ [ev])).

Definition log_Info (kv : list (string * string)) (msg : string) : M unit :=
  emit (EvLog false kv msg).

Definition log_Error (kv : list (string * string)) (msg : string) : M unit :=
  emit (EvLog true kv msg).

(** The file system read and written by a call. *)
Definition get_fs : M (gmap (list string) node) := λ w, (Ok (fs w), w).

Definition put_fs (f : gmap (list string) node) : M unit :=
  λ w, (Ok tt, mkWorld f (trace w)).

(** [range] over a map visits every entry once, in an order the language
    leaves open: each number of the seed picks the next entry among those
    not visited yet. *)
Fixpoint shuffle {A} (seed : list nat) (xs : list A) : list A :=
  match seed with
  | [] => xs
  | n :: seed' =>
      match xs !! (n mod length xs) with
      | Some x => x :: shuffle seed' (delete (n mod length xs) xs)
      | None => xs
      end
  end.

Definition range_order (E : Env) (m : gmap string string)
  : list (string * string) :=
  shuffle (range_seed E) (map_to_list m).

(** A loop that returns at the first error. *)
Fixpoint for_each {A} (xs : list A) (body : A → M unit) : M unit :=
  match xs with
  | [] => ret tt
  | x :: xs' => body x ;; for_each xs' body
  end.

(** ** The calls of [os], [io] and [ioutil] the program makes *)

Record FileInfo := mkFileInfo {
  Name : string;
  IsDir : bool;
  Mode : N
}.

Definition info_of (name : string) (n : node) : FileInfo :=
  mkFileInfo name (is_dir n) (perm_of n).

(** The last element of a path name, as [FileInfo.Name] of [os.Stat]. *)
Definition basename (name : string) : string :=
  match last (filter (λ e, e ≠ "") (strings_Split name "/")) with
  | Some e => e
  | None => if String.eqb name "" then "." else "/"
  end.

(** The empty path names nothing: a call on it fails with [ENOENT]. *)
Definition named {A} (name : string) (m : M A) : M A :=
  if String.eqb name "" then throw ENOENT else m.

Definition os_Stat (E : Env) (name : string) : M FileInfo :=
  named name
    (f <- get_fs ;;
     match f !! resolve (cwd E) name with
     | Some n => ret (info_of (basename name) n)
     | None => throw ENOENT
     end).

(** [mkdir(2)]: the parent is a directory, the name is new, and the
    permission bits lose those of the umask. *)
Definition mkdir (E : Env) (p : list string) (perm : N)
    (f : gmap (list string) node) : error + gmap (list string) node :=
  match p with
  | [] => inl EEXIST
  | _ =>
      match f !! p with
      | Some _ => inl EEXIST
      | None =>
          match f !! removelast p with
          | Some (Dir _) => inr (<[p := Dir (N.ldiff perm (umask E))]> f)
          | Some (File _ _) => inl ENOTDIR
          | None => inl ENOENT
          end
      end
  end.

(** [os.MkdirAll]: nothing to do for a directory, an error for a file;
    otherwise the parent is made first (by the same rule) and then the
    directory itself. The recursion is on the path from its last name. *)
Fixpoint mkdir_all (E : Env) (rp : list string) (perm : N)
    (f : gmap (list string) node) : error + gmap (list string) node :=
  match f !! rev rp with
  | Some (Dir _) => inr f
  | Some (File _ _) => inl ENOTDIR
  | None =>
      match rp with
      | [] => mkdir E [] perm f
      | _ :: rp' =>
          match mkdir_all E rp' perm f with
          | inl e => inl e
          | inr f' => mkdir E (rev rp) perm f'
          end
      end
  end.

Definition lift_fs (op : gmap (list string) node → error + gmap (list string) node)
  : M unit :=
  f <- get_fs ;;
  match op f with
  | inl e => throw e
  | inr f' => put_fs f'
  end.

Definition os_MkdirAll (E : Env) (path : string) (perm : N) : M unit :=
  emit (EvCall "os.MkdirAll" [path]) ;;
  named path (lift_fs (mkdir_all E (rev (resolve (cwd E) path)) perm)).

Definition os_Mkdir (E : Env) (name : string) (perm : N) : M unit :=
  emit (EvCall "os.Mkdir" [name]) ;;
  named name (lift_fs (mkdir E (resolve (cwd E) name) perm)).

(** The entries of a directory: the nodes one name below it. *)
Definition entries (f : gmap (list string) node) (p : list string)
  : list FileInfo :=
  omap (λ kn : list string * node,
          match last kn.1 with
          | Some name =>
              if bool_decide (kn.1 = p ++ [name])
              then Some (info_of name kn.2) else None
          | None => None
          end)
       (map_to_list f).

Definition name_le (a b : FileInfo) : Prop := String.leb (Name a) (Name b) = true.

#[global] Instance name_le_dec a b : Decision (name_le a b).
Proof. unfold name_le. apply _. Defined.

(** [ioutil.ReadDir]: the entries of the directory, sorted by name. *)
Definition ioutil_ReadDir (E : Env) (dirname : string) : M (list FileInfo) :=
  named dirname
    (f <- get_fs ;;
     match f !! resolve (cwd E) dirname with
     | Some (Dir _) =>
         ret (merge_sort name_le (entries f (resolve (cwd E) dirname)))
     | Some (File _ _) => throw ENOTDIR
     | None => throw ENOENT
     end).

(** An open file is the node it was opened at: the program removes and
    renames nothing while it holds one. [os.Open] also opens directories. *)
Definition os_Open (E : Env) (name : string) : M (list string) :=
  named name
    (f <- get_fs ;;
     match f !! resolve (cwd E) name with
     | Some _ => ret (resolve (cwd E) name)
     | None => throw ENOENT
     end).

(** The permission bits [os.Create] asks for. *)
Definition perm_0666 : N := 438.
(** The permission bits [run] asks for the output directory. *)
Definition perm_0755 : N := 493.
(** The permission bits [ioutil.TempDir] asks for. *)
Definition perm_0700 : N := 448.

(** [os.Create]: an existing file is truncated and keeps its permission
    bits; a new one is made with [0666] less the umask. *)
Definition os_Create (E : Env) (name : string) : M (list string) :=
  emit (EvCall "os.Create" [name]) ;;
  named name
    (f <- get_fs ;;
     let p := resolve (cwd E) name in
     match f !! p with
     | Some (Dir _) => throw EISDIR
     | Some (File m _) => put_fs (<[p := File m ""]> f) ;; ret p
     | None =>
         match f !! removelast p with
         | Some (Dir _) =>
             put_fs (<[p := File (N.ldiff perm_0666 (umask E)) ""]> f) ;; ret p
         | Some (File _ _) => throw ENOTDIR
         | None => throw ENOENT
         end
     end).

(** Writing [data] at the start of a file that holds [old]. *)
Definition write_at_start (data old : string) : string :=
  data +:+ String.substring (String.length data)
                            (String.length old - String.length data) old.

(** [io.Copy(dst, src)]: all of the source is read and written to the
    destination, both from their start. Reading a directory is an error. *)
Definition io_Copy (dstfd srcfd : list string) : M unit :=
  f <- get_fs ;;
  match f !! srcfd with
  | Some (File _ data) =>
      match f !! dstfd with
      | Some (File m old) =>
          put_fs (<[dstfd := File m (write_at_start data old)]> f)
      | _ => throw EISDIR
      end
  | Some (Dir _) => throw EISDIR
  | None => throw ENOENT
  end.

Definition chmod (n : node) (mode : N) : node :=
  match n with
  | File _ data => File mode data
  | Dir _ => Dir mode
  end.

Definition os_Chmod (E : Env) (name : string) (mode : N) : M unit :=
  emit (EvCall "os.Chmod" [name]) ;;
  named name
    (f <- get_fs ;;
     let p := resolve (cwd E) name in
     match f !! p with
     | Some n => put_fs (<[p := chmod n mode]> f)
     | None => throw ENOENT
     end).

(** The last byte of a string and the one before it, the last first. *)
Fixpoint last_bytes (s : string) : list ascii :=
  match s with
  | EmptyString => []
  | String a s' =>
      match last_bytes s' with
      | [] => [a]
      | [z] => [z; a]
      | z :: y :: _ => [z; y]
      end
  end.

(** [endsWithDot] of the library: the path is [.] or ends in [/.]. *)
Definition endsWithDot (path : string) : bool :=
  match last_bytes path with
  | ["."%char] => true
  | ["."%char; "/"%char] => true
  | _ => false
  end.

(** [os.RemoveAll]: the path and everything below it goes; a missing path
    is not an error. The empty path is left alone, and a path that ends in
    a dot is refused, as [rmdir] refuses it. *)
Definition os_RemoveAll (E : Env) (path : string) : M unit :=
  emit (EvCall "os.RemoveAll" [path]) ;;
  if String.eqb path "" then ret tt
  else if endsWithDot path then throw EINVAL
  else
    f <- get_fs ;;
    put_fs (filter (λ kn : list string * node,
                      ¬ resolve (cwd E) path `prefix_of` kn.1) f).

(** [ioutil.TempDir(dir, prefix)]: a new directory, named by the prefix and
    a random number, in [dir] or in [os.TempDir()] when [dir] is empty. The
    number of the environment is the one the call settles on. *)
Definition ioutil_TempDir (E : Env) (dir prefix : string) : M string :=
  let dir := if String.eqb dir "" then os_TempDir E else dir in
  let name := filepath_Join [dir; prefix +:+ digits_string (nextRandom E)] in
  os_Mkdir E name perm_0700 ;;
  ret name.

(** [exec.Command(name, args...).Run()]. *)
Definition cmd_Run (E : Env) (name : string) (args : list string) : M unit :=
  emit (EvCall "exec" (name :: args)) ;;
  λ w, let '(ok, f') := exec E w name args in
       (if ok then Ok tt else Err ExitError, mkWorld f' (trace w)).

(** ** The program *)

(** The flags of the command line. *)
Record Config := mkConfig {
  repoURL : string;
  repoContentDir : string;
  outputDir : string;
  latestBranch : string;
  branches : list string;
  debug : bool
}.

Definition notEmpty (name val : string) : M bool :=
  if String.eqb val "" then
    log_Info [] ("--" +:+ name +:+ " must be specified") ;; ret false
  else ret true.

Definition validateFlags (cfg : Config) : M bool :=
  let valid := true in
  v1 <- notEmpty "repo-url" (repoURL cfg) ;;
  let valid := v1 && valid in
  v2 <- notEmpty "repo-content-dir" (repoContentDir cfg) ;;
  let valid := v2 && valid in
  v3 <- notEmpty "output-dir" (outputDir cfg) ;;
  let valid := v3 && valid in
  ret valid.

Definition runCommand (E : Env) (cfg : Config) (kv : list (string * string))
    (name : string) (args : list string) : M unit :=
  let kv := kv ++ [("cmd", name); ("args", strings_Join args " ")] in
  (if debug cfg then log_Info kv "Running command" else ret tt) ;;
  λ w, match cmd_Run E name args w with
       | (Err e, w') => (log_Error kv "Error running command" ;; throw e) w'
       | r => r
       end.

(** The arguments [fetchRepository] gives to [git]. *)
Definition clone_args (branchName repoURL cloneDir : string) : list string :=
  ["clone"; "-b"; branchName; repoURL; cloneDir].

Definition fetchRepository (E : Env) (cfg : Config)
    (kv : list (string * string)) (tmpdir repoURL version branchName : string)
  : M string :=
  log_Info kv "Fetching repository at revision" ;;
  let cloneDir := filepath_Join [tmpdir; "repo"; version] in
  runCommand E cfg kv "git" (clone_args branchName repoURL cloneDir) ;;
  ret cloneDir.

Definition copyFile (E : Env) (src dst : string) : M unit :=
  srcfd <- os_Open E src ;;
  dstfd <- os_Create E dst ;;
  io_Copy dstfd srcfd ;;
  srcinfo <- os_Stat E src ;;
  os_Chmod E dst (Mode srcinfo).

(** The body of the loop of [copyDir] over the entries of the source
    directory; [copyDir_rec] is [copyDir] itself. *)
Definition copyDir_entry (E : Env) (copyDir_rec : string → string → M unit)
    (src dst : string) (fd : FileInfo) : M unit :=
  let srcfp := path_Join [src; Name fd] in
  let dstfp := path_Join [dst; Name fd] in
  if IsDir fd then copyDir_rec srcfp dstfp
  else copyFile E srcfp dstfp.

(** [copyDir] calls itself on every subdirectory it reads; the fuel bounds
    the depth of the calls. *)
Fixpoint copyDir (E : Env) (fuel : nat) (src dst : string) : M unit :=
  match fuel with
  | O => λ w, (OutOfFuel, w)
  | S fuel' =>
      srcinfo <- os_Stat E src ;;
      os_MkdirAll E dst (Mode srcinfo) ;;
      fds <- ioutil_ReadDir E src ;;
      for_each fds (copyDir_entry E (copyDir E fuel') src dst)
  end.

Definition cleanup (E : Env) (cfg : Config) (kv : list (string * string))
    (dir : string) : M unit :=
  let kv := kv ++ [("directory", dir)] in
  if debug cfg then log_Info kv "Skipping cleaning up temporary directory"
  else
    λ w, match os_RemoveAll E dir w with
         | (Err e, w') =>
             log_Error kv "Failed to cleanup temporary directory" w'
         | (Ok _, w') => log_Info kv "Cleaned up temporary directory" w'
         | (OutOfFuel, w') => (OutOfFuel, w')
         end.

(** [defer]: the deferred call runs when the body returns, with a value or
    with an error, and the body's result is the result. *)
Definition defer {A} (deferred : M unit) (body : M A) : M A :=
  λ w, match body w with
       | (OutOfFuel, w') => (OutOfFuel, w')
       | (r, w') => (r, (deferred w').2)
       end.

(** The body of the loop of [run] over the version map. *)
Definition run_version (E : Env) (cfg : Config) (fuel : nat)
    (tmpdir : string) (entry : string * string) : M unit :=
  let '(vers, branch) := entry in
  let kv := [("version", vers); ("branch", branch)] in
  log_Info kv "Adding version to list to generate" ;;
  loc <- (λ w, match fetchRepository E cfg kv tmpdir (repoURL cfg) vers branch w with
               | (Err e, w') =>
                   (log_Error kv "Failed to fetch repository" ;; throw e) w'
               | r => r
               end) ;;
  log_Info (kv ++ [("path", loc)]) "Fetched repository" ;;
  log_Info kv "Copying content to output directory" ;;
  let src := filepath_Join [loc; repoContentDir cfg] in
  let dst := filepath_Join [outputDir cfg; vers] in
  λ w, match copyDir E fuel src dst w with
       | (Err e, w') =>
           (log_Error kv "Failed to copy content from source repository to output directory" ;;
            throw e) w'
       | r => r
       end.

(** What [run] does once the workspace exists and its removal is
    deferred. *)
Definition run_body (E : Env) (cfg : Config) (fuel : nat) (tmpdir : string)
  : M unit :=
  (λ w, match os_MkdirAll E (outputDir cfg) perm_0755 w with
        | (Err e, w') =>
            (log_Info [] "Error creating output directory" ;; throw e) w'
        | r => r
        end) ;;
  for_each (range_order E (versionMap (branches cfg) (latestBranch cfg)))
           (run_version E cfg fuel tmpdir) ;;
  log_Info [] "Built content directory" ;;
  ret tt.

Definition run (E : Env) (cfg : Config) (fuel : nat) : M unit :=
  if String.eqb (latestBranch cfg) "" && Nat.eqb (length (branches cfg)) 0 then
    log_Info [] "Nothing to do!" ;; ret tt
  else
    tmpdir <- ioutil_TempDir E "" "hugo-multiversion-" ;;
    defer (cleanup E cfg [] tmpdir) (run_body E cfg fuel tmpdir).

(** [main] from the parsed flags on: the exit status of the process, or
    nothing when the run is out of fuel. *)
Definition main (E : Env) (cfg : Config) (fuel : nat) (w : World)
  : option N * World :=
  if negb (logtostderr_ok E) then (Some 2%N, w)
  else
    match validateFlags cfg w with
    | (Ok true, w1) =>
        match run E cfg fuel w1 with
        | (Ok _, w2) => (Some 0%N, w2)
        | (Err e, w2) => (Some 1%N, (log_Error [] "Failed to run" w2).2)
        | (OutOfFuel, w2) => (None, w2)
        end
    | (_, w1) => (Some 1%N, w1)
    end.

(** ** What a [git clone] command line asks for

    [git clone] fetches every branch of the repository with its whole
    history unless the command line carries [--single-branch], or one of
    [--depth], [--shallow-since], [--shallow-exclude] (a shallow clone,
    which is also single-branch). The two tests below look for an argument
    spelled like one of these options. *)

Definition asks_shallow (args : list string) : bool :=
  existsb (λ a, String.prefix "--depth" a || String.prefix "--shallow-" a) args.

Definition asks_single_branch (args : list string) : bool :=
  existsb (String.eqb "--single-branch") args || asks_shallow args.

(** The command lines run, read off a trace. *)
Definition commands_run (t : list event) : list (list string) :=
  omap (λ ev, match ev with
              | EvCall fn argv => if String.eqb fn "exec" then Some argv else None
              | _ => None
              end) t.

(** The versions fetched and the versions copied, read off a trace: [run]
    logs a line with the version and the branch before each of the two. *)
Definition logged (msg : string) (t : list event) : list (string * string) :=
  omap (λ ev, match ev with
              | EvLog false [(k1, v); (k2, b)] m =>
                  if String.eqb k1 "version" && String.eqb k2 "branch" &&
                     String.eqb m msg
                  then Some (v, b) else None
              | _ => None
              end) t.

Definition fetches : list event → list (string * string) :=
  logged "Fetching repository at revision".

Definition copies : list event → list (string * string) :=
  logged "Copying content to output directory".

(** The events of the deferred [cleanup]. *)
Definition cleanup_events (cfg : Config) (dir : string) : list event :=
  if debug cfg
  then [EvLog false [("directory", dir)] "Skipping cleaning up temporary directory"]
  else [EvCall "os.RemoveAll" [dir];
        EvLog false [("directory", dir)] "Cleaned up temporary directory"].

(** A name that can be an entry of a directory: not empty, not [.] or
    [..], and without a slash. *)
Definition plain (n : string) : bool :=
  negb (String.eqb n "") && negb (String.eqb n ".") &&
  negb (String.eqb n "..") && negb (has_byte "/" n).

(** A clean path name: plain names with one slash between them, after a
    leading slash or not; no [.] or [..] element, no doubled slash and no
    slash at the end. For such a name the system walks exactly the names
    that [resolve] appends. *)
Definition clean_name (name : string) : bool :=
  match strings_Split name "/" with
  | EmptyString :: rest => forallb plain rest
  | parts => forallb plain parts
  end.

(** No name on the way to [p] (nor [p] itself) is a regular file: a walk
    along [p] that does not arrive stops at a missing name. *)
Definition no_file_above (f : gmap (list string) node) (p : list string)
  : Prop :=
  ∀ q m c, q `prefix_of` p → f !! q ≠ Some (File m c).

(** The elements the buffer of [Clean] can hold: not empty, not [.] and
    without a slash. *)
Definition clean_elem (e : string) : Prop :=
  e ≠ "" ∧ e ≠ "." ∧ has_byte "/" e = false.

(** The elements the buffer of [Clean] can hold for a rooted path. *)
Definition rooted_elem (e : string) : Prop := clean_elem e ∧ e ≠ "..".

(** An event of a call into the file system: not a log line and not a
    command. A computation is quiet when these are the only events it adds
    to the trace. *)
Definition is_fs_call (ev : event) : bool :=
  match ev with
  | EvCall fn _ => negb (String.eqb fn "exec")
  | EvLog _ _ _ => false
  end.

Definition quiet {A} (m : M A) : Prop :=
  ∀ w, ∃ t, trace (m w).2 = trace w ++ t ∧ Forall (λ ev, is_fs_call ev = true) t.

(** The events of one turn of the loop of [run] up to the start of [git],
    and the command line of that [git]. *)
Definition clone_dir (tmpdir version : string) : string :=
  filepath_Join [tmpdir; "repo"; version].

Definition clone_command (cfg : Config) (tmpdir : string)
    (entry : string * string) : list string :=
  "git" :: clone_args entry.2 (repoURL cfg) (clone_dir tmpdir entry.1).

Definition version_kv (entry : string * string) : list (string * string) :=
  [("version", entry.1); ("branch", entry.2)].

Definition command_kv (cfg : Config) (tmpdir : string)
    (entry : string * string) : list (string * string) :=
  version_kv entry ++
  [("cmd", "git");
   ("args", strings_Join (clone_args entry.2 (repoURL cfg)
                                     (clone_dir tmpdir entry.1)) " ")].

Definition fetch_events (cfg : Config) (tmpdir : string)
    (entry : string * string) : list event :=
  [EvLog false (version_kv entry) "Adding version to list to generate";
   EvLog false (version_kv entry) "Fetching repository at revision"] ++
  (if debug cfg
   then [EvLog false (command_kv cfg tmpdir entry) "Running command"]
   else []) ++
  [EvCall "exec" (clone_command cfg tmpdir entry)].

Definition fetch_failed_events (cfg : Config) (tmpdir : string)
    (entry : string * string) : list event :=
  [EvLog true (command_kv cfg tmpdir entry) "Error running command";
   EvLog true (version_kv entry) "Failed to fetch repository"].

Definition fetched_events (tmpdir : string) (entry : string * string)
  : list event :=
  [EvLog false (version_kv entry ++ [("path", clone_dir tmpdir entry.1)])
         "Fetched repository";
   EvLog false (version_kv entry) "Copying content to output directory"].

Definition copy_failed_events (entry : string * string) : list event :=
  [EvLog true (version_kv entry)
         "Failed to copy content from source repository to output directory"].

(** The world in which [git] starts for an entry of the version map. *)
Definition at_fetch (cfg : Config) (tmpdir : string)
    (entry : string * string) (w : World) : World :=
  mkWorld (fs w) (trace w ++ fetch_events cfg tmpdir entry).


(** The workspace [run] asks [ioutil.TempDir] for. *)
Definition workspace (E : Env) : string :=
  filepath_Join [os_TempDir E;
                 "hugo-multiversion-" +:+ digits_string (nextRandom E)].

(** ** The shape of the trees [copyDir] works on *)

(** The permission bits a new directory gets. *)
Definition masked (E : Env) (perm : N) : N := N.ldiff perm (umask E).

(** The tree below [S] is a tree of directories and regular files: every
    node below [S] has a plain name and lies in a directory. *)
Definition tree_ok (f : gmap (list string) node) (S : list string) : Prop :=
  ∀ r n x, f !! (S ++ r ++ [n]) = Some x →
           plain n = true ∧ ∃ m, f !! (S ++ r) = Some (Dir m).

(** No node below [S] is [fuel] or more names below it. *)
Definition fits (f : gmap (list string) node) (S : list string) (fuel : nat)
  : Prop :=
  ∀ r, is_Some (f !! (S ++ r)) → (length r < fuel)%nat.

(** Where there is a node at the same place below [S] and below [D], both
    are directories or both are files. *)
Definition compatible (f : gmap (list string) node) (S D : list string) : Prop :=
  ∀ r x y, f !! (S ++ r) = Some x → f !! (D ++ r) = Some y →
           is_dir x = is_dir y.

(** The first [k] names of [D] lead to a directory, and nothing exists
    further along [D]. *)
Definition dst_ok (f : gmap (list string) node) (D : list string) (k : nat)
  : Prop :=
  (k ≤ length D)%nat ∧ (∃ m, f !! take k D = Some (Dir m)) ∧
  ∀ j, (k < j ≤ length D)%nat → f !! take j D = None.

(** What [copyDir] leaves at [D ++ r]: the file of the source, the
    directory that was there or a new one for a directory of the source,
    and what was there where the source has nothing. *)
Definition copied_at (E : Env) (f : gmap (list string) node)
    (S D r : list string) : option node :=
  match f !! (S ++ r) with
  | Some (File m c) => Some (File m c)
  | Some (Dir m) =>
      Some (match f !! (D ++ r) with
            | Some x => x
            | None => Dir (masked E m)
            end)
  | None => f !! (D ++ r)
  end.

(** What [os.MkdirAll] leaves at [p], for a destination [D] whose first
    [k] names exist: the missing directories along [D] are new. *)
Definition made_at (E : Env) (f : gmap (list string) node)
    (D : list string) (k : nat) (perm : N) (p : list string) : option node :=
  if bool_decide (p `prefix_of` D ∧ (k < length p)%nat)
  then Some (Dir (masked E perm)) else f !! p.

(** ** What a call can touch *)

(** From the world [w] the computation [m] touches only the paths in [P]:
    every other path holds in the world it leaves what it held in [w],
    whatever the outcome. *)
Definition touches_only {A} (P : list string → Prop) (m : M A) (w : World)
  : Prop :=
  ∀ q, ¬ P q → fs (m w).2 !! q = fs w !! q.

(** The paths below [D] and those on the way to it. *)
Definition around (D q : list string) : Prop :=
  D `prefix_of` q ∨ q `prefix_of` D.

(** ** The order of the copy *)

(** Follows the spec's words (depth-first pre-order traversal): the nodes
    of the tree below [base], by their path from [base] and with [true] for
    a directory. A directory comes before the nodes below it, and these come
    entry by entry, the entries in the order of their names; every node
    below an entry comes before the next entry. [r] is the path of the node
    the listing starts at, and [fuel] bounds the number of names below
    it. *)
Fixpoint preorder (f : gmap (list string) node) (fuel : nat)
    (base r : list string) : list (list string * bool) :=
  match fuel with
  | 0%nat => []
  | Datatypes.S fuel' =>
      match f !! (base ++ r) with
      | Some (Dir _) =>
          (r, true) ::
          flat_map (λ fd, preorder f fuel' base (r ++ [Name fd]))
                   (merge_sort name_le (entries f (base ++ r)))
      | Some (File _ _) => [(r, false)]
      | None => []
      end
  end.

(** A bound on the number of names of a path of the file system, and the
    listing of the whole tree below [base]. *)
Definition depth (f : gmap (list string) node) : nat :=
  Datatypes.S (max_list (length <$> (map_to_list f).*1)).

Definition tree_preorder (f : gmap (list string) node) (base : list string)
  : list (list string * bool) :=
  preorder f (depth f) base [].

(** A listing by paths from the source, as paths from [D]. *)
Definition moved_to (D : list string) (l : list (list string * bool))
  : list (list string * bool) :=
  map (λ x, (D ++ x.1, x.2)) l.

(** The directories and the files a stretch of a trace asks the file
    system to make, in the order of the calls: [os.MkdirAll] for a
    directory, [os.Create] for a file. *)
Definition written (E : Env) (t : list event) : list (list string * bool) :=
  omap (λ ev, match ev with
              | EvCall fn [name] =>
                  if String.eqb fn "os.MkdirAll"
                  then Some (resolve (cwd E) name, true)
                  else if String.eqb fn "os.Create"
                       then Some (resolve (cwd E) name, false)
                       else None
              | _ => None
              end) t.

(** What the proof of [copyDir] asks of a source [src], a destination [dst]
    and the world they are in, and what it gives for the world after. *)
Definition copy_pre (E : Env) (fuel : nat) (src dst : string) (w : World)
    (k : nat) (mS : N) : Prop :=
  let S := resolve (cwd E) src in
  let D := resolve (cwd E) dst in
  fs w !! S = Some (Dir mS) ∧
  tree_ok (fs w) S ∧ fits (fs w) S fuel ∧
  ¬ S `prefix_of` D ∧ ¬ D `prefix_of` S ∧
  compatible (fs w) S D ∧ dst_ok (fs w) D k ∧
  src ≠ "" ∧ dst ≠ "".

Definition copy_post (E : Env) (fuel : nat) (src dst : string) (w w' : World)
    (k : nat) (mS : N) : Prop :=
  let S := resolve (cwd E) src in
  let D := resolve (cwd E) dst in
  (∀ r, fs w' !! (D ++ r) = copied_at E (fs w) S D r) ∧
  (∀ p, ¬ D `prefix_of` p → fs w' !! p = made_at E (fs w) D k mS p) ∧
  ∃ t, trace w' = trace w ++ t ∧
       written E t = moved_to D (preorder (fs w) fuel S []).

Definition copies_tree (E : Env) (fuel : nat)
    (copy : string → string → M unit) : Prop :=
  ∀ src dst w k mS,
    copy_pre E fuel src dst w k mS →
    ∃ w', copy src dst w = (Ok tt, w') ∧ copy_post E fuel src dst w w' k mS.

(** The state of the loop of [copyDir] from [S] to [D], started in the file
    system [f] and with [f1] after [os.MkdirAll], when the entries named in
    [seen] have been copied. *)
Definition loop_inv (E : Env) (f f1 : gmap (list string) node)
    (S D : list string) (seen : list string) (w : World) : Prop :=
  (∀ p, ¬ D `prefix_of` p → fs w !! p = f1 !! p) ∧
  fs w !! D = f1 !! D ∧
  ∀ n r, fs w !! (D ++ n :: r)
         = if bool_decide (n ∈ seen) then copied_at E f S D (n :: r)
           else f !! (D ++ n :: r).

(** ** Deciding the shape of a tree *)

(** [strip S p] is what is left of [p] after [S], when [p] starts with
    [S]. *)
Fixpoint strip (S p : list string) : option (list string) :=
  match S, p with
  | [], _ => Some p
  | a :: S', b :: p' => if bool_decide (a = b) then strip S' p' else None
  | _ :: _, [] => None
  end.

Definition tree_okb (f : gmap (list string) node) (S : list string) : bool :=
  forallb (λ kn : list string * node,
             match strip S kn.1 with
             | Some r =>
                 match last r with
                 | Some n =>
                     plain n &&
                     match f !! removelast kn.1 with
                     | Some (Dir _) => true
                     | _ => false
                     end
                 | None => true
                 end
             | None => true
             end)
          (map_to_list f).

Definition compatibleb (f : gmap (list string) node) (S D : list string)
  : bool :=
  forallb (λ kn : list string * node,
             match strip S kn.1 with
             | Some r =>
                 match f !! (D ++ r) with
                 | Some y => Bool.eqb (is_dir kn.2) (is_dir y)
                 | None => true
                 end
             | None => true
             end)
          (map_to_list f).

(** ** Sample worlds

    A process with umask [022] in the root directory, temporary
    directories in [/tmp], and a [git] that knows a repository with the
    branches [main] and [release-1]: a clone puts the tree of the branch
    into the directory it is given, an unknown branch is an error. *)

Definition graft (at_ : list string) (tree : list (list string * node))
    (f : gmap (list string) node) : gmap (list string) node :=
  fold_left (λ acc kn, <[at_ ++ kn.1 := kn.2]> acc) tree f.

(** The tree of a branch: a content directory with a page and a
    subdirectory that everybody may write (mode [0777]). *)
Definition demo_branch : list (list string * node) :=
  [([], Dir 493);
   (["content"], Dir 493);
   (["content"; "index.md"], File 420 "hello");
   (["content"; "docs"], Dir 511);
   (["content"; "docs"; "a.md"], File 384 "aaa")].

(** A later state of the branch: [docs] has become a regular file. *)
Definition demo_branch_flat : list (list string * node) :=
  [([], Dir 493);
   (["content"], Dir 493);
   (["content"; "a.md"], File 420 "aaa");
   (["content"; "docs"], File 420 "all the docs")].

Definition demo_repo (branch : string) : option (list (list string * node)) :=
  if String.eqb branch "main" then Some demo_branch
  else if String.eqb branch "release-1" then Some demo_branch
  else if String.eqb branch "release-2" then Some demo_branch_flat
  else None.

Definition demo_git (w : World) (name : string) (args : list string)
  : bool * gmap (list string) node :=
  match args with
  | ["clone"; "-b"; branch; _; dir] =>
      match demo_repo branch with
      | Some tree =>
          (true, graft (resolve [] dir) tree
                   (<[removelast (resolve [] dir) := Dir 493]> (fs w)))
      | None => (false, fs w)
      end
  | _ => (false, fs w)
  end.

Definition demo_env : Env :=
  mkEnv 18 [] "/tmp" [d1; d2; d3; d4; d5; d6; d7; d8; d9] demo_git [] true.

Definition demo_world : World :=
  mkWorld (list_to_map [([], Dir 493); (["tmp"], Dir 511)]) [].

Definition demo_url : string := "https://example.org/docs.git".

(** Two versions and the latest branch; every branch exists. *)
Definition demo_cfg : Config :=
  mkConfig demo_url "content" "/out" "main" ["v1=release-1"] false.

(** The second branch does not exist. *)
Definition demo_cfg_gone : Config :=
  mkConfig demo_url "content" "/out" "" ["v1=release-1"; "v0=gone"] false.



(** A source tree in [/src] and an output directory with files of its
    own. *)
Definition demo_world_copy : World :=
  mkWorld (graft ["src"] demo_branch
             (list_to_map [([], Dir 493);
                           (["out"], Dir 493);
                           (["out"; "index.md"], File 384 "stale");
                           (["out"; "notes.txt"], File 420 "mine");
                           (["out"; "docs"], Dir 448);
                           (["out"; "docs"; "b.md"], File 420 "bbb")])) [].

(** The same source, and an output directory in which [docs] is a file. *)
Definition demo_world_clash : World :=
  mkWorld (graft ["src"] demo_branch
             (list_to_map [([], Dir 493);
                           (["out"], Dir 493);
                           (["out"; "docs"], File 420 "not a directory")])) [].

(** The worlds along the run over [demo_cfg_gone]: after the flags are
    validated, after the workspace is made, after the output directory is
    made, after the turn for [v1], after the turn for [v0]; and the world
    the body of the run leaves. *)
Definition gone_w : World := (validateFlags demo_cfg_gone demo_world).2.

Definition gone_w1 : World :=
  (ioutil_TempDir demo_env "" "hugo-multiversion-" gone_w).2.




Definition gone_body : World :=
  (run_body demo_env demo_cfg_gone 5 (workspace demo_env) gone_w1).2.








(** Nothing to do. *)
Definition demo_cfg_idle : Config :=
  mkConfig demo_url "content" "/out" "" [] false.

(** ** Reading the flags and the tokens *)

(** The line [notEmpty] logs for a flag without a value, and the lines of
    [validateFlags] in the order of its checks. *)
Definition missing_flag (name val : string) : list event :=
  if String.eqb val ""
  then [EvLog false [] ("--" +:+ name +:+ " must be specified")]
  else [].

Definition missing_flags (cfg : Config) : list event :=
  missing_flag "repo-url" (repoURL cfg) ++
  missing_flag "repo-content-dir" (repoContentDir cfg) ++
  missing_flag "output-dir" (outputDir cfg).

Definition flags_valid (cfg : Config) : bool :=
  negb (String.eqb (repoURL cfg) "") &&
  negb (String.eqb (repoContentDir cfg) "") &&
  negb (String.eqb (outputDir cfg) "").

(** The version and the branch that the loop of [parseBranchesFlag] writes
    for a token: the key and the value of its two assignments. *)
Definition token_entry (b : string) : string * string :=
  let splitStr := strings_Split b "=" in
  if Nat.eqb (length splitStr) 1 then (b, b)
  else (hd EmptyString splitStr, strings_Join (tl splitStr) "").

(** A string without the occurrences of a byte. *)
Fixpoint delete_byte (c : ascii) (s : string) : string :=
  match s with
  | EmptyString => EmptyString
  | String a s' =>
      if Ascii.eqb a c then delete_byte c s' else String a (delete_byte c s')
  end.

(** ** More sample worlds *)

(** A world in which the output path is taken by a regular file, and one
    without the directory for temporary files. *)
Definition demo_world_blocked : World :=
  mkWorld (list_to_map [([], Dir 493); (["tmp"], Dir 511);
                        (["out"], File 420 "in the way")]) [].

Definition demo_world_no_tmp : World :=
  mkWorld (list_to_map [([], Dir 493); (["out"], Dir 493)]) [].

(** A [git] that clones into a fresh directory: what was at the directory
    it is given goes, the tree of the branch comes, and the directory above
    is made. [demo_content] is what a branch holds below its content
    directory. *)
Definition fresh_clone (dir : list string) (tree : list (list string * node))
    (f : gmap (list string) node) : gmap (list string) node :=
  kmap (app dir) (list_to_map tree : gmap (list string) node)
  ∪ <[removelast dir := Dir 493]>
      (filter (λ kn : list string * node, ¬ dir `prefix_of` kn.1) f).

Definition demo_git_fresh (w : World) (name : string) (args : list string)
  : bool * gmap (list string) node :=
  match args with
  | ["clone"; "-b"; branch; _; dir] =>
      match demo_repo branch with
      | Some tree => (true, fresh_clone (resolve [] dir) tree (fs w))
      | None => (false, fs w)
      end
  | _ => (false, fs w)
  end.

Definition demo_env_fresh : Env :=
  mkEnv 18 [] "/tmp" [d1; d2; d3; d4; d5; d6; d7; d8; d9] demo_git_fresh [] true.

Definition demo_content (branch : string) (r : list string) : option node :=
  match demo_repo branch with
  | Some tree => (list_to_map tree : gmap (list string) node) !! ("content" :: r)
  | None => None
  end.

(** [no_file_above], decided along the prefixes of the path. *)
Definition no_file_aboveb (f : gmap (list string) node) (p : list string)
  : bool :=
  forallb (λ j, match f !! take j p with
                | Some (File _ _) => false
                | _ => true
                end)
          (seq 0 (Datatypes.S (length p))).

(** * Properties *)

(** ** Facts about splitting and joining *)

Lemma strings_Split_nonempty s sep : strings_Split s sep ≠ [].
Proof.
  destruct s as [|a s]; simpl; [done|].
  destruct (Ascii.eqb a sep); [done|].
  by destruct (strings_Split s sep).
Qed.

Lemma strings_Split_no_sep s sep :
  has_byte sep s = false → strings_Split s sep = [s].
Proof.
  induction s as [|a s IH]; simpl; [done|].
  destruct (Ascii.eqb a sep); [done|].
  intros H. by rewrite (IH H).
Qed.

Lemma strings_Split_app s t sep :
  has_byte sep s = false →
  strings_Split (s +:+ String sep t) sep = s :: strings_Split t sep.
Proof.
  induction s as [|a s IH]; simpl.
  - by rewrite Ascii.eqb_refl.
  - destruct (Ascii.eqb a sep); [done|].
    intros H. by rewrite (IH H).
Qed.

Lemma has_byte_decompose c s :
  has_byte c s = true →
  ∃ name rest, s = name +:+ String c rest ∧ has_byte c name = false.
Proof.
  induction s as [|a s IH]; simpl; [done|].
  destruct (Ascii.eqb a c) eqn:E.
  - apply Ascii.eqb_eq in E as ->. intros _. by exists EmptyString, s.
  - intros H. destruct (IH H) as (name & rest & -> & Hn).
    exists (String a name), rest. simpl. by rewrite E.
Qed.

Lemma parseBranchesFlag_snoc bs b :
  parseBranchesFlag (bs ++ [b])
  = parseBranchesFlag_body (parseBranchesFlag bs) b.
Proof. unfold parseBranchesFlag. by rewrite fold_left_app. Qed.

(** Every part produced by [strings.Split] is free of the separator, and
    joining the parts with the separator gives the string back: the two
    facts that pin the parts down. *)
Lemma strings_Split_parts_free s sep :
  Forall (λ p, has_byte sep p = false) (strings_Split s sep).
Proof.
  induction s as [|a s IH]; simpl.
  - by constructor.
  - destruct (Ascii.eqb a sep) eqn:E.
    + by constructor.
    + destruct (strings_Split s sep) as [|p ps]; simpl.
      * constructor; [by simpl; rewrite E|done].
      * inversion IH; subst. constructor; [by simpl; rewrite E|done].
Qed.

Lemma strings_Join_Split s sep :
  strings_Join (strings_Split s sep) (String sep EmptyString) = s.
Proof.
  induction s as [|a s IH]; simpl; [done|].
  destruct (Ascii.eqb a sep) eqn:E.
  - apply Ascii.eqb_eq in E as ->.
    pose proof (strings_Split_nonempty s sep).
    destruct (strings_Split s sep) as [|p ps]; [done|].
    simpl in *. by rewrite IH.
  - pose proof (strings_Split_nonempty s sep).
    destruct (strings_Split s sep) as [|p ps]; [done|].
    destruct ps; simpl in *; by rewrite <- IH.
Qed.

(** ** The lexical path functions on the cases of the Go documentation *)

Example path_Clean_cases :
  map path_Clean
    [""; "abc"; "abc/def"; "."; ".."; "../../abc"; "/abc"; "/"; "abc/";
     "./"; "../../"; "abc//def//ghi"; "///abc"; "//abc//"; "abc/./def";
     "/./abc/def"; "abc/."; "abc/def/ghi/../jkl"; "abc/def/../ghi/../jkl";
     "abc/def/../.."; "/abc/def/../.."; "abc/def/../../..";
     "/abc/def/../../.."; "abc/def/../../../ghi/jkl/../../../mno";
     "abc/./../def"; "abc/../../././../def"; "/../abc"]
  = ["."; "abc"; "abc/def"; "."; ".."; "../../abc"; "/abc"; "/"; "abc";
     "."; "../.."; "abc/def/ghi"; "/abc"; "/abc"; "abc/def";
     "/abc/def"; "abc"; "abc/def/jkl"; "abc/jkl";
     "."; "/"; "..";
     "/"; "../../mno";
     "def"; "../../def"; "/abc"].
Proof. reflexivity. Qed.

Example path_Join_cases :
  map path_Join
    [[]; [""]; ["a"]; ["a"; "b"]; ["a"; ""]; [""; "b"]; ["/"; "a"];
     ["a/"; "b"]; ["a/"; ""]; [""; ""]; ["a"; "b"; "c"]; ["/tmp/x"; "repo"; "v1/"]]
  = [""; ""; "a"; "a/b"; "a"; "b"; "/a";
     "a/b"; "a"; ""; "a/b/c"; "/tmp/x/repo/v1"].
Proof. reflexivity. Qed.

(** ** The version resolver *)

Lemma parseBranchesFlag_body_plain out b :
  has_byte "=" b = false → parseBranchesFlag_body out b = <[b := b]> out.
Proof.
  intros H. unfold parseBranchesFlag_body.
  by rewrite (strings_Split_no_sep _ _ H).
Qed.

Lemma parseBranchesFlag_body_pair out name rest :
  has_byte "=" name = false →
  parseBranchesFlag_body out (name +:+ "=" +:+ rest)
  = <[name := strings_Join (strings_Split rest "=") ""]> out.
Proof.
  intros H. unfold parseBranchesFlag_body.
  change (name +:+ "=" +:+ rest) with (name +:+ String "=" rest).
  rewrite (strings_Split_app _ _ _ H). simpl.
  pose proof (strings_Split_nonempty rest "=").
  by destruct (strings_Split rest "=").
Qed.

(** C1. A token with at least one ['='] is [name=rest] with no ['='] in
    [name], the part before the first ['=']; processing it (after any
    earlier tokens) writes under [name] the parts of [rest] between the
    ['='] signs, joined with no separator. In particular [a=b] gives
    [a -> b] and [a=b=c] gives [a -> bc]. *)
Theorem parseBranchesFlag_token_with_equals :
  (∀ (bs : list string) (tok : string),
     has_byte "=" tok = true →
     ∃ name rest,
       tok = name +:+ "=" +:+ rest ∧ has_byte "=" name = false ∧
       parseBranchesFlag (bs ++ [tok])
       = <[name := strings_Join (strings_Split rest "=") ""]>
           (parseBranchesFlag bs)) ∧
  parseBranchesFlag ["a=b"] = {["a" := "b"]} ∧
  parseBranchesFlag ["a=b=c"] = {["a" := "bc"]}.
Proof.
  split; [|done].
  intros bs tok Htok.
  destruct (has_byte_decompose _ _ Htok) as (name & rest & -> & Hname).
  exists name, rest. split_and!; [done..|].
  rewrite parseBranchesFlag_snoc.
  by apply parseBranchesFlag_body_pair.
Qed.

Lemma parseBranchesFlag_token_with_equals_witness :
  ∃ name rest,
    "v1=release=1" = name +:+ "=" +:+ rest ∧ has_byte "=" name = false ∧
    parseBranchesFlag (["v0"] ++ ["v1=release=1"])
    = <[name := strings_Join (strings_Split rest "=") ""]>
        (parseBranchesFlag ["v0"]).
Proof.
  apply (proj1 parseBranchesFlag_token_with_equals ["v0"] "v1=release=1").
  reflexivity.
Defined.

(** C5. A token without ['='] is written into the map as its own version
    name and branch name, whatever tokens came before it; the resolver is a
    total function and has no error to return. *)
Theorem parseBranchesFlag_token_without_equals (bs : list string) (tok : string) :
  has_byte "=" tok = false →
  parseBranchesFlag (bs ++ [tok]) = <[tok := tok]> (parseBranchesFlag bs) ∧
  parseBranchesFlag (bs ++ [tok]) !! tok = Some tok.
Proof.
  intros H. rewrite parseBranchesFlag_snoc, parseBranchesFlag_body_plain by done.
  split; [done|]. apply lookup_insert_eq.
Qed.

Lemma parseBranchesFlag_token_without_equals_witness :
  has_byte "=" "master" = false ∧
  parseBranchesFlag (["v1=release-1"] ++ ["master"])
  = <["master" := "master"]> (parseBranchesFlag ["v1=release-1"]) ∧
  parseBranchesFlag (["v1=release-1"] ++ ["master"]) !! "master" = Some "master".
Proof.
  split; [reflexivity|].
  apply (parseBranchesFlag_token_without_equals ["v1=release-1"] "master").
  reflexivity.
Defined.

(** C4. With a latest branch that is not empty, the version map holds it
    under ["latest"], whatever the tokens say, and agrees with the parsed
    tokens on every other version. *)
Theorem versionMap_latest (bs : list string) (latest : string) :
  latest ≠ "" →
  versionMap bs latest !! "latest" = Some latest ∧
  ∀ v, v ≠ "latest" → versionMap bs latest !! v = parseBranchesFlag bs !! v.
Proof.
  intros H. unfold versionMap.
  destruct (String.eqb_spec latest ""); [done|].
  split; [apply lookup_insert_eq|].
  intros v Hv. by rewrite lookup_insert_ne.
Qed.

Lemma versionMap_latest_witness :
  parseBranchesFlag ["latest=old"; "v1=b1"] !! "latest" = Some "old" ∧
  versionMap ["latest=old"; "v1=b1"] "main" !! "latest" = Some "main".
Proof.
  split; [reflexivity|].
  apply (versionMap_latest ["latest=old"; "v1=b1"] "main"). discriminate.
Defined.

(** ** Lexical paths and their resolution *)

Lemma string_app_nil (t : string) : "" +:+ t = t.
Proof. reflexivity. Qed.

Lemma string_app_cons (x : ascii) (s t : string) :
  String x s +:+ t = String x (s +:+ t).
Proof. reflexivity. Qed.

Lemma string_app_assoc (a b c : string) : (a +:+ b) +:+ c = a +:+ (b +:+ c).
Proof.
  induction a as [|x a IH]; [done|].
  by rewrite !string_app_cons, IH.
Qed.

Lemma has_byte_app c s t :
  has_byte c (s +:+ t) = has_byte c s || has_byte c t.
Proof.
  induction s as [|a s IH]; [done|].
  rewrite string_app_cons. simpl. by destruct (Ascii.eqb a c).
Qed.

Lemma strings_Split_sep s t sep :
  strings_Split (s +:+ String sep t) sep
  = strings_Split s sep ++ strings_Split t sep.
Proof.
  induction s as [|a s IH].
  - rewrite string_app_nil. simpl. by rewrite Ascii.eqb_refl.
  - rewrite string_app_cons. simpl.
    destruct (Ascii.eqb a sep); [by rewrite IH|].
    rewrite IH. pose proof (strings_Split_nonempty s sep).
    by destruct (strings_Split s sep).
Qed.

Lemma strings_Join_cons e es sep :
  es ≠ [] → strings_Join (e :: es) sep = e +:+ sep +:+ strings_Join es sep.
Proof. by destruct es. Qed.

Lemma strings_Split_Join es sep :
  es ≠ [] → Forall (λ e, has_byte sep e = false) es →
  strings_Split (strings_Join es (String sep "")) sep = es.
Proof.
  induction es as [|e es IH]; [done|]. intros _ Hall.
  inversion Hall as [|? ? He Hes]; subst.
  destruct es as [|e' es].
  - simpl. by apply strings_Split_no_sep.
  - rewrite strings_Join_cons by done.
    change (e +:+ String sep "" +:+ strings_Join (e' :: es) (String sep ""))
      with (e +:+ String sep (strings_Join (e' :: es) (String sep ""))).
    rewrite strings_Split_sep, (strings_Split_no_sep _ _ He), IH by done.
    done.
Qed.

Lemma plain_spec n :
  plain n = true ↔ n ≠ "" ∧ n ≠ "." ∧ n ≠ ".." ∧ has_byte "/" n = false.
Proof.
  unfold plain.
  rewrite !andb_true_iff, !negb_true_iff, !String.eqb_neq. tauto.
Qed.

Lemma resolve_step_elem at_ n :
  n ≠ "" → n ≠ "." → n ≠ ".." → resolve_step at_ n = at_ ++ [n].
Proof.
  intros H1 H2 H3. unfold resolve_step.
  apply String.eqb_neq in H1, H2, H3. by rewrite H1, H2, H3.
Qed.

Lemma resolve_step_plain at_ n : plain n = true → resolve_step at_ n = at_ ++ [n].
Proof.
  intros (H1 & H2 & H3 & _)%plain_spec. by apply resolve_step_elem.
Qed.

Lemma rooted_app s t : s ≠ "" → rooted (s +:+ t) = rooted s.
Proof. by destruct s. Qed.

Lemma rooted_no_slash s : has_byte "/" s = false → rooted s = false.
Proof.
  destruct s as [|a s]; [done|]. simpl.
  destruct (Ascii.eqb_spec a "/") as [->|Hne]; [done|]. intros _.
  destruct a as [[] [] [] [] [] [] [] []]; try done.
Qed.

(** Resolving [s/n] is one step from resolving [s]. *)
Lemma resolve_slash cwd s n :
  s ≠ "" → has_byte "/" n = false →
  resolve cwd (s +:+ "/" +:+ n) = resolve_step (resolve cwd s) n.
Proof.
  intros Hs Hn. unfold resolve.
  change (s +:+ "/" +:+ n) with (s +:+ String "/" n).
  rewrite strings_Split_sep, (strings_Split_no_sep _ _ Hn), fold_left_app.
  by rewrite rooted_app.
Qed.

Lemma can_backtrack_snoc out :
  can_backtrack out = true → ∃ o x, out = o ++ [x] ∧ x ≠ "..".
Proof.
  unfold can_backtrack.
  destruct out as [|e out] using rev_ind; [done|].
  rewrite last_snoc. intros H%negb_true_iff%String.eqb_neq. eauto.
Qed.

Lemma Clean_step_elems r out c :
  has_byte "/" c = false →
  Forall clean_elem out → Forall clean_elem (Clean_step r out c).
Proof.
  intros Hc Hout. unfold Clean_step.
  destruct (String.eqb_spec c "") as [|H1]; [done|].
  destruct (String.eqb_spec c ".") as [|H2]; [done|].
  destruct (String.eqb_spec c "..") as [->|H3].
  - destruct (can_backtrack out) eqn:Hcb.
    + apply can_backtrack_snoc in Hcb as (o & x & -> & _).
      rewrite removelast_last. by apply Forall_app in Hout as [? _].
    + destruct r; [done|]. apply Forall_app. split; [done|].
      by repeat constructor.
  - apply Forall_app. split; [done|]. by repeat constructor.
Qed.

Lemma Clean_fold_elems r comps out :
  Forall (λ c, has_byte "/" c = false) comps →
  Forall clean_elem out →
  Forall clean_elem (fold_left (Clean_step r) comps out).
Proof.
  revert out. induction comps as [|c comps IH]; intros out Hc Hout; [done|].
  inversion Hc; subst. simpl. apply IH; [done|].
  by apply Clean_step_elems.
Qed.

(** Resolving the buffer of [Clean] is resolving the elements read so far:
    for a relative path from any place, for a rooted path from the root. *)
Lemma Clean_fold_resolve_rel comps out base :
  Forall clean_elem out →
  Forall (λ c, has_byte "/" c = false) comps →
  fold_left resolve_step (fold_left (Clean_step false) comps out) base
  = fold_left resolve_step comps (fold_left resolve_step out base).
Proof.
  revert out. induction comps as [|c comps IH]; intros out Hout Hc; [done|].
  inversion Hc as [|? ? Hc1 Hc2]; subst. simpl.
  rewrite IH by (done || by apply Clean_step_elems). f_equal.
  unfold Clean_step, resolve_step at 2.
  destruct (String.eqb_spec c "") as [|H1]; [done|].
  destruct (String.eqb_spec c ".") as [|H2]; [done|].
  destruct (String.eqb_spec c "..") as [->|H3].
  - destruct (can_backtrack out) eqn:Hcb.
    + apply can_backtrack_snoc in Hcb as (o & x & -> & Hx).
      rewrite removelast_last, fold_left_app. simpl.
      apply Forall_app in Hout as [_ Hx']. inversion Hx' as [|? ? (Ha & Hb & _) _]; subst.
      rewrite resolve_step_elem by done.
      by rewrite removelast_last.
    + by rewrite fold_left_app.
  - rewrite fold_left_app. simpl. by rewrite resolve_step_elem.
Qed.

Lemma resolve_rooted_elems out base :
  Forall rooted_elem out → fold_left resolve_step out base = base ++ out.
Proof.
  revert base. induction out as [|e out IH]; intros base H; simpl.
  - by rewrite app_nil_r.
  - inversion H as [|? ? [(H1 & H2 & H4) H3] Hout]; subst.
    rewrite IH, resolve_step_elem by done.
    by rewrite <- app_assoc.
Qed.

Lemma Clean_fold_rooted comps out :
  Forall rooted_elem out →
  Forall (λ c, has_byte "/" c = false) comps →
  Forall rooted_elem (fold_left (Clean_step true) comps out) ∧
  fold_left (Clean_step true) comps out = fold_left resolve_step comps out.
Proof.
  revert out. induction comps as [|c comps IH]; intros out Hout Hc; [done|].
  inversion Hc as [|? ? Hc1 Hc2]; subst. simpl.
  assert (Forall rooted_elem (Clean_step true out c) ∧
          Clean_step true out c = resolve_step out c) as [Ha Hb].
  { unfold Clean_step, resolve_step.
    destruct (String.eqb_spec c "") as [|H1]; [done|].
    destruct (String.eqb_spec c ".") as [|H2]; [done|].
    destruct (String.eqb_spec c "..") as [->|H3].
    - destruct (can_backtrack out) eqn:Hcb.
      + apply can_backtrack_snoc in Hcb as (o & x & -> & Hx).
        rewrite removelast_last. by apply Forall_app in Hout as [? _].
      + split; [done|]. destruct out as [|e out] using rev_ind; [done|].
        unfold can_backtrack in Hcb. rewrite last_snoc in Hcb.
        apply negb_false_iff, String.eqb_eq in Hcb as ->.
        by apply Forall_app in Hout as [_ [[_ ?] _]%Forall_cons].
    - split; [|done]. apply Forall_app. split; [done|].
      by repeat constructor. }
  rewrite <- Hb. by apply IH.
Qed.

Lemma rooted_Join_false e es :
  clean_elem e → rooted (strings_Join (e :: es) "/") = false.
Proof.
  intros (H1 & _ & H3).
  assert (rooted e = false) as He by by apply rooted_no_slash.
  destruct es as [|e' es]; [done|].
  rewrite strings_Join_cons by done. by rewrite rooted_app.
Qed.

Lemma clean_elem_no_slash out :
  Forall clean_elem out → Forall (λ e, has_byte "/" e = false) out.
Proof. intros H. eapply Forall_impl; [done|]. by intros e (_ & _ & ?). Qed.

(** [Clean] does not change where a path resolves to. *)
Lemma resolve_Clean cwd s : resolve cwd (path_Clean s) = resolve cwd s.
Proof.
  unfold path_Clean. destruct (String.eqb_spec s "") as [->|Hs]; [done|].
  pose proof (strings_Split_parts_free s "/") as Hfree.
  destruct (rooted s) eqn:Hr.
  - destruct (Clean_fold_rooted (strings_Split s "/") [] ltac:(done) Hfree)
      as [Helems Heq].
    unfold resolve at 2. rewrite Hr, <- Heq.
    set (out := fold_left (Clean_step true) (strings_Split s "/") []) in *.
    unfold resolve. rewrite string_app_cons, string_app_nil. simpl.
    destruct out as [|e es] eqn:Hout; [done|].
    rewrite strings_Split_Join; [|done|].
    + by rewrite resolve_rooted_elems.
    + apply clean_elem_no_slash. eapply Forall_impl; [done|]. by intros ? [].
  - pose proof (Clean_fold_elems false (strings_Split s "/") [] Hfree ltac:(done))
      as Helems.
    unfold resolve at 2. rewrite Hr.
    rewrite <- (Clean_fold_resolve_rel _ [] cwd) by done.
    set (out := fold_left (Clean_step false) (strings_Split s "/") []) in *.
    destruct out as [|e es] eqn:Hout; [done|].
    unfold resolve. rewrite rooted_Join_false by by inversion Helems.
    rewrite strings_Split_Join; [done..|].
    by apply clean_elem_no_slash.
Qed.

Lemma resolve_empty cwd : resolve cwd "" = cwd.
Proof. done. Qed.

Lemma resolve_plain cwd n : plain n = true → resolve cwd n = cwd ++ [n].
Proof.
  intros Hn. pose proof Hn as (_ & _ & _ & Hs)%plain_spec. unfold resolve.
  rewrite (strings_Split_no_sep _ _ Hs), (rooted_no_slash _ Hs). simpl.
  by apply resolve_step_plain.
Qed.

(** A plain name joined to a directory resolves to the entry of that name
    in the directory. *)
Lemma resolve_Join_entry cwd dir n :
  plain n = true → resolve cwd (path_Join [dir; n]) = resolve cwd dir ++ [n].
Proof.
  intros Hn. pose proof Hn as (Hne & _ & _ & Hs)%plain_spec.
  simpl. destruct (String.eqb_spec dir "") as [->|Hd].
  - apply String.eqb_neq in Hne. rewrite Hne.
    by rewrite resolve_Clean, resolve_plain.
  - rewrite resolve_Clean, resolve_slash by done.
    by apply resolve_step_plain.
Qed.

Lemma resolve_Join_entries cwd dir n1 n2 :
  plain n1 = true → plain n2 = true →
  resolve cwd (path_Join [dir; n1; n2]) = resolve cwd dir ++ [n1; n2].
Proof.
  intros Hn1 Hn2.
  pose proof Hn1 as (Hne1 & _ & _ & Hs1)%plain_spec.
  pose proof Hn2 as (Hne2 & _ & _ & Hs2)%plain_spec.
  assert (∀ d, d ≠ "" → resolve cwd (path_Clean (d +:+ "/" +:+ n2))
                        = resolve cwd d ++ [n2]) as Hstep.
  { intros d Hd. rewrite resolve_Clean, resolve_slash by done.
    by apply resolve_step_plain. }
  simpl. destruct (String.eqb_spec dir "") as [->|Hd].
  - rewrite (proj2 (String.eqb_neq _ _) Hne1).
    rewrite Hstep by done. by rewrite resolve_plain, <- app_assoc.
  - replace (dir +:+ "/" +:+ n1 +:+ "/" +:+ n2)
      with ((dir +:+ "/" +:+ n1) +:+ "/" +:+ n2)
      by (by rewrite !string_app_assoc).
    rewrite Hstep by (by destruct dir).
    rewrite resolve_slash, resolve_step_plain by done.
    by rewrite <- app_assoc.
Qed.

(** ** The name of the workspace *)

Lemma Clean_step_plain r out n : plain n = true → Clean_step r out n = out ++ [n].
Proof.
  intros (H1 & H2 & H3 & _)%plain_spec. unfold Clean_step.
  apply String.eqb_neq in H1, H2, H3. by rewrite H1, H2, H3.
Qed.

Lemma strings_Join_snoc es n sep :
  ∃ X, strings_Join (es ++ [n]) sep = X +:+ n.
Proof.
  induction es as [|e es [X IH]].
  - by exists "".
  - exists (e +:+ sep +:+ X). simpl app.
    rewrite strings_Join_cons by by destruct es.
    by rewrite IH, !string_app_assoc.
Qed.

Lemma path_Clean_nonempty s : path_Clean s ≠ "".
Proof.
  unfold path_Clean. destruct (String.eqb_spec s ""); [done|].
  destruct (rooted s); [done|].
  pose proof (Clean_fold_elems false (strings_Split s "/") []
                (strings_Split_parts_free s "/") ltac:(done)) as Helems.
  destruct (fold_left _ _ _) as [|e es]; [done|].
  inversion Helems as [|? ? (He & _) _]; subst.
  destruct es; [done|]. rewrite strings_Join_cons by done. by destruct e.
Qed.

Lemma path_Join_entry_nonempty dir n : n ≠ "" → path_Join [dir; n] ≠ "".
Proof.
  intros Hn. simpl. destruct (String.eqb_spec dir "").
  - apply String.eqb_neq in Hn. rewrite Hn. apply path_Clean_nonempty.
  - apply path_Clean_nonempty.
Qed.

(** A plain name joined to a directory is the last thing in the path. *)
Lemma path_Clean_entry dir n :
  dir ≠ "" → plain n = true → ∃ X, path_Clean (dir +:+ "/" +:+ n) = X +:+ n.
Proof.
  intros Hd Hn. pose proof Hn as (_ & _ & _ & Hs)%plain_spec.
  unfold path_Clean.
  destruct (String.eqb_spec (dir +:+ "/" +:+ n) "") as [He|_].
  { by destruct dir. }
  change (dir +:+ "/" +:+ n) with (dir +:+ String "/" n).
  rewrite strings_Split_sep, (strings_Split_no_sep _ _ Hs), fold_left_app.
  cbn [fold_left]. rewrite !Clean_step_plain by done.
  generalize (fold_left (Clean_step (rooted (dir +:+ String "/" n)))
                        (strings_Split dir "/") []).
  intros buf. destruct (strings_Join_snoc buf n "/") as [X HX].
  destruct (rooted _).
  - exists ("/" +:+ X). by rewrite HX, string_app_assoc.
  - exists X. rewrite <- HX. by destruct buf.
Qed.

Lemma path_Clean_plain n : plain n = true → path_Clean n = n.
Proof.
  intros Hn. pose proof Hn as (Hne & _ & _ & Hs)%plain_spec.
  unfold path_Clean. apply String.eqb_neq in Hne. rewrite Hne.
  rewrite (strings_Split_no_sep _ _ Hs), (rooted_no_slash _ Hs). simpl.
  by rewrite Clean_step_plain.
Qed.

Lemma path_Join_entry dir n :
  plain n = true → ∃ X, path_Join [dir; n] = X +:+ n.
Proof.
  intros Hn. pose proof Hn as (Hne & _)%plain_spec.
  simpl. destruct (String.eqb_spec dir "").
  - apply String.eqb_neq in Hne. rewrite Hne. exists "".
    by rewrite path_Clean_plain.
  - by apply path_Clean_entry.
Qed.

Lemma last_bytes_nil s : last_bytes s = [] → s = "".
Proof.
  destruct s as [|a s]; [done|]. simpl.
  by destruct (last_bytes s) as [|? [|? ?]].
Qed.

Lemma last_bytes_app s t :
  t ≠ "" → head (last_bytes (s +:+ t)) = head (last_bytes t).
Proof.
  intros Ht. induction s as [|a s IH]; [done|].
  rewrite string_app_cons. simpl.
  destruct (last_bytes (s +:+ t)) as [|z [|y l]] eqn:Hl; [|done..].
  apply last_bytes_nil in Hl. by destruct s, t.
Qed.

Lemma endsWithDot_last s :
  endsWithDot s = true → head (last_bytes s) = Some "."%char.
Proof.
  unfold endsWithDot.
  destruct (last_bytes s) as [|z l]; [done|].
  destruct (Ascii.eqb_spec z ".") as [->|Hne]; [done|].
  destruct z as [[] [] [] [] [] [] [] []]; try done;
    destruct l as [|? [|? ?]]; done.
Qed.

Lemma digits_string_last ds :
  ds ≠ [] → ∃ d, head (last_bytes (digits_string ds)) = Some (digit_byte d).
Proof.
  induction ds as [|d ds IH]; [done|]. intros _. simpl.
  destruct ds as [|d' ds].
  - by exists d.
  - destruct IH as [d'' IH]; [done|]. exists d''.
    destruct (last_bytes (digits_string (d' :: ds))) as [|z [|y l]]; done.
Qed.

Lemma digits_string_no_slash ds : has_byte "/" (digits_string ds) = false.
Proof. induction ds as [|[] ds IH]; done. Qed.

Lemma workspace_name_plain ds :
  plain ("hugo-multiversion-" +:+ digits_string ds) = true.
Proof.
  apply plain_spec. split_and!; [done..|].
  rewrite has_byte_app, digits_string_no_slash. done.
Qed.

Lemma workspace_name_last ds :
  head (last_bytes ("hugo-multiversion-" +:+ digits_string ds))
  ≠ Some "."%char.
Proof.
  destruct ds as [|d ds]; [done|].
  rewrite last_bytes_app by done.
  destruct (digits_string_last (d :: ds)) as [d' ->]; [done|].
  by destruct d'.
Qed.

(** [os.RemoveAll] takes the name of the workspace: it is not empty and
    does not end in a dot. *)
Lemma workspace_removable E :
  workspace E ≠ "" ∧ endsWithDot (workspace E) = false.
Proof.
  unfold workspace, filepath_Join. split.
  - apply path_Join_entry_nonempty.
    by pose proof (workspace_name_plain (nextRandom E)) as (? & _)%plain_spec.
  - destruct (path_Join_entry (os_TempDir E) _
                (workspace_name_plain (nextRandom E))) as [X ->].
    destruct (endsWithDot _) eqn:He; [|done].
    apply endsWithDot_last in He. rewrite last_bytes_app in He.
    + by apply workspace_name_last in He.
    + by pose proof (workspace_name_plain (nextRandom E)) as (? & _)%plain_spec.
Qed.

(** ** Traces *)

Lemma quiet_ret {A} (a : A) : quiet (ret a).
Proof. intros w. exists []. by rewrite app_nil_r. Qed.

Lemma quiet_throw {A} e : quiet (@throw A e).
Proof. intros w. exists []. by rewrite app_nil_r. Qed.

Lemma quiet_get_fs : quiet get_fs.
Proof. intros w. exists []. by rewrite app_nil_r. Qed.

Lemma quiet_put_fs f : quiet (put_fs f).
Proof. intros w. exists []. by rewrite app_nil_r. Qed.

Lemma quiet_emit fn args : fn ≠ "exec" → quiet (emit (EvCall fn args)).
Proof.
  intros H w. eexists. split; [reflexivity|].
  repeat constructor. simpl. by apply negb_true_iff, String.eqb_neq.
Qed.

Lemma quiet_bind {A B} (m : M A) (k : A → M B) :
  quiet m → (∀ a, quiet (k a)) → quiet (bind m k).
Proof.
  intros Hm Hk w. unfold bind. destruct (Hm w) as (t1 & Ht1 & Hq1).
  destruct (m w) as [[a|e|] w1]; simpl in *; [|by eauto..].
  destruct (Hk a w1) as (t2 & Ht2 & Hq2).
  exists (t1 ++ t2). rewrite Ht2, Ht1, app_assoc. split; [done|].
  by apply Forall_app.
Qed.

Lemma quiet_named {A} name (m : M A) : quiet m → quiet (named name m).
Proof. intros H. unfold named. destruct (String.eqb name ""); [apply quiet_throw|done]. Qed.

Create HintDb quiet.
#[global] Hint Resolve quiet_ret quiet_throw quiet_get_fs quiet_put_fs : quiet.

Ltac quiet_step :=
  first [ solve [auto with quiet]
        | apply quiet_emit; discriminate
        | apply quiet_named
        | apply quiet_bind; [|intros ?]
        | progress cbv zeta
        | match goal with
          | |- quiet (match ?x with _ => _ end) => destruct x
          | |- quiet (if ?x then _ else _) => destruct x
          | |- quiet (let '(_, _) := ?x in _) => destruct x
          end ].

Lemma quiet_lift_fs op : quiet (lift_fs op).
Proof. unfold lift_fs. repeat quiet_step. Qed.

Lemma quiet_os_Stat E name : quiet (os_Stat E name).
Proof. unfold os_Stat. repeat quiet_step. Qed.

Lemma quiet_os_MkdirAll E path perm : quiet (os_MkdirAll E path perm).
Proof. unfold os_MkdirAll. repeat quiet_step. Qed.

Lemma quiet_os_Mkdir E name perm : quiet (os_Mkdir E name perm).
Proof. unfold os_Mkdir. repeat quiet_step. Qed.

Lemma quiet_ioutil_ReadDir E dirname : quiet (ioutil_ReadDir E dirname).
Proof. unfold ioutil_ReadDir. repeat quiet_step. Qed.

Lemma quiet_os_Open E name : quiet (os_Open E name).
Proof. unfold os_Open. repeat quiet_step. Qed.

Lemma quiet_os_Create E name : quiet (os_Create E name).
Proof. unfold os_Create. repeat quiet_step. Qed.

Lemma quiet_io_Copy dstfd srcfd : quiet (io_Copy dstfd srcfd).
Proof. unfold io_Copy. repeat quiet_step. Qed.

Lemma quiet_os_Chmod E name mode : quiet (os_Chmod E name mode).
Proof. unfold os_Chmod. repeat quiet_step. Qed.

Lemma quiet_os_RemoveAll E path : quiet (os_RemoveAll E path).
Proof. unfold os_RemoveAll. repeat quiet_step. Qed.

#[global] Hint Resolve quiet_lift_fs quiet_os_Stat quiet_os_MkdirAll
  quiet_os_Mkdir quiet_ioutil_ReadDir quiet_os_Open quiet_os_Create
  quiet_io_Copy quiet_os_Chmod quiet_os_RemoveAll : quiet.

Lemma quiet_copyFile E src dst : quiet (copyFile E src dst).
Proof. unfold copyFile. repeat quiet_step. Qed.

Lemma quiet_for_each {A} (xs : list A) (body : A → M unit) :
  (∀ x, quiet (body x)) → quiet (for_each xs body).
Proof.
  intros H. induction xs as [|x xs IH]; simpl; [auto with quiet|].
  apply quiet_bind; auto.
Qed.

Lemma quiet_copyDir E fuel src dst : quiet (copyDir E fuel src dst).
Proof.
  revert src dst. induction fuel as [|fuel IH]; intros src dst; simpl.
  - intros w. exists []. by rewrite app_nil_r.
  - repeat quiet_step. apply quiet_for_each. intros fd.
    unfold copyDir_entry.
    destruct (IsDir fd); [apply IH|apply quiet_copyFile].
Qed.


Lemma commands_run_app t1 t2 :
  commands_run (t1 ++ t2) = commands_run t1 ++ commands_run t2.
Proof. apply omap_app. Qed.

Lemma fs_calls_no_log msg t :
  Forall (λ ev, is_fs_call ev = true) t → logged msg t = [].
Proof.
  induction 1 as [|ev t Hev _ IH]; [done|].
  destruct ev as [|fn args]; [done|]. exact IH.
Qed.

Lemma fs_calls_no_command t :
  Forall (λ ev, is_fs_call ev = true) t → commands_run t = [].
Proof.
  induction 1 as [|ev t Hev _ IH]; [done|].
  destruct ev as [|fn args]; [done|]. simpl in Hev.
  apply negb_true_iff in Hev.
  unfold commands_run in *. simpl. rewrite Hev. exact IH.
Qed.



Lemma fs_calls_read t :
  Forall (λ ev, is_fs_call ev = true) t →
  fetches t = [] ∧ copies t = [] ∧ commands_run t = [].
Proof.
  intros H. split_and!;
    [by apply fs_calls_no_log..|by apply fs_calls_no_command].
Qed.

(** ** The run: workspace and exit paths *)

Lemma run_not_idle E cfg fuel :
  latestBranch cfg ≠ "" ∨ branches cfg ≠ [] →
  run E cfg fuel
  = (tmpdir <- ioutil_TempDir E "" "hugo-multiversion-" ;;
     defer (cleanup E cfg [] tmpdir) (run_body E cfg fuel tmpdir)).
Proof.
  intros H. unfold run.
  destruct (String.eqb_spec (latestBranch cfg) "") as [Hl|Hl]; simpl; [|done].
  destruct H as [H|H]; [done|].
  by destruct (branches cfg).
Qed.

Lemma cleanup_spec E cfg dir w :
  dir ≠ "" → endsWithDot dir = false →
  ∃ w', cleanup E cfg [] dir w = (Ok tt, w') ∧
    trace w' = trace w ++ cleanup_events cfg dir ∧
    if debug cfg then fs w' = fs w
    else (∀ p, resolve (cwd E) dir `prefix_of` p → fs w' !! p = None) ∧
         (∀ p, ¬ resolve (cwd E) dir `prefix_of` p → fs w' !! p = fs w !! p).
Proof.
  intros Hne Hdot. unfold cleanup, cleanup_events. destruct (debug cfg).
  - eexists. split; [reflexivity|]. by simpl.
  - unfold os_RemoveAll, bind, emit, get_fs, put_fs.
    apply String.eqb_neq in Hne. rewrite Hne, Hdot. cbn [fs trace].
    eexists. split; [reflexivity|]. simpl. split_and!.
    + by rewrite <- app_assoc.
    + intros p Hp. apply map_lookup_filter_None. right. intros x _. simpl. tauto.
    + intros p Hp. destruct (fs w !! p) as [n|] eqn:Hn.
      * apply map_lookup_filter_Some. by split.
      * apply map_lookup_filter_None. by left.
Qed.

Lemma ioutil_TempDir_workspace E :
  ioutil_TempDir E "" "hugo-multiversion-"
  = (os_Mkdir E (workspace E) perm_0700 ;; ret (workspace E)).
Proof. reflexivity. Qed.

Lemma ioutil_TempDir_name E w name w1 :
  ioutil_TempDir E "" "hugo-multiversion-" w = (Ok name, w1) →
  name = workspace E ∧
  ∃ t, trace w1 = trace w ++ t ∧ Forall (λ ev, is_fs_call ev = true) t.
Proof.
  rewrite ioutil_TempDir_workspace. unfold bind.
  destruct (quiet_os_Mkdir E (workspace E) perm_0700 w) as (t & Ht & Hq).
  destruct (os_Mkdir E (workspace E) perm_0700 w) as [[[]|e|] w1'];
    try done.
  intros [= <- <-]. eauto.
Qed.

Lemma cleanup_workspace E cfg w :
  ∃ w', cleanup E cfg [] (workspace E) w = (Ok tt, w') ∧
    trace w' = trace w ++ cleanup_events cfg (workspace E) ∧
    if debug cfg then fs w' = fs w
    else (∀ p, resolve (cwd E) (workspace E) `prefix_of` p → fs w' !! p = None) ∧
         (∀ p, ¬ resolve (cwd E) (workspace E) `prefix_of` p →
               fs w' !! p = fs w !! p).
Proof.
  destruct (workspace_removable E) as [Hne Hdot]. by apply cleanup_spec.
Qed.

(** C10. With no latest branch and no branch token, [run] returns [nil] at
    once: the world it leaves is the world it found but for the line
    "Nothing to do!" in the log; no workspace, no output directory, no
    fetch and no copy. *)
Theorem run_nothing_to_do (E : Env) (cfg : Config) (fuel : nat) (w : World) :
  latestBranch cfg = "" → branches cfg = [] →
  run E cfg fuel w
  = (Ok tt, mkWorld (fs w) (trace w ++ [EvLog false [] "Nothing to do!"])).
Proof.
  intros Hl Hb. unfold run. by rewrite Hl, Hb.
Qed.

Lemma main_run E cfg fuel w0 w r w3 :
  logtostderr_ok E = true →
  validateFlags cfg w0 = (Ok true, w) →
  run E cfg fuel w = (r, w3) →
  r ≠ OutOfFuel →
  ∃ w4, main E cfg fuel w0
        = (Some (match r with Ok _ => 0%N | _ => 1%N end), w4) ∧
        fs w4 = fs w3 ∧
        trace w4 = trace w3 ++ match r with
                               | Err _ => [EvLog true [] "Failed to run"]
                               | _ => []
                               end.
Proof.
  intros Hk Hv Hr Hne. unfold main. rewrite Hk, Hv, Hr. simpl.
  destruct r as [[]|e|]; [| |done]; eexists; (split; [reflexivity|]); simpl.
  - by rewrite app_nil_r.
  - done.
Qed.

Lemma run_defer E cfg fuel w tmpdir w1 r w2 :
  latestBranch cfg ≠ "" ∨ branches cfg ≠ [] →
  ioutil_TempDir E "" "hugo-multiversion-" w = (Ok tmpdir, w1) →
  run_body E cfg fuel tmpdir w1 = (r, w2) →
  r ≠ OutOfFuel →
  run E cfg fuel w = (r, (cleanup E cfg [] tmpdir w2).2).
Proof.
  intros Hn Ht Hb Hne. rewrite run_not_idle by done.
  unfold bind. rewrite Ht. unfold defer. rewrite Hb.
  by destruct r.
Qed.

(** C9. A run that has created its workspace removes it on every way out,
    with a result or with an error of the output directory, of a fetch or
    of a copy, before [main] ends the process: nothing is left at or below
    the workspace path. With [--debug] the removal is skipped and the files
    stay as the body of the run left them. *)
Theorem workspace_removed_on_every_exit
    (E : Env) (cfg : Config) (fuel : nat) (w0 w w1 w2 : World)
    (tmpdir : string) (r : outcome unit) :
  logtostderr_ok E = true →
  validateFlags cfg w0 = (Ok true, w) →
  latestBranch cfg ≠ "" ∨ branches cfg ≠ [] →
  ioutil_TempDir E "" "hugo-multiversion-" w = (Ok tmpdir, w1) →
  run_body E cfg fuel tmpdir w1 = (r, w2) →
  r ≠ OutOfFuel →
  ∃ w3 w4 code,
    run E cfg fuel w = (r, w3) ∧
    main E cfg fuel w0 = (Some code, w4) ∧
    fs w4 = fs w3 ∧
    trace w3 = trace w2 ++ cleanup_events cfg tmpdir ∧
    if debug cfg then fs w3 = fs w2
    else ∀ p, resolve (cwd E) tmpdir `prefix_of` p → fs w3 !! p = None.
Proof.
  intros Hk Hv Hn Ht Hb Hne.
  pose proof (run_defer _ _ _ _ _ _ _ _ Hn Ht Hb Hne) as Hrun.
  apply ioutil_TempDir_name in Ht as [-> _].
  destruct (cleanup_workspace E cfg w2) as (w3 & Hc & Htr & Hfs).
  rewrite Hc in Hrun. simpl in Hrun.
  destruct (main_run _ _ _ _ _ _ _ Hk Hv Hrun Hne) as (w4 & Hm & Hf4 & _).
  exists w3, w4. eexists. split_and!; [done..|].
  destruct (debug cfg); [done|]. by destruct Hfs.
Qed.

(** ** One turn of the loop of [run] *)

Lemma run_version_unfold E cfg fuel tmpdir entry w :
  run_version E cfg fuel tmpdir entry w
  = let w1 := at_fetch cfg tmpdir entry w in
    match exec E w1 "git" (clone_args entry.2 (repoURL cfg) (clone_dir tmpdir entry.1)) with
    | (false, f') =>
        (Err ExitError,
         mkWorld f' (trace w1 ++ fetch_failed_events cfg tmpdir entry))
    | (true, f') =>
        match copyDir E fuel
                (filepath_Join [clone_dir tmpdir entry.1; repoContentDir cfg])
                (filepath_Join [outputDir cfg; entry.1])
                (mkWorld f' (trace w1 ++ fetched_events tmpdir entry)) with
        | (Err e, w3) =>
            (Err e, mkWorld (fs w3) (trace w3 ++ copy_failed_events entry))
        | r => r
        end
    end.
Proof.
  destruct entry as [v b].
  unfold run_version, fetchRepository. fold (clone_dir tmpdir v).
  unfold at_fetch, fetch_events, fetch_failed_events, fetched_events,
    copy_failed_events, command_kv, version_kv, clone_command.
  cbn [fst snd].
  generalize (clone_dir tmpdir v). intros dir.
  set (src := filepath_Join [dir; repoContentDir cfg]).
  set (dst := filepath_Join [outputDir cfg; v]).
  generalize (clone_args b (repoURL cfg) dir) as args.
  intros args.
  unfold runCommand, cmd_Run, log_Info, log_Error, emit, bind, ret, throw.
  cbn [fs trace].
  destruct (debug cfg); cbn [fs trace app]; rewrite <- !app_assoc;
    cbn [app];
    match goal with
    | |- context [exec E ?w "git" args] => destruct (exec E w "git" args) as [[] f']
    end;
    cbn [fs trace app]; rewrite <- ?app_assoc; cbn [app]; try done;
    match goal with
    | |- context [copyDir E fuel ?s ?d ?w] =>
        destruct (copyDir E fuel s d w) as [[[]|e|] w3]
    end; done.
Qed.

Lemma shuffle_Permutation {A} seed (xs : list A) : shuffle seed xs ≡ₚ xs.
Proof.
  revert xs. induction seed as [|n seed IH]; intros xs; simpl; [done|].
  destruct (xs !! (n mod length xs)) as [x|] eqn:Hx; [|done].
  rewrite IH. symmetry. by apply delete_Permutation.
Qed.

Lemma range_order_Permutation E m : range_order E m ≡ₚ map_to_list m.
Proof. apply shuffle_Permutation. Qed.


Lemma fetch_events_read cfg tmpdir entry :
  fetches (fetch_events cfg tmpdir entry) = [entry] ∧
  copies (fetch_events cfg tmpdir entry) = [] ∧
  commands_run (fetch_events cfg tmpdir entry) = [clone_command cfg tmpdir entry].
Proof.
  destruct entry as [v b]. unfold fetch_events. by destruct (debug cfg).
Qed.

Lemma fetched_events_read tmpdir entry :
  fetches (fetched_events tmpdir entry) = [] ∧
  copies (fetched_events tmpdir entry) = [entry] ∧
  commands_run (fetched_events tmpdir entry) = [].
Proof. by destruct entry as [v b]. Qed.





Lemma cleanup_events_read cfg dir :
  fetches (cleanup_events cfg dir) = [] ∧
  copies (cleanup_events cfg dir) = [] ∧
  commands_run (cleanup_events cfg dir) = [].
Proof. unfold cleanup_events. by destruct (debug cfg). Qed.


Lemma clone_dir_resolve cwd tmpdir v :
  plain v = true →
  resolve cwd (clone_dir tmpdir v) = resolve cwd tmpdir ++ ["repo"; v].
Proof. intros Hv. by apply resolve_Join_entries. Qed.




(** ** The fetch step *)

Lemma fetchRepository_unfold E cfg kv tmpdir url v b w :
  fetchRepository E cfg kv tmpdir url v b w
  = let kv' := kv ++ [("cmd", "git");
                      ("args", strings_Join (clone_args b url (clone_dir tmpdir v)) " ")] in
    let w1 := mkWorld (fs w)
                (trace w ++
                 [EvLog false kv "Fetching repository at revision"] ++
                 (if debug cfg then [EvLog false kv' "Running command"] else []) ++
                 [EvCall "exec" ("git" :: clone_args b url (clone_dir tmpdir v))]) in
    match exec E w1 "git" (clone_args b url (clone_dir tmpdir v)) with
    | (true, f') => (Ok (clone_dir tmpdir v), mkWorld f' (trace w1))
    | (false, f') =>
        (Err ExitError,
         mkWorld f' (trace w1 ++ [EvLog true kv' "Error running command"]))
    end.
Proof.
  unfold fetchRepository. fold (clone_dir tmpdir v).
  generalize (clone_dir tmpdir v). intros dir.
  generalize (clone_args b url dir) as args. intros args.
  unfold runCommand, cmd_Run, log_Info, log_Error, emit, bind, ret, throw.
  cbn [fs trace].
  destruct (debug cfg); cbn [fs trace app]; rewrite <- !app_assoc;
    cbn [app];
    match goal with
    | |- context [exec E ?w "git" args] => destruct (exec E w "git" args) as [[] f']
    end; cbn [fs trace]; rewrite <- ?app_assoc; done.
Qed.

(** C2, as the code has it. For every version and branch the fetch step
    runs one command, [git clone -b <branch> <repoURL> <dir>] with [<dir>]
    the join of the workspace, [repo] and the version (the directory
    [repo/<version>] of the workspace for a plain version name), and
    returns [<dir>] when it returns without error. The words of the command
    line that are the program's own are [clone] and [-b]: it asks for a
    single branch or a shallow history only if the branch, the URL or the
    directory is spelled like such an option. *)
Theorem fetchRepository_clones_branch
    (E : Env) (cfg : Config) (kv : list (string * string))
    (tmpdir url v b : string) (w : World) :
  let r := fetchRepository E cfg kv tmpdir url v b w in
  let dir := filepath_Join [tmpdir; "repo"; v] in
  commands_run (trace r.2)
  = commands_run (trace w) ++ [["git"; "clone"; "-b"; b; url; dir]] ∧
  (∀ loc, r.1 = Ok loc → loc = dir) ∧
  (plain v = true →
   resolve (cwd E) dir = resolve (cwd E) tmpdir ++ ["repo"; v]) ∧
  asks_single_branch ["clone"; "-b"; b; url; dir]
  = asks_single_branch [b; url; dir] ∧
  asks_shallow ["clone"; "-b"; b; url; dir] = asks_shallow [b; url; dir].
Proof.
  cbv zeta. rewrite fetchRepository_unfold. cbv zeta.
  fold (clone_dir tmpdir v).
  split_and!; [| |apply clone_dir_resolve|done..].
  - destruct (exec E _ _ _) as [[] f']; cbn [snd trace];
      rewrite !commands_run_app; destruct (debug cfg);
      change (commands_run [EvLog ?a ?b ?c]) with (@nil (list string));
      change (commands_run []) with (@nil (list string));
      change (commands_run [EvCall "exec" ?x]) with [x];
      cbn [app]; by rewrite ?app_nil_r.
  - intros loc. destruct (exec E _ _ _) as [[] f']; [|done].
    by intros [= <-].
Qed.

(** ** The calls into the file system *)

Section calls.
Context (E : Env).

Lemma named_run {A} name (m : M A) : name ≠ "" → named name m = m.
Proof. intros H%String.eqb_neq. unfold named. by rewrite H. Qed.

Lemma os_Stat_ok name w n :
  name ≠ "" →
  fs w !! resolve (cwd E) name = Some n →
  os_Stat E name w = (Ok (info_of (basename name) n), w).
Proof.
  intros Hn H. unfold os_Stat. rewrite named_run by done.
  unfold bind, get_fs. by rewrite H.
Qed.

Lemma os_MkdirAll_run path perm w :
  path ≠ "" →
  os_MkdirAll E path perm w
  = match mkdir_all E (rev (resolve (cwd E) path)) perm (fs w) with
    | inl e => (Err e, mkWorld (fs w) (trace w ++ [EvCall "os.MkdirAll" [path]]))
    | inr f' => (Ok tt, mkWorld f' (trace w ++ [EvCall "os.MkdirAll" [path]]))
    end.
Proof.
  intros Hn. unfold os_MkdirAll. rewrite named_run by done.
  unfold lift_fs, bind, emit, get_fs, put_fs, throw. simpl.
  by destruct (mkdir_all _ _ _ _).
Qed.

Lemma take_snoc_le {A} (l : list A) x j :
  (j ≤ length l)%nat → take j (l ++ [x]) = take j l.
Proof.
  intros H. rewrite take_app.
  replace (j - length l)%nat with 0%nat by lia. simpl. by rewrite app_nil_r.
Qed.

Lemma prefix_snoc_inv {A} (p l : list A) x :
  p `prefix_of` l ++ [x] → p = l ++ [x] ∨ p `prefix_of` l.
Proof.
  intros [k Hk]. destruct k as [|y k _] using rev_ind.
  - left. by rewrite app_nil_r in Hk.
  - right. rewrite app_assoc in Hk. apply app_inj_tail in Hk as [-> _].
    by exists k.
Qed.

Lemma mkdir_all_spec D f k perm :
  dst_ok f D k →
  ∃ f', mkdir_all E (rev D) perm f = inr f' ∧
        ∀ p, f' !! p = made_at E f D k perm p.
Proof.
  induction D as [|x D IH] using rev_ind; intros (Hk & [m Hm] & Hnone).
  - simpl in *. assert (k = 0)%nat as -> by lia. simpl in Hm.
    rewrite Hm. eexists. split; [done|]. intros p. unfold made_at.
    case_bool_decide as Hp; [|done].
    destruct Hp as [->%prefix_nil_inv ?]. simpl in *. lia.
  - rewrite rev_unit. simpl. rewrite rev_involutive.
    rewrite length_app in Hk. simpl in Hk.
    destruct (decide (k = length (D ++ [x]))) as [->|Hlt].
    + rewrite firstn_all in Hm. rewrite Hm. eexists. split; [done|].
      intros p. unfold made_at. case_bool_decide as Hp; [|done].
      destruct Hp as [Hp%prefix_length ?]. lia.
    + rewrite length_app in Hlt. simpl in Hlt.
      assert (f !! (D ++ [x]) = None) as HD.
      { rewrite <- (firstn_all (D ++ [x])). apply Hnone.
        rewrite length_app. simpl. lia. }
      rewrite HD.
      assert (dst_ok f D k) as Hok.
      { split_and!; [lia| |].
        - exists m. rewrite <- Hm. by rewrite take_snoc_le by lia.
        - intros j Hj. rewrite <- (take_snoc_le D x) by lia. apply Hnone.
          rewrite length_app. simpl. lia. }
      destruct (IH Hok) as (f1 & H1 & Hf1).
      rewrite H1. unfold mkdir.
      assert (f1 !! (D ++ [x]) = None) as ->.
      { rewrite Hf1. unfold made_at. rewrite HD. case_bool_decide as Hp; [|done].
        destruct Hp as [Hp%prefix_snoc_not _]. done. }
      rewrite removelast_last.
      assert (∃ m', f1 !! D = Some (Dir m')) as [m' ->].
      { rewrite Hf1. unfold made_at. case_bool_decide; [by eauto|].
        exists m. rewrite <- Hm. f_equal.
        assert (k = length D) as ->.
        { destruct (decide (k < length D)%nat); [|lia].
          exfalso. auto using prefix_app_r. }
        by rewrite take_snoc_le, firstn_all by lia. }
      destruct (D ++ [x]) eqn:HDx; [by destruct D|]. rewrite <- HDx.
      eexists. split; [done|]. intros p.
      destruct (decide (p = D ++ [x])) as [->|Hne].
      * rewrite lookup_insert_eq. unfold made_at.
        rewrite bool_decide_eq_true_2; [done|].
        split; [done|]. rewrite length_app. simpl. lia.
      * rewrite lookup_insert_ne, Hf1 by done. unfold made_at.
        assert (p `prefix_of` D ∧ (k < length p)%nat
                ↔ p `prefix_of` D ++ [x] ∧ (k < length p)%nat) as Hiff.
        { split.
          - intros [? ?]. split; [by apply prefix_app_r|done].
          - intros [[?|?]%prefix_snoc_inv ?]; done. }
        by rewrite (bool_decide_ext _ _ Hiff).
Qed.

Lemma elem_of_entries f S fd :
  fd ∈ entries f S ↔ ∃ n x, f !! (S ++ [n]) = Some x ∧ fd = info_of n x.
Proof.
  unfold entries. rewrite list_elem_of_omap. split.
  - intros ([k x] & Hin%elem_of_map_to_list & Hfd). simpl in Hfd.
    destruct (last k) as [n|]; [|done].
    case_bool_decide as Hk; [|done]. injection Hfd as <-.
    exists n, x. by rewrite <- Hk.
  - intros (n & x & Hl & ->). exists (S ++ [n], x).
    split; [by apply elem_of_map_to_list|].
    simpl. rewrite last_snoc. by rewrite bool_decide_eq_true_2.
Qed.

Lemma NoDup_entries f S : NoDup (Name <$> entries f S).
Proof.
  unfold entries.
  pose proof (NoDup_fst_map_to_list f) as Hnd.
  induction (map_to_list f) as [|[k x] l IH]; simpl; [constructor|].
  inversion Hnd as [|? ? Hk Hrest]; subst.
  destruct (last k) as [n|] eqn:Hlast; [|by apply IH].
  case_bool_decide as Heq; [|by apply IH].
  simpl. constructor; [|by apply IH].
  intros (fd & Hn & Hfd)%list_elem_of_fmap.
  apply list_elem_of_omap in Hfd as ([k' x'] & Hin & Hfd). simpl in Hfd.
  destruct (last k') as [n'|]; [|done].
  case_bool_decide as Heq'; [|done]. injection Hfd as <-. simpl in Hn. subst n'.
  apply Hk. apply list_elem_of_fmap. exists (k', x'). split; [|done].
  simpl. congruence.
Qed.

Lemma ioutil_ReadDir_ok dirname w m :
  dirname ≠ "" →
  fs w !! resolve (cwd E) dirname = Some (Dir m) →
  ioutil_ReadDir E dirname w
  = (Ok (merge_sort name_le (entries (fs w) (resolve (cwd E) dirname))), w).
Proof.
  intros Hn H. unfold ioutil_ReadDir. rewrite named_run by done.
  unfold bind, get_fs. by rewrite H.
Qed.

Lemma string_app_nil_r (s : string) : s +:+ "" = s.
Proof. induction s as [|a s IH]; [done|]. by rewrite string_app_cons, IH. Qed.

Lemma write_at_start_empty data : write_at_start data "" = data.
Proof.
  unfold write_at_start.
  assert (String.substring (String.length data)
            (String.length "" - String.length data) "" = "") as ->.
  { by destruct (String.length data). }
  apply string_app_nil_r.
Qed.

Lemma bind_ok {A B} (m : M A) (k : A → M B) w a w' :
  m w = (Ok a, w') → bind m k w = k a w'.
Proof. intros H. unfold bind. by rewrite H. Qed.

Lemma os_Open_ok name w n :
  name ≠ "" → fs w !! resolve (cwd E) name = Some n →
  os_Open E name w = (Ok (resolve (cwd E) name), w).
Proof.
  intros Hn H. unfold os_Open. rewrite named_run by done.
  unfold bind, get_fs. by rewrite H.
Qed.

Lemma os_Create_ok name w :
  name ≠ "" →
  (∀ x, fs w !! resolve (cwd E) name = Some x → is_dir x = false) →
  (fs w !! resolve (cwd E) name = None →
   ∃ m', fs w !! removelast (resolve (cwd E) name) = Some (Dir m')) →
  ∃ m0, os_Create E name w
        = (Ok (resolve (cwd E) name),
           mkWorld (<[resolve (cwd E) name := File m0 ""]> (fs w))
                   (trace w ++ [EvCall "os.Create" [name]])).
Proof.
  intros Hn Hkind Hparent. unfold os_Create. rewrite named_run by done.
  unfold bind, emit, get_fs, put_fs, ret, throw. cbn [fs trace].
  destruct (fs w !! resolve (cwd E) name) as [[m0 old|m0]|].
  - by exists m0.
  - by specialize (Hkind _ eq_refl).
  - destruct (Hparent eq_refl) as [m' ->]. by eexists.
Qed.

Lemma io_Copy_ok dstfd srcfd w m c m1 old :
  fs w !! srcfd = Some (File m c) → fs w !! dstfd = Some (File m1 old) →
  io_Copy dstfd srcfd w
  = (Ok tt, mkWorld (<[dstfd := File m1 (write_at_start c old)]> (fs w))
                    (trace w)).
Proof.
  intros Hs Hd. unfold io_Copy, bind, get_fs, put_fs. by rewrite Hs, Hd.
Qed.

Lemma os_Chmod_ok name mode w n :
  name ≠ "" → fs w !! resolve (cwd E) name = Some n →
  os_Chmod E name mode w
  = (Ok tt, mkWorld (<[resolve (cwd E) name := chmod n mode]> (fs w))
                    (trace w ++ [EvCall "os.Chmod" [name]])).
Proof.
  intros Hn H. unfold os_Chmod. rewrite named_run by done.
  unfold bind, emit, get_fs, put_fs. cbn [fs trace]. by rewrite H.
Qed.

(** Copying a file onto a new name in a directory, or onto a file. *)
Lemma copyFile_ok src dst w m c :
  src ≠ "" → dst ≠ "" →
  fs w !! resolve (cwd E) src = Some (File m c) →
  resolve (cwd E) src ≠ resolve (cwd E) dst →
  (∀ x, fs w !! resolve (cwd E) dst = Some x → is_dir x = false) →
  (fs w !! resolve (cwd E) dst = None →
   ∃ m', fs w !! removelast (resolve (cwd E) dst) = Some (Dir m')) →
  ∃ w', copyFile E src dst w = (Ok tt, w') ∧
        fs w' = <[resolve (cwd E) dst := File m c]> (fs w) ∧
        trace w' = trace w ++ [EvCall "os.Create" [dst]; EvCall "os.Chmod" [dst]].
Proof.
  intros Hs Hd Hsrc Hne Hkind Hparent.
  assert (resolve (cwd E) dst ≠ resolve (cwd E) src) as Hne' by done.
  destruct (os_Create_ok dst w Hd Hkind Hparent) as [m0 Hcreate].
  set (S' := resolve (cwd E) src) in *. set (D' := resolve (cwd E) dst) in *.
  set (w1 := mkWorld (<[D' := File m0 ""]> (fs w))
                     (trace w ++ [EvCall "os.Create" [dst]])) in *.
  set (w2 := mkWorld (<[D' := File m0 (write_at_start c "")]> (fs w1))
                     (trace w1)).
  assert (io_Copy D' S' w1 = (Ok tt, w2)) as Hcopy.
  { apply (io_Copy_ok D' S' w1 m c m0 ""); cbn [fs w1].
    - by rewrite lookup_insert_ne.
    - by rewrite lookup_insert_eq. }
  assert (os_Stat E src w2 = (Ok (info_of (basename src) (File m c)), w2))
    as Hstat.
  { apply os_Stat_ok; [done|]. cbn [fs w1 w2]. fold S'.
    by rewrite !lookup_insert_ne. }
  unfold copyFile.
  rewrite (bind_ok _ _ _ _ _ (os_Open_ok src w _ Hs Hsrc)).
  rewrite (bind_ok _ _ _ _ _ Hcreate).
  rewrite (bind_ok _ _ _ _ _ Hcopy).
  rewrite (bind_ok _ _ _ _ _ Hstat).
  rewrite (os_Chmod_ok dst _ w2 (File m0 (write_at_start c "")) Hd).
  2:{ cbn [fs w2]. fold D'. by rewrite lookup_insert_eq. }
  eexists. split; [done|]. cbn [fs trace w1 w2 chmod Mode info_of perm_of].
  fold D'. split.
  - by rewrite !insert_insert_eq, write_at_start_empty.
  - by rewrite <- app_assoc.
Qed.

End calls.

(** ** Trees side by side *)

Lemma apart_app {A} (S D a b : list A) :
  ¬ S `prefix_of` D → ¬ D `prefix_of` S → ¬ S ++ a `prefix_of` D ++ b.
Proof.
  intros H1 H2 [c Hc].
  destruct (prefix_weak_total S D (D ++ b)) as [?|?]; [|by exists b|done..].
  exists (a ++ c). by rewrite Hc, <- app_assoc.
Qed.

Lemma apart_ne {A} (S D a b : list A) :
  ¬ S `prefix_of` D → ¬ D `prefix_of` S → S ++ a ≠ D ++ b.
Proof.
  intros H1 H2 Heq. apply (apart_app S D a b H1 H2). by rewrite Heq.
Qed.

Lemma tree_ok_below_file f S n m c r :
  tree_ok f S → f !! (S ++ [n]) = Some (File m c) → r ≠ [] →
  f !! (S ++ n :: r) = None.
Proof.
  intros Hok Hn. induction r as [|z r IH] using rev_ind; [done|]. intros _.
  destruct (f !! (S ++ n :: r ++ [z])) as [x|] eqn:Hx; [|done].
  destruct (Hok (n :: r) z x Hx) as [_ [m' Hp]].
  destruct r as [|y r _] using rev_ind; [congruence|].
  rewrite IH in Hp; [done|]. by destruct r.
Qed.

Lemma tree_ok_below_nothing f S n r :
  tree_ok f S → f !! (S ++ [n]) = None → f !! (S ++ n :: r) = None.
Proof.
  intros Hok Hn. induction r as [|z r IH] using rev_ind; [done|].
  destruct (f !! (S ++ n :: r ++ [z])) as [x|] eqn:Hx; [|done].
  destruct (Hok (n :: r) z x Hx) as [_ [m' Hp]]. congruence.
Qed.

Lemma tree_ok_entry f S n :
  tree_ok f S → tree_ok f (S ++ [n]).
Proof.
  intros Hok r z x Hx. rewrite <- !app_assoc in *. simpl in *.
  by apply (Hok (n :: r) z x).
Qed.

Lemma made_at_off E f D k perm p :
  ¬ p `prefix_of` D → made_at E f D k perm p = f !! p.
Proof.
  intros H. unfold made_at. rewrite bool_decide_eq_false_2; [done|]. tauto.
Qed.

Lemma made_at_D E f D k perm :
  dst_ok f D k → ∃ m', made_at E f D k perm D = Some (Dir m').
Proof.
  intros (Hk & [m0 Hm] & Hnone). unfold made_at.
  case_bool_decide as Hc; [by eauto|].
  assert (k = length D) as ->.
  { destruct (decide (k < length D)%nat); [|lia]. by destruct Hc. }
  rewrite firstn_all in Hm. eauto.
Qed.

Lemma made_at_copied E f S D k mS :
  f !! S = Some (Dir mS) → dst_ok f D k →
  made_at E f D k mS D = copied_at E f S D [].
Proof.
  intros HS (Hk & [m0 Hm] & Hnone). unfold made_at, copied_at.
  rewrite !app_nil_r, HS.
  case_bool_decide as Hc.
  - assert (f !! D = None) as ->; [|done].
    rewrite <- (firstn_all D). apply Hnone. lia.
  - assert (k = length D) as ->.
    { destruct (decide (k < length D)%nat); [|lia]. by destruct Hc. }
    rewrite firstn_all in Hm. by rewrite Hm.
Qed.

Lemma made_at_keep E f D k perm p :
  (p `prefix_of` D → (length p ≤ k)%nat) → made_at E f D k perm p = f !! p.
Proof.
  intros H. unfold made_at. rewrite bool_decide_eq_false_2; [done|].
  intros [Hp%H ?]. lia.
Qed.

Lemma prefix_entry_inv {A} (D : list A) n n' r :
  D ++ [n] `prefix_of` D ++ n' :: r → n = n'.
Proof. intros [c Hc]. rewrite <- app_assoc in Hc. by simplify_list_eq. Qed.

Lemma entry_prefix_inv {A} (D : list A) n n' r :
  D ++ n' :: r `prefix_of` D ++ [n] → n = n'.
Proof. intros [c Hc]. rewrite <- app_assoc in Hc. by simplify_list_eq. Qed.

(** ** The order of the entries of a directory *)

Lemma string_compare_lt_trans s1 : ∀ s2 s3,
  String.compare s1 s2 = Lt → String.compare s2 s3 = Lt →
  String.compare s1 s3 = Lt.
Proof.
  induction s1 as [|a s1 IH]; intros [|b s2] [|c s3]; simpl; try done.
  unfold Ascii.compare.
  destruct (N.compare_spec (N_of_ascii a) (N_of_ascii b)) as [Hab|Hab|Hab];
    destruct (N.compare_spec (N_of_ascii b) (N_of_ascii c)) as [Hbc|Hbc|Hbc];
    destruct (N.compare_spec (N_of_ascii a) (N_of_ascii c)) as [Hac|Hac|Hac];
    try done; try lia; eauto.
Qed.

Lemma string_leb_trans s1 s2 s3 :
  String.leb s1 s2 = true → String.leb s2 s3 = true → String.leb s1 s3 = true.
Proof.
  unfold String.leb.
  destruct (String.compare s1 s2) eqn:H12; [| |done].
  - by apply String.compare_eq_iff in H12 as ->.
  - destruct (String.compare s2 s3) eqn:H23; [| |done].
    + apply String.compare_eq_iff in H23 as <-. by rewrite H12.
    + by rewrite (string_compare_lt_trans _ _ _ H12 H23).
Qed.

#[global] Instance name_le_trans : Transitive name_le.
Proof. intros a b c. apply string_leb_trans. Qed.

#[global] Instance name_le_total : Total name_le.
Proof. intros a b. apply String.leb_total. Qed.

(** The sorted entries of a directory are a function of its entries: the
    order in which the map gives them does not show. *)
Lemma entries_ext f f' p :
  (∀ n, f !! (p ++ [n]) = f' !! (p ++ [n])) →
  merge_sort name_le (entries f p) = merge_sort name_le (entries f' p).
Proof.
  intros H. apply (Sorted_unique_strong name_le).
  - intros x1 x2 H1 H2 Hle1 Hle2.
    rewrite merge_sort_Permutation in H1, H2.
    apply elem_of_entries in H1 as (n1 & y1 & Hy1 & ->).
    apply elem_of_entries in H2 as (n2 & y2 & Hy2 & ->).
    unfold name_le in *. cbn [Name info_of] in *.
    assert (n1 = n2) as -> by by apply String.leb_antisym.
    rewrite H in Hy1. congruence.
  - apply Sorted_merge_sort; apply _.
  - apply Sorted_merge_sort; apply _.
  - rewrite !merge_sort_Permutation. apply NoDup_Permutation.
    + eapply NoDup_fmap_1, NoDup_entries.
    + eapply NoDup_fmap_1, NoDup_entries.
    + intros fd. rewrite !elem_of_entries. by setoid_rewrite H.
Qed.

(** ** The pre-order listing *)

Lemma flat_map_ext_in {A B} (g h : A → list B) l :
  (∀ x, x ∈ l → g x = h x) → flat_map g l = flat_map h l.
Proof.
  induction l as [|a l IH]; intros H; [done|]. simpl.
  rewrite (H a) by left. rewrite IH; [done|]. intros x Hx. apply H. by right.
Qed.

Lemma map_flat_map {A B C} (g : B → C) (h : A → list B) l :
  map g (flat_map h l) = flat_map (λ x, map g (h x)) l.
Proof. induction l as [|a l IH]; [done|]. simpl. by rewrite map_app, IH. Qed.

(** The listing reads the file system only below the node it starts at. *)
Lemma preorder_ext f f' fuel base : ∀ r,
  (∀ r', f !! (base ++ r ++ r') = f' !! (base ++ r ++ r')) →
  preorder f fuel base r = preorder f' fuel base r.
Proof.
  induction fuel as [|fuel IH]; intros r H; [done|]. simpl.
  assert (f !! (base ++ r) = f' !! (base ++ r)) as <-.
  { specialize (H []). by rewrite app_nil_r in H. }
  destruct (f !! (base ++ r)) as [[m c|m]|]; [done| |done].
  f_equal. rewrite <- (entries_ext f f' (base ++ r)).
  2:{ intros n. rewrite <- !app_assoc. apply H. }
  apply flat_map_ext_in. intros fd _. apply IH.
  intros r'. rewrite <- !app_assoc. apply H.
Qed.

(** The listing below an entry, from the directory and from the entry. *)
Lemma preorder_rebase f fuel base n : ∀ r,
  preorder f fuel base (n :: r)
  = map (λ x, (n :: x.1, x.2)) (preorder f fuel (base ++ [n]) r).
Proof.
  induction fuel as [|fuel IH]; intros r; [done|]. simpl.
  rewrite <- !app_assoc. simpl.
  destruct (f !! (base ++ n :: r)) as [[m c|m]|]; [done| |done].
  simpl. f_equal. rewrite map_flat_map. apply flat_map_ext_in.
  intros fd _. apply (IH (r ++ [Name fd])).
Qed.

(** More fuel than the tree is deep changes nothing. *)
Lemma preorder_fuel f base : ∀ fuel fuel' r,
  (∀ r', is_Some (f !! (base ++ r ++ r')) → (length r' < fuel)%nat) →
  (∀ r', is_Some (f !! (base ++ r ++ r')) → (length r' < fuel')%nat) →
  preorder f fuel base r = preorder f fuel' base r.
Proof.
  induction fuel as [|fuel IH]; intros [|fuel'] r H H'; [done| | |].
  - simpl. destruct (f !! (base ++ r)) eqn:Hr; [|done].
    specialize (H []). rewrite app_nil_r in H.
    specialize (H ltac:(eauto)). simpl in H. lia.
  - simpl. destruct (f !! (base ++ r)) eqn:Hr; [|done].
    specialize (H' []). rewrite app_nil_r in H'.
    specialize (H' ltac:(eauto)). simpl in H'. lia.
  - simpl. destruct (f !! (base ++ r)) as [[m c|m]|]; [done| |done].
    f_equal. apply flat_map_ext_in. intros fd _.
    apply IH; intros r' Hr'; rewrite <- app_assoc in Hr'.
    + apply H in Hr'. simpl in Hr'. lia.
    + apply H' in Hr'. simpl in Hr'. lia.
Qed.

Lemma depth_bound f p : is_Some (f !! p) → (length p < depth f)%nat.
Proof.
  intros [x Hx]. unfold depth.
  pose proof (max_list_elem_of_le (length p) (length <$> (map_to_list f).*1))
    as H.
  assert (length p ∈ length <$> (map_to_list f).*1) as Hin.
  { apply list_elem_of_fmap_2. apply list_elem_of_fmap. exists (p, x).
    split; [done|]. by apply elem_of_map_to_list. }
  specialize (H Hin). lia.
Qed.

(** With fuel for the tree, the listing is that of the whole tree. *)
Lemma preorder_whole f base fuel :
  fits f base fuel → preorder f fuel base [] = tree_preorder f base.
Proof.
  intros Hfit. unfold tree_preorder. apply preorder_fuel.
  - intros r'. apply Hfit.
  - intros r' Hr'%depth_bound. simpl in *. rewrite length_app in Hr'. lia.
Qed.

Lemma moved_to_app D l1 l2 :
  moved_to D (l1 ++ l2) = moved_to D l1 ++ moved_to D l2.
Proof. apply map_app. Qed.

Lemma moved_to_entry f fuel S D n :
  moved_to (D ++ [n]) (preorder f fuel (S ++ [n]) [])
  = moved_to D (preorder f fuel S [n]).
Proof.
  rewrite preorder_rebase. unfold moved_to. rewrite map_map.
  apply map_ext. intros [p b]. simpl. by rewrite <- app_assoc.
Qed.

(** Every node of the tree is in the listing, once the fuel is enough. *)
Lemma preorder_complete f base fuel : ∀ r x,
  (∀ r', is_Some (f !! (base ++ r ++ r')) → (length r' < fuel)%nat) →
  tree_ok f base →
  f !! (base ++ r) = Some x → ∀ r' y,
  f !! (base ++ r ++ r') = Some y →
  (r ++ r', is_dir y) ∈ preorder f fuel base r.
Proof.
  induction fuel as [|fuel IH]; intros r x Hfit Hok Hx r' y Hy.
  - specialize (Hfit r' ltac:(eauto)). lia.
  - simpl. rewrite Hx. destruct r' as [|n r'].
    + rewrite app_nil_r in *. rewrite Hx in Hy. injection Hy as ->.
      destruct y; cbn [is_dir]; apply list_elem_of_here.
    + assert (∃ z, f !! (base ++ r ++ [n]) = Some z) as [z Hz].
      { clear IH Hfit. revert y Hy.
        induction r' as [|a r' IHr] using rev_ind; intros y Hy; [eauto|].
        replace (base ++ r ++ n :: r' ++ [a])
          with (base ++ (r ++ n :: r') ++ [a]) in Hy
          by by rewrite <- !app_assoc.
        destruct (Hok _ _ _ Hy) as (_ & m & Hm).
        eauto. }
      destruct x as [m c|m].
      { destruct (Hok _ _ _ Hz) as (_ & m' & Hm'). congruence. }
      apply list_elem_of_further. rewrite list_elem_of_In, in_flat_map.
      exists (info_of n z). split.
      * rewrite <- list_elem_of_In, merge_sort_Permutation.
        apply elem_of_entries. exists n, z. by rewrite <- app_assoc.
      * rewrite <- list_elem_of_In. cbn [Name info_of].
        replace (r ++ n :: r') with ((r ++ [n]) ++ r')
          by by rewrite <- app_assoc.
        apply (IH _ z).
        -- intros r'' Hr''. rewrite <- app_assoc in Hr''.
           apply Hfit in Hr''. simpl in Hr''. lia.
        -- done.
        -- done.
        -- by rewrite <- !app_assoc.
Qed.

(** ** The calls a trace asks for *)

Lemma written_app E t1 t2 : written E (t1 ++ t2) = written E t1 ++ written E t2.
Proof. apply omap_app. Qed.

Lemma written_MkdirAll E name t :
  written E (EvCall "os.MkdirAll" [name] :: t)
  = (resolve (cwd E) name, true) :: written E t.
Proof. reflexivity. Qed.

Lemma written_copyFile E name :
  written E [EvCall "os.Create" [name]; EvCall "os.Chmod" [name]]
  = [(resolve (cwd E) name, false)].
Proof. reflexivity. Qed.

(** ** The loop of [copyDir] *)

Section copy_loop.
Context (E : Env) (fuel : nat) (rec : string → string → M unit).
Context (Hrec : copies_tree E fuel rec).
Context (src dst : string) (f f1 : gmap (list string) node) (k : nat) (mS : N).

Local Abbreviation S := (resolve (cwd E) src).
Local Abbreviation D := (resolve (cwd E) dst).

Context (HS : f !! S = Some (Dir mS)).
Context (Hok : tree_ok f S).
Context (Hfit : fits f S (Datatypes.S fuel)).
Context (Hap1 : ¬ S `prefix_of` D) (Hap2 : ¬ D `prefix_of` S).
Context (Hcompat : compatible f S D).
Context (Hdst : dst_ok f D k).
Context (Hf1 : ∀ p, f1 !! p = made_at E f D k mS p).

Lemma loop_src seen w r :
  loop_inv E f f1 S D seen w → fs w !! (S ++ r) = f !! (S ++ r).
Proof.
  intros (Hout & _ & _). rewrite Hout, Hf1.
  - apply made_at_off. rewrite <- (app_nil_r D). by apply apart_app.
  - rewrite <- (app_nil_r D). by apply apart_app.
Qed.

Lemma loop_D seen w :
  loop_inv E f f1 S D seen w → ∃ m, fs w !! D = Some (Dir m).
Proof.
  intros (_ & HD & _). rewrite HD, Hf1. by apply made_at_D.
Qed.

Lemma loop_start w :
  fs w = f1 → loop_inv E f f1 S D [] w.
Proof.
  intros Hw. unfold loop_inv. rewrite Hw. split_and!; [done..|]. intros n r.
  rewrite bool_decide_eq_false_2 by apply not_elem_of_nil.
  rewrite Hf1. apply made_at_off. intros Hp%prefix_length.
  rewrite length_app in Hp. simpl in Hp. lia.
Qed.

Lemma entry_step seen w n x :
  loop_inv E f f1 S D seen w → n ∉ seen → f !! (S ++ [n]) = Some x →
  ∃ w', copyDir_entry E rec src dst (info_of n x) w = (Ok tt, w') ∧
        loop_inv E f f1 S D (n :: seen) w' ∧
        ∃ t, trace w' = trace w ++ t ∧
             written E t = moved_to D (preorder f fuel S [n]).
Proof.
  intros Hinv Hn Hx.
  pose proof Hinv as (Hout & HD & Hin).
  destruct (Hok [] n x Hx) as [Hplain _].
  pose proof (resolve_Join_entry (cwd E) src n Hplain) as Hrs.
  pose proof (resolve_Join_entry (cwd E) dst n Hplain) as Hrd.
  assert (n ≠ "") as Hnn by by apply plain_spec in Hplain as (? & _).
  pose proof (path_Join_entry_nonempty src n Hnn) as Hns.
  pose proof (path_Join_entry_nonempty dst n Hnn) as Hnd.
  assert (fs w !! (D ++ [n]) = f !! (D ++ [n])) as HDn.
  { rewrite Hin. by rewrite bool_decide_eq_false_2. }
  destruct (loop_D _ _ Hinv) as [mD HDw].
  unfold copyDir_entry. cbn [Name IsDir info_of].
  destruct x as [m c|m]; cbn [is_dir].
  - (* a regular file *)
    destruct (copyFile_ok E (path_Join [src; n]) (path_Join [dst; n]) w m c)
      as (w' & Hcopy & Hfs & Htr); [done..| | | | |].
    + by rewrite Hrs, (loop_src seen).
    + rewrite Hrs, Hrd. by apply apart_ne.
    + rewrite Hrd, HDn. intros y Hy. by rewrite <- (Hcompat [n] _ _ Hx Hy).
    + rewrite Hrd, removelast_last. eauto.
    + exists w'. split; [done|]. split.
      2:{ eexists. split; [done|]. rewrite written_copyFile, Hrd.
          assert (1 < Datatypes.S fuel)%nat as Hfuel.
          { apply (Hfit [n]). eauto. }
          destruct fuel as [|fuel']; [lia|]. simpl. by rewrite Hx. }
      unfold loop_inv. rewrite Hfs, Hrd. split_and!.
      * intros p Hp. rewrite lookup_insert_ne; [by apply Hout|].
        intros <-. apply Hp. by apply prefix_app_r.
      * rewrite lookup_insert_ne; [done|].
        intros Heq. apply (f_equal length) in Heq.
        rewrite length_app in Heq. simpl in Heq. lia.
      * intros n' r. destruct (decide (n' = n)) as [->|Hne].
        -- rewrite bool_decide_eq_true_2 by apply list_elem_of_here.
           destruct r as [|z r].
           ++ rewrite lookup_insert_eq. unfold copied_at. by rewrite Hx.
           ++ rewrite lookup_insert_ne.
              2:{ intros Heq%app_inv_head. done. }
              rewrite Hin, bool_decide_eq_false_2 by done.
              unfold copied_at.
              by rewrite (tree_ok_below_file f S n m c (z :: r)).
        -- rewrite lookup_insert_ne.
           2:{ intros Heq%app_inv_head. congruence. }
           rewrite Hin.
           rewrite (bool_decide_ext (n' ∈ n :: seen) (n' ∈ seen)); [done|].
           rewrite elem_of_cons. split; [by intros [?|?]|by right].
  - (* a directory *)
    set (k' := match f !! (D ++ [n]) with
               | Some _ => Datatypes.S (length D)
               | None => length D
               end).
    destruct (Hrec (path_Join [src; n]) (path_Join [dst; n]) w k' m)
      as (w' & Hcopy & Hpost1 & Hpost2 & t & Htr & Hwr).
    { unfold copy_pre. rewrite Hrs, Hrd. split_and!.
      - by rewrite (loop_src seen).
      - intros r z y.
        replace ((S ++ [n]) ++ r ++ [z]) with (S ++ (n :: r) ++ [z])
          by by rewrite <- app_assoc.
        replace ((S ++ [n]) ++ r) with (S ++ n :: r) by by rewrite <- app_assoc.
        rewrite !(loop_src seen) by done. apply Hok.
      - intros r. rewrite <- app_assoc, (loop_src seen) by done.
        intros Hr%Hfit. simpl in Hr. lia.
      - by apply apart_app.
      - by apply apart_app.
      - intros r y1 y2. rewrite <- !app_assoc. simpl.
        rewrite (loop_src seen), Hin, bool_decide_eq_false_2 by done.
        apply Hcompat.
      - unfold dst_ok, k'. destruct (f !! (D ++ [n])) as [y|] eqn:Hy.
        + rewrite length_app. simpl. split_and!; [lia| |intros; lia].
          rewrite firstn_all2 by (rewrite length_app; simpl; lia).
          rewrite HDn. pose proof (Hcompat [n] _ _ Hx Hy) as Hk.
          destruct y; [done|eauto].
        + rewrite length_app. simpl. split_and!; [lia| |].
          * rewrite take_app_length. eauto.
          * intros j Hj. assert (j = length (D ++ [n])) as ->.
            { rewrite length_app. simpl. lia. }
            by rewrite firstn_all, HDn.
      - done.
      - done. }
    exists w'. split; [done|]. rewrite Hrs, Hrd in *. split.
    2:{ exists t. split; [done|]. rewrite Hwr, moved_to_entry. f_equal.
        apply preorder_ext. intros r'. apply (loop_src seen). done. }
    unfold loop_inv.
    assert (length D ≤ k')%nat as Hk' by (unfold k'; case_match; lia).
    split_and!.
    + intros p Hp. rewrite Hpost2.
      * rewrite made_at_keep; [by apply Hout|].
        intros [->|Hpre%prefix_length]%prefix_snoc_inv; [|lia].
        exfalso. apply Hp. by apply prefix_app_r.
      * intros Hpre. apply Hp. by apply prefix_app_l in Hpre.
    + rewrite Hpost2 by apply prefix_snoc_not.
      by rewrite made_at_keep.
    + intros n' r. destruct (decide (n' = n)) as [->|Hne].
      * rewrite bool_decide_eq_true_2 by apply list_elem_of_here.
        replace (D ++ n :: r) with ((D ++ [n]) ++ r) by by rewrite <- app_assoc.
        rewrite Hpost1. unfold copied_at.
        replace ((S ++ [n]) ++ r) with (S ++ n :: r) by by rewrite <- app_assoc.
        replace ((D ++ [n]) ++ r) with (D ++ n :: r) by by rewrite <- app_assoc.
        by rewrite (loop_src seen), Hin, bool_decide_eq_false_2.
      * rewrite Hpost2.
        2:{ intros Hpre%prefix_entry_inv. done. }
        rewrite made_at_keep.
        2:{ intros Hpre%entry_prefix_inv. done. }
        rewrite Hin.
        rewrite (bool_decide_ext (n' ∈ n :: seen) (n' ∈ seen)); [done|].
        rewrite elem_of_cons. split; [by intros [?|?]|by right].
Qed.

Lemma loop_steps fds :
  ∀ seen w,
    loop_inv E f f1 S D seen w →
    NoDup (Name <$> fds) →
    (∀ fd, fd ∈ fds →
       (Name fd ∉ seen) ∧
       ∃ x, f !! (S ++ [Name fd]) = Some x ∧ fd = info_of (Name fd) x) →
    ∃ w', for_each fds (copyDir_entry E rec src dst) w = (Ok tt, w') ∧
          loop_inv E f f1 S D (rev (Name <$> fds) ++ seen) w' ∧
          ∃ t, trace w' = trace w ++ t ∧
               written E t
               = moved_to D (flat_map (λ fd, preorder f fuel S [Name fd]) fds).
Proof.
  induction fds as [|fd fds IH]; intros seen w Hinv Hnd Hfds.
  - exists w. split_and!; [done..|]. exists []. by rewrite app_nil_r.
  - rewrite fmap_cons in Hnd. apply NoDup_cons in Hnd as [Hfd Hnd].
    destruct (Hfds fd ltac:(left)) as (Hseen & x & Hx & Hinfo).
    destruct (entry_step seen w (Name fd) x Hinv Hseen Hx)
      as (w1 & H1 & Hinv1 & t1 & Ht1 & Hw1).
    rewrite <- Hinfo in H1.
    destruct (IH (Name fd :: seen) w1 Hinv1 Hnd)
      as (w' & Hloop & Hinv' & t2 & Ht2 & Hw2).
    { intros fd' Hin'. destruct (Hfds fd' ltac:(by right)) as (? & ?).
      split; [|done]. apply not_elem_of_cons. split; [|done].
      intros Heq. apply Hfd. rewrite <- Heq. by apply list_elem_of_fmap_2. }
    exists w'. simpl. unfold bind. rewrite H1. split; [done|]. split.
    + by rewrite <- app_assoc.
    + exists (t1 ++ t2). split.
      * by rewrite Ht2, Ht1, <- app_assoc.
      * by rewrite written_app, moved_to_app, Hw1, Hw2.
Qed.

End copy_loop.

(** ** [copyDir] copies a tree *)

Lemma copyDir_copies_tree E fuel : copies_tree E fuel (copyDir E fuel).
Proof.
  induction fuel as [|fuel IH];
    intros src dst w k mS
      (HS & Hok & Hfit & Hap1 & Hap2 & Hcompat & Hdst & Hns & Hnd).
  - specialize (Hfit []). rewrite app_nil_r in Hfit.
    specialize (Hfit ltac:(eauto)). simpl in Hfit. lia.
  - set (S := resolve (cwd E) src) in *. set (D := resolve (cwd E) dst) in *.
    destruct (mkdir_all_spec E D (fs w) k mS Hdst) as (f1 & Hmk & Hf1).
    assert (∀ r, f1 !! (S ++ r) = fs w !! (S ++ r)) as Hsrc.
    { intros r. rewrite Hf1. apply made_at_off.
      rewrite <- (app_nil_r D). by apply apart_app. }
    simpl. unfold bind at 1. rewrite (os_Stat_ok E src w _ Hns HS).
    unfold bind at 1. rewrite os_MkdirAll_run by done.
    cbn [Mode info_of perm_of].
    fold D. rewrite Hmk.
    set (w1 := mkWorld f1 _).
    unfold bind at 1. rewrite (ioutil_ReadDir_ok E src w1 mS Hns).
    2:{ cbn [fs w1]. fold S. rewrite <- (app_nil_r S), Hsrc, app_nil_r. done. }
    cbn [fs w1]. fold S.
    destruct (loop_steps E fuel (copyDir E fuel) IH src dst (fs w) f1 k mS
                Hok Hfit Hap1 Hap2 Hcompat Hdst Hf1
                (merge_sort name_le (entries f1 S)) [] w1)
      as (w' & Hloop & (Hout & HD & Hin) & t & Htr & Hwr).
    + by eapply loop_start.
    + rewrite merge_sort_Permutation. apply NoDup_entries.
    + intros fd Hfd. split; [apply not_elem_of_nil|].
      rewrite merge_sort_Permutation in Hfd.
      apply elem_of_entries in Hfd as (n & x & Hx & ->).
      exists x. by rewrite <- Hsrc.
    + exists w'. split; [done|]. split_and!.
      3:{ exists (EvCall "os.MkdirAll" [dst] :: t). split.
          - rewrite Htr. cbn [trace w1]. by rewrite <- app_assoc.
          - rewrite written_MkdirAll, Hwr. fold D. cbn [preorder].
            rewrite app_nil_r. fold S. rewrite HS. cbn [moved_to map fst snd].
            rewrite app_nil_r. f_equal. fold (moved_to D). f_equal.
            rewrite (entries_ext f1 (fs w) S).
            2:{ intros n. apply Hsrc. }
            done. }
      * intros [|n r].
        -- rewrite app_nil_r, HD, Hf1. by apply made_at_copied.
        -- rewrite Hin. case_bool_decide as Hseen; [done|].
           unfold copied_at. fold S D.
           rewrite (tree_ok_below_nothing (fs w) S n r Hok); [done|].
           destruct (fs w !! (S ++ [n])) as [x|] eqn:Hx; [|done].
           exfalso. apply Hseen. rewrite app_nil_r, list_elem_of_In, <- in_rev, <- list_elem_of_In.
           apply list_elem_of_fmap. exists (info_of n x). split; [done|].
           rewrite merge_sort_Permutation. apply elem_of_entries.
           exists n, x. by rewrite Hsrc.
      * intros p Hp. by rewrite Hout, Hf1.
Qed.

Lemma keys_bounded (f : gmap (list string) node) :
  ∃ b, ∀ p, is_Some (f !! p) → (length p < b)%nat.
Proof.
  induction f as [|p x f Hp IH] using map_ind.
  - exists 0%nat. intros p [x Hx]. by rewrite lookup_empty in Hx.
  - destruct IH as [b Hb]. exists (max b (Datatypes.S (length p))).
    intros q [y Hy]. destruct (decide (p = q)) as [->|Hne]; [lia|].
    rewrite lookup_insert_ne in Hy by done.
    specialize (Hb q ltac:(eauto)). lia.
Qed.

(** Some fuel is enough for every tree, and more fuel is enough too. *)
Lemma fits_exists f S : ∃ fuel0, ∀ fuel, (fuel0 ≤ fuel)%nat → fits f S fuel.
Proof.
  destruct (keys_bounded f) as [b Hb]. exists b.
  intros fuel Hfuel r Hr. specialize (Hb _ Hr).
  rewrite length_app in Hb. lia.
Qed.

Lemma copyDir_runs E src dst w k mS :
  src ≠ "" → dst ≠ "" →
  fs w !! resolve (cwd E) src = Some (Dir mS) →
  tree_ok (fs w) (resolve (cwd E) src) →
  ¬ resolve (cwd E) src `prefix_of` resolve (cwd E) dst →
  ¬ resolve (cwd E) dst `prefix_of` resolve (cwd E) src →
  compatible (fs w) (resolve (cwd E) src) (resolve (cwd E) dst) →
  dst_ok (fs w) (resolve (cwd E) dst) k →
  ∃ fuel0, ∀ fuel, (fuel0 ≤ fuel)%nat →
    fits (fs w) (resolve (cwd E) src) fuel ∧
    ∃ w', copyDir E fuel src dst w = (Ok tt, w') ∧
          copy_post E fuel src dst w w' k mS.
Proof.
  intros Hns Hnd HS Hok Hap1 Hap2 Hcompat Hdst.
  destruct (fits_exists (fs w) (resolve (cwd E) src)) as [fuel0 Hfits].
  exists fuel0. intros fuel Hfuel. split; [by apply Hfits|].
  apply copyDir_copies_tree. unfold copy_pre.
  split_and!; [done|done|by apply Hfits|done..].
Qed.

(** The listing of the whole tree has every node of it. *)
Lemma tree_preorder_lists f base x r y :
  tree_ok f base → f !! base = Some x → f !! (base ++ r) = Some y →
  (r, is_dir y) ∈ tree_preorder f base.
Proof.
  intros Hok Hx Hy. unfold tree_preorder.
  apply (preorder_complete f base (depth f) [] x); [|done|by rewrite app_nil_r|done].
  intros r' Hr'%depth_bound. simpl in *. rewrite length_app in Hr'. lia.
Qed.

(** ** Clean names

    For a clean name the lexical resolution is the walk of the system:
    [resolve] appends the names of the path, one after the other, to the
    root or to the working directory, and never steps back. *)
Lemma resolve_plain_names parts : ∀ at_,
  forallb plain parts = true →
  fold_left resolve_step parts at_ = at_ ++ parts.
Proof.
  induction parts as [|e parts IH]; intros at_ H; simpl.
  - by rewrite app_nil_r.
  - simpl in H. apply andb_true_iff in H as [He Hparts].
    rewrite IH by done. rewrite resolve_step_plain by done.
    by rewrite <- app_assoc.
Qed.

Lemma resolve_clean cwd name :
  clean_name name = true →
  resolve cwd name
  = (if rooted name then [] else cwd)
    ++ match strings_Split name "/" with
       | EmptyString :: rest => rest
       | parts => parts
       end.
Proof.
  unfold clean_name, resolve.
  destruct (strings_Split name "/") as [|[|a e] rest]; intros H.
  - by rewrite app_nil_r.
  - simpl. by apply resolve_plain_names.
  - by apply resolve_plain_names.
Qed.

(** An existing node on the way to the destination is not below its
    nearest existing ancestor. *)
Lemma dst_ok_above f D k p x :
  dst_ok f D k → p `prefix_of` D → f !! p = Some x → (length p ≤ k)%nat.
Proof.
  intros (Hk & _ & Hnone) [r ->] Hx.
  destruct (decide (length p ≤ k)%nat) as [|Hlen]; [done|].
  specialize (Hnone (length p)).
  rewrite take_app_length, Hx, length_app in Hnone.
  discriminate Hnone. lia.
Qed.

(** C6, as the code has it. The source and the destination are given by
    clean names. A source directory whose tree holds directories and
    regular files, and a destination that is not in the source tree nor
    around it, that holds a directory wherever it has a node where the
    source has a directory, and a file wherever it has a node where the
    source has a file, and whose nearest existing ancestor (the first [k]
    names of its path) is a directory: with enough fuel [copyDir] returns
    without error, and then it has left every node of the destination
    untouched where the source has nothing at the same place, and has
    replaced every file of the destination where the source has a file at
    the same place by the file of the source. Outside the destination
    every node that was there is as it was; the missing directories on the
    way to the destination have been made; and nothing else is new. *)
Theorem copyDir_keeps_unrelated_files
    (E : Env) (src dst : string) (w : World) (k : nat) (mS : N) :
  let S := resolve (cwd E) src in
  let D := resolve (cwd E) dst in
  clean_name src = true → clean_name dst = true →
  src ≠ "" → dst ≠ "" →
  fs w !! S = Some (Dir mS) →
  tree_ok (fs w) S →
  ¬ S `prefix_of` D → ¬ D `prefix_of` S →
  compatible (fs w) S D →
  dst_ok (fs w) D k →
  ∃ fuel0, ∀ fuel, (fuel0 ≤ fuel)%nat →
    ∃ w', copyDir E fuel src dst w = (Ok tt, w') ∧
      (∀ r x, fs w !! (D ++ r) = Some x → fs w !! (S ++ r) = None →
              fs w' !! (D ++ r) = Some x) ∧
      (∀ r m0 c0 m c,
         fs w !! (D ++ r) = Some (File m0 c0) →
         fs w !! (S ++ r) = Some (File m c) →
         fs w' !! (D ++ r) = Some (File m c)) ∧
      (∀ p x, ¬ D `prefix_of` p → fs w !! p = Some x → fs w' !! p = Some x) ∧
      (∀ p, ¬ D `prefix_of` p → p `prefix_of` D → (k < length p)%nat →
            ∃ m', fs w' !! p = Some (Dir m')) ∧
      (∀ p, ¬ D `prefix_of` p → fs w !! p = None →
            ¬ (p `prefix_of` D ∧ (k < length p)%nat) →
            fs w' !! p = None).
Proof.
  intros S D _ _ Hns Hnd HS Hok Hap1 Hap2 Hcompat Hdst.
  destruct (copyDir_runs E src dst w k mS Hns Hnd HS Hok Hap1 Hap2 Hcompat Hdst)
    as [fuel0 Hrun].
  exists fuel0. intros fuel Hfuel.
  destruct (Hrun fuel Hfuel) as (_ & w' & Hcopy & Hin & Hout & _).
  exists w'. split; [done|]. fold S D in Hin, Hout.
  split_and!.
  - intros r x Hd Hs. rewrite Hin. unfold copied_at. by rewrite Hs.
  - intros r m0 c0 m c Hd Hs. rewrite Hin. unfold copied_at. by rewrite Hs.
  - intros p x Hp Hx. rewrite Hout by done. rewrite made_at_keep; [done|].
    intros Hpre. by apply (dst_ok_above (fs w) D k p x).
  - intros p Hp Hpre Hk. rewrite Hout by done. unfold made_at.
    rewrite bool_decide_eq_true_2 by done. by eexists.
  - intros p Hp Hnone Hnot. rewrite Hout by done. unfold made_at.
    by rewrite bool_decide_eq_false_2.
Qed.

(** ** What a copy can touch *)

Lemma touches_bind {A B} P (m : M A) (k : A → M B) w :
  touches_only P m w →
  (∀ a w', m w = (Ok a, w') → touches_only P (k a) w') →
  touches_only P (bind m k) w.
Proof.
  intros Hm Hk q Hq. unfold bind. specialize (Hm q Hq).
  destruct (m w) as [[a|e|] w'] eqn:H; simpl in *; [|done..].
  rewrite <- Hm. by apply (Hk a w').
Qed.

Lemma touches_weaken {A} (P Q : list string → Prop) (m : M A) w :
  (∀ q, P q → Q q) → touches_only P m w → touches_only Q m w.
Proof. intros HPQ Hm q Hq. apply Hm. auto. Qed.

Lemma for_each_touches {A} P (body : A → M unit) (I : World → Prop) xs :
  (∀ x w, x ∈ xs → I w → touches_only P (body x) w ∧ I (body x w).2) →
  ∀ w, I w → touches_only P (for_each xs body) w.
Proof.
  induction xs as [|a xs IH]; intros Hbody w HI; simpl.
  - by intros q _.
  - apply touches_bind.
    + apply Hbody; [left|done].
    + intros [] w' Hw'. apply IH.
      * intros x w0 Hx. apply Hbody. by right.
      * destruct (Hbody a w ltac:(left) HI) as [_ HI']. by rewrite Hw' in HI'.
Qed.

Lemma os_Stat_world E name w : (os_Stat E name w).2 = w.
Proof.
  unfold os_Stat, named. destruct (String.eqb name ""); [done|].
  unfold bind, get_fs. by destruct (fs w !! resolve (cwd E) name).
Qed.

Lemma ioutil_ReadDir_inv E name w r w' :
  ioutil_ReadDir E name w = (r, w') →
  w' = w ∧
  ∀ fds, r = Ok fds →
         fds = merge_sort name_le (entries (fs w) (resolve (cwd E) name)).
Proof.
  unfold ioutil_ReadDir, named. destruct (String.eqb name "").
  { intros [= <- <-]. by split. }
  unfold bind, get_fs.
  destruct (fs w !! resolve (cwd E) name) as [[m c|m]|];
    intros [= <- <-]; split; try done.
  by intros fds [= <-].
Qed.

Lemma mkdir_keeps E p perm f f' q :
  mkdir E p perm f = inr f' → q ≠ p → f' !! q = f !! q.
Proof.
  unfold mkdir. destruct p as [|a p]; [done|].
  destruct (f !! (a :: p)); [done|].
  destruct (f !! removelast (a :: p)) as [[m c|m]|]; [done| |done].
  intros [= <-] Hq. by rewrite lookup_insert_ne.
Qed.

Lemma mkdir_all_keeps E perm : ∀ rp f f' q,
  mkdir_all E rp perm f = inr f' → ¬ q `prefix_of` rev rp → f' !! q = f !! q.
Proof.
  induction rp as [|x rp IH]; intros f f' q H Hq; simpl in H.
  - destruct (f !! []) as [[m c|m]|]; [done|by injection H as <-|done].
  - destruct (f !! (rev rp ++ [x])) as [[m c|m]|]; [done|by injection H as <-|].
    destruct (mkdir_all E rp perm f) as [e|f1] eqn:H1; [done|].
    rewrite (mkdir_keeps _ _ _ _ _ q H).
    + apply (IH _ _ _ H1). intros Hp. apply Hq. simpl. by apply prefix_app_r.
    + intros ->. by apply Hq.
Qed.

(** [os.MkdirAll] touches only the paths on the way to the directory. *)
Lemma os_MkdirAll_touches E path perm w :
  touches_only (λ q, q `prefix_of` resolve (cwd E) path)
               (os_MkdirAll E path perm) w.
Proof.
  intros q Hq. unfold os_MkdirAll, named, lift_fs, bind, emit, get_fs, put_fs,
    throw.
  destruct (String.eqb path ""); [done|]. cbn [fs trace].
  destruct (mkdir_all E (rev (resolve (cwd E) path)) perm (fs w)) as [e|f']
    eqn:Hmk; [done|].
  cbn [fs snd]. apply (mkdir_all_keeps _ _ _ _ _ _ Hmk).
  by rewrite rev_involutive.
Qed.

Lemma os_Open_world E name w : (os_Open E name w).2 = w.
Proof.
  unfold os_Open, named. destruct (String.eqb name ""); [done|].
  unfold bind, get_fs. by destruct (fs w !! resolve (cwd E) name).
Qed.

(** [os.Create] touches only the file, and returns it. *)
Lemma os_Create_touches E name w :
  touches_only (λ q, q = resolve (cwd E) name) (os_Create E name) w ∧
  ∀ fd w', os_Create E name w = (Ok fd, w') → fd = resolve (cwd E) name.
Proof.
  unfold touches_only, os_Create, named, bind, emit, get_fs, put_fs, ret, throw.
  destruct (String.eqb name ""); [done|]. cbn [fs trace].
  destruct (fs w !! resolve (cwd E) name) as [[m c|m]|].
  - split; [|by intros ? ? [= <- _]].
    intros q Hq. cbn [fs snd]. by rewrite lookup_insert_ne.
  - done.
  - destruct (fs w !! removelast (resolve (cwd E) name)) as [[m c|m]|];
      [done| |done].
    split; [|by intros ? ? [= <- _]].
    intros q Hq. cbn [fs snd]. by rewrite lookup_insert_ne.
Qed.

Lemma io_Copy_touches dstfd srcfd w :
  touches_only (λ q, q = dstfd) (io_Copy dstfd srcfd) w.
Proof.
  intros q Hq. unfold io_Copy, bind, get_fs, put_fs, throw.
  destruct (fs w !! srcfd) as [[m c|m]|]; [|done..].
  destruct (fs w !! dstfd) as [[m' old|m']|]; [|done..].
  cbn [fs snd]. by rewrite lookup_insert_ne.
Qed.

Lemma os_Chmod_touches E name mode w :
  touches_only (λ q, q = resolve (cwd E) name) (os_Chmod E name mode) w.
Proof.
  intros q Hq. unfold os_Chmod, named, bind, emit, get_fs, put_fs, throw.
  destruct (String.eqb name ""); [done|]. cbn [fs trace].
  destruct (fs w !! resolve (cwd E) name); [|done].
  cbn [fs snd]. by rewrite lookup_insert_ne.
Qed.

(** [copyFile] touches only the destination. *)
Lemma copyFile_touches E src dst w :
  touches_only (λ q, q = resolve (cwd E) dst) (copyFile E src dst) w.
Proof.
  unfold copyFile. apply touches_bind.
  { intros q _. by rewrite os_Open_world. }
  intros srcfd w0 Hopen.
  assert (w0 = w) as -> by (by rewrite <- (os_Open_world E src w), Hopen).
  apply touches_bind; [apply os_Create_touches|].
  intros dstfd w1 Hcreate.
  apply (proj2 (os_Create_touches E dst w)) in Hcreate as ->.
  apply touches_bind; [apply io_Copy_touches|].
  intros [] w2 _. apply touches_bind.
  { intros q _. by rewrite os_Stat_world. }
  intros info w3 _. apply os_Chmod_touches.
Qed.

Lemma around_entry {A} (D : list A) n q :
  ¬ (D `prefix_of` q ∨ q `prefix_of` D) →
  ¬ (D ++ [n] `prefix_of` q ∨ q `prefix_of` D ++ [n]).
Proof.
  intros Hq [Hp|Hp]; apply Hq.
  - left. by apply prefix_app_l in Hp.
  - apply prefix_snoc_inv in Hp as [->|Hp]; [|by right].
    left. by apply prefix_app_r.
Qed.

(** [copyDir] touches only the paths below the destination and those on
    the way to it: whether it returns an error or not, everything else is
    as it was. *)
Lemma copyDir_touches E fuel : ∀ src dst w,
  tree_ok (fs w) (resolve (cwd E) src) →
  ¬ resolve (cwd E) src `prefix_of` resolve (cwd E) dst →
  ¬ resolve (cwd E) dst `prefix_of` resolve (cwd E) src →
  touches_only (around (resolve (cwd E) dst)) (copyDir E fuel src dst) w.
Proof.
  induction fuel as [|fuel IH]; intros src dst w Hok Hap1 Hap2; [by intros q _|].
  set (S := resolve (cwd E) src) in *. set (D := resolve (cwd E) dst) in *.
  assert (∀ r, ¬ around D (S ++ r)) as Hsrc.
  { intros r [Hp|Hp].
    - apply (apart_app D S [] r Hap2 Hap1). by rewrite app_nil_r.
    - apply (apart_app S D r [] Hap1 Hap2). by rewrite app_nil_r. }
  simpl. apply touches_bind.
  { intros q _. by rewrite os_Stat_world. }
  intros info w0 Hstat.
  assert (w0 = w) as -> by (by rewrite <- (os_Stat_world E src w), Hstat).
  apply touches_bind.
  { eapply touches_weaken; [|apply os_MkdirAll_touches]. intros q Hq. by right. }
  intros [] w1 Hmk.
  assert (∀ r, fs w1 !! (S ++ r) = fs w !! (S ++ r)) as H1.
  { intros r. pose proof (os_MkdirAll_touches E dst (Mode info) w (S ++ r)) as H.
    rewrite Hmk in H. apply H. intros Hp. apply (Hsrc r). by right. }
  apply touches_bind.
  { intros q _. destruct (ioutil_ReadDir E src w1) as [r w2] eqn:Hrd.
    by apply ioutil_ReadDir_inv in Hrd as [-> _]. }
  intros fds w2 Hrd. apply ioutil_ReadDir_inv in Hrd as [-> Hfds].
  specialize (Hfds fds eq_refl). fold S in Hfds.
  apply (for_each_touches _ _ (λ w', ∀ r, fs w' !! (S ++ r) = fs w !! (S ++ r)));
    [|done].
  intros fd w' Hfd Hw'.
  rewrite Hfds, merge_sort_Permutation in Hfd.
  apply elem_of_entries in Hfd as (n & x & Hx & ->). rewrite H1 in Hx.
  destruct (Hok [] n x Hx) as [Hplain _].
  assert (touches_only (around D)
            (copyDir_entry E (copyDir E fuel) src dst (info_of n x)) w')
    as Htouch.
  { unfold copyDir_entry. cbn [Name IsDir info_of].
    destruct (is_dir x).
    - intros q Hq. apply IH.
      + rewrite resolve_Join_entry by done. fold S. apply tree_ok_entry.
        intros r z y. rewrite !Hw'. apply Hok.
      + rewrite !resolve_Join_entry by done. by apply apart_app.
      + rewrite !resolve_Join_entry by done. by apply apart_app.
      + rewrite resolve_Join_entry by done. by apply around_entry.
    - eapply touches_weaken; [|apply copyFile_touches].
      intros q ->. rewrite resolve_Join_entry by done. left.
      by apply prefix_app_r. }
  split; [done|]. intros r. rewrite <- Hw'. apply Htouch, Hsrc.
Qed.

(** ** The first error *)




(** ** Deciding the shape of a tree *)

Lemma strip_app S r : strip S (S ++ r) = Some r.
Proof.
  induction S as [|a S IH]; simpl; [by destruct r|].
  by rewrite bool_decide_eq_true_2.
Qed.

Lemma tree_okb_sound f S : tree_okb f S = true → tree_ok f S.
Proof.
  unfold tree_okb. rewrite forallb_forall. intros H r n x Hx.
  specialize (H (S ++ r ++ [n], x)). simpl in H.
  rewrite strip_app, last_snoc in H.
  rewrite app_assoc, removelast_last in H.
  assert (In (S ++ r ++ [n], x) (map_to_list f)) as Hin.
  { apply list_elem_of_In, elem_of_map_to_list. done. }
  rewrite <- app_assoc in H. apply H in Hin.
  apply andb_true_iff in Hin as [Hp Hd]. split; [done|].
  destruct (f !! (S ++ r)) as [[|m]|]; try done. by exists m.
Qed.

Lemma compatibleb_sound f S D : compatibleb f S D = true → compatible f S D.
Proof.
  unfold compatibleb. rewrite forallb_forall. intros H r x y Hx Hy.
  specialize (H (S ++ r, x)). simpl in H.
  rewrite strip_app, Hy in H. apply Bool.eqb_prop, H.
  by apply list_elem_of_In, elem_of_map_to_list.
Qed.

(** ** The sample worlds *)

(** A decidable proposition that evaluates to true. *)
Ltac by_decision :=
  match goal with
  | |- ?P => refine (proj1 (bool_decide_eq_true P) _); vm_compute; reflexivity
  end.

Lemma demo_copy_tree_ok : tree_ok (fs demo_world_copy) ["src"; "content"].
Proof. apply tree_okb_sound. vm_compute. reflexivity. Qed.

Lemma demo_copy_compatible_new :
  compatible (fs demo_world_copy) ["src"; "content"] ["new"; "place"].
Proof. apply compatibleb_sound. vm_compute. reflexivity. Qed.

Lemma demo_copy_compatible_out :
  compatible (fs demo_world_copy) ["src"; "content"] ["out"].
Proof. apply compatibleb_sound. vm_compute. reflexivity. Qed.

Lemma demo_copy_dst_ok_new :
  dst_ok (fs demo_world_copy) ["new"; "place"] 0.
Proof.
  split_and!; [simpl; lia|by eexists|].
  intros j Hj. simpl in Hj.
  assert (j = 1 ∨ j = 2)%nat as [-> | ->] by lia; by vm_compute.
Qed.

Lemma demo_copy_dst_ok_out : dst_ok (fs demo_world_copy) ["out"] 1.
Proof.
  split_and!; [simpl; lia|by eexists|].
  intros j Hj. simpl in Hj. lia.
Qed.

Lemma copyDir_keeps_unrelated_files_witness :
  ∃ fuel0, ∀ fuel, (fuel0 ≤ fuel)%nat →
    ∃ w', copyDir demo_env fuel "/src/content" "/out" demo_world_copy
          = (Ok tt, w') ∧
          fs w' !! ["out"; "notes.txt"] = Some (File 420 "mine") ∧
          fs w' !! ["out"; "docs"; "b.md"] = Some (File 420 "bbb") ∧
          fs w' !! ["out"; "index.md"] = Some (File 420 "hello") ∧
          fs w' !! ["src"; "content"; "index.md"] = Some (File 420 "hello") ∧
          fs w' !! ["elsewhere"] = None.
Proof.
  destruct (copyDir_keeps_unrelated_files demo_env "/src/content" "/out"
              demo_world_copy 1 493) as [fuel0 H].
  - reflexivity.
  - reflexivity.
  - discriminate.
  - discriminate.
  - reflexivity.
  - exact demo_copy_tree_ok.
  - by_decision.
  - by_decision.
  - exact demo_copy_compatible_out.
  - exact demo_copy_dst_ok_out.
  - exists fuel0. intros fuel Hfuel.
    destruct (H fuel Hfuel) as (w' & Hrun & Hkeep & Hover & Hout & _ & Hnew).
    exists w'. split; [exact Hrun|]. split_and!.
    + apply (Hkeep ["notes.txt"]); reflexivity.
    + apply (Hkeep ["docs"; "b.md"]); reflexivity.
    + apply (Hover ["index.md"] 384%N "stale" 420%N "hello"); reflexivity.
    + apply (Hout ["src"; "content"; "index.md"]); [by_decision|reflexivity].
    + apply (Hnew ["elsewhere"]); [by_decision|reflexivity|by_decision].
Defined.

(** C3, the code at an input at which it departs from the claim. The
    process has umask [022]; the source tree [/src/content] holds the
    directory [docs] with the permission bits [0777] and in it the file
    [a.md] with the bits [0600]; nothing is at [/new/place]. [copyDir]
    from [/src/content] to [/new/place] returns without error; the file
    [a.md] has the bits of its source ([copyFile] ends with [os.Chmod]),
    but the directory [docs] has the bits [0755] and not the [0777] of its
    source: [copyDir] hands the mode of the source to [os.MkdirAll], which
    takes the bits of the umask away, and sets no mode afterwards. *)
Theorem copyDir_loses_directory_mode :
  umask demo_env = 18%N ∧
  fs demo_world_copy !! ["src"; "content"; "docs"] = Some (Dir 511) ∧
  fs demo_world_copy !! ["src"; "content"; "docs"; "a.md"]
  = Some (File 384 "aaa") ∧
  fs demo_world_copy !! ["new"] = None ∧
  ∃ w', copyDir demo_env 3 "/src/content" "/new/place" demo_world_copy
        = (Ok tt, w') ∧
        fs w' !! ["new"; "place"; "docs"; "a.md"] = Some (File 384 "aaa") ∧
        fs w' !! ["new"; "place"; "docs"] = Some (Dir 493) ∧
        fs w' !! ["new"; "place"; "docs"] ≠ Some (Dir 511).
Proof.
  split; [reflexivity|]. split; [vm_compute; reflexivity|].
  split; [vm_compute; reflexivity|]. split; [vm_compute; reflexivity|].
  eexists. split; [vm_compute; reflexivity|].
  split; [vm_compute; reflexivity|].
  split; [vm_compute; reflexivity|]. vm_compute. discriminate.
Qed.

(** A file of the destination where the source has a directory: the copy
    returns an error and the file is as it was. *)
Lemma copyDir_overwrite_counterexample :
  fs demo_world_clash !! ["out"; "docs"] = Some (File 420 "not a directory") ∧
  fs demo_world_clash !! ["src"; "content"; "docs"] = Some (Dir 511) ∧
  ∃ w', copyDir demo_env 3 "/src/content" "/out" demo_world_clash
        = (Err ENOTDIR, w') ∧
        fs w' !! ["out"; "docs"] = Some (File 420 "not a directory").
Proof.
  split; [vm_compute; reflexivity|]. split; [vm_compute; reflexivity|].
  eexists. split; [vm_compute; reflexivity|]. vm_compute. reflexivity.
Qed.

Lemma fetchRepository_clones_branch_witness :
  plain "v1" = true ∧
  commands_run
    (trace (fetchRepository demo_env demo_cfg [] "/tmp/ws" demo_url
                            "v1" "release-1" demo_world).2)
  = [["git"; "clone"; "-b"; "release-1"; demo_url; "/tmp/ws/repo/v1"]] ∧
  resolve [] (filepath_Join ["/tmp/ws"; "repo"; "v1"]) = ["tmp"; "ws"; "repo"; "v1"].
Proof.
  split; [reflexivity|].
  destruct (fetchRepository_clones_branch demo_env demo_cfg [] "/tmp/ws"
              demo_url "v1" "release-1" demo_world)
    as (Hcmd & _ & Hdir & _).
  split; [exact Hcmd|]. apply Hdir. reflexivity.
Defined.

(** The command line of the fetch step has no option for a single branch
    and none for a shallow history. *)
Lemma fetchRepository_full_clone_counterexample :
  commands_run
    (trace (fetchRepository demo_env demo_cfg [] "/tmp/ws" demo_url
                            "v1" "release-1" demo_world).2)
  = [["git"; "clone"; "-b"; "release-1"; demo_url; "/tmp/ws/repo/v1"]] ∧
  asks_single_branch
    ["git"; "clone"; "-b"; "release-1"; demo_url; "/tmp/ws/repo/v1"] = false ∧
  asks_shallow
    ["git"; "clone"; "-b"; "release-1"; demo_url; "/tmp/ws/repo/v1"] = false.
Proof. split_and!; vm_compute; reflexivity. Qed.

Lemma run_nothing_to_do_witness :
  run demo_env demo_cfg_idle 5 demo_world
  = (Ok tt, mkWorld (fs demo_world) [EvLog false [] "Nothing to do!"]).
Proof.
  apply (run_nothing_to_do demo_env demo_cfg_idle 5 demo_world); reflexivity.
Defined.

Lemma workspace_removed_on_every_exit_witness :
  ∃ w3, run demo_env demo_cfg_gone 5 gone_w = (Err ExitError, w3) ∧
        ∀ p, resolve (cwd demo_env) (workspace demo_env) `prefix_of` p →
             fs w3 !! p = None.
Proof.
  destruct (workspace_removed_on_every_exit demo_env demo_cfg_gone 5
              demo_world gone_w gone_w1 gone_body (workspace demo_env)
              (Err ExitError))
    as (w3 & w4 & code & Hrun & Hmain & Hfs & Htr & Hgone).
  - reflexivity.
  - vm_compute. reflexivity.
  - right. discriminate.
  - vm_compute. reflexivity.
  - vm_compute. reflexivity.
  - discriminate.
  - exists w3. split; [exact Hrun|]. exact Hgone.
Defined.





(** * Further properties of the program *)

(** ** The flags and the exit status *)

Lemma world_eta w : mkWorld (fs w) (trace w) = w.
Proof. by destruct w. Qed.

Lemma validateFlags_run cfg w :
  validateFlags cfg w
  = (Ok (flags_valid cfg), mkWorld (fs w) (trace w ++ missing_flags cfg)).
Proof.
  unfold validateFlags, notEmpty, flags_valid, missing_flags, missing_flag,
    bind, log_Info, emit, ret.
  destruct (String.eqb (repoURL cfg) ""), (String.eqb (repoContentDir cfg) ""),
    (String.eqb (outputDir cfg) ""); cbn [fs trace negb andb app];
    rewrite <- ?app_assoc, ?app_nil_r, ?world_eta; reflexivity.
Qed.

(** X1. [validateFlags] checks all three flags, whatever the earlier checks
    gave: it logs one line for every flag without a value, in the order
    [--repo-url], [--repo-content-dir], [--output-dir], returns whether
    none is missing, and leaves the file system alone. *)
Theorem validateFlags_reports_every_missing_flag (cfg : Config) (w : World) :
  validateFlags cfg w
  = (Ok (flags_valid cfg), mkWorld (fs w) (trace w ++ missing_flags cfg)).
Proof.
  unfold validateFlags, notEmpty, flags_valid, missing_flags, missing_flag,
    bind, log_Info, emit, ret.
  destruct (String.eqb (repoURL cfg) ""), (String.eqb (repoContentDir cfg) ""),
    (String.eqb (outputDir cfg) ""); cbn [fs trace negb andb app];
    rewrite <- ?app_assoc, ?app_nil_r, ?world_eta; reflexivity.
Qed.

Lemma missing_flags_valid cfg : flags_valid cfg = true → missing_flags cfg = [].
Proof.
  unfold flags_valid, missing_flags, missing_flag.
  by destruct (String.eqb (repoURL cfg) ""),
    (String.eqb (repoContentDir cfg) ""), (String.eqb (outputDir cfg) "").
Qed.

(** X2. [main] ends before any input or output when it cannot start: with
    status 2 and nothing done when the logging flag cannot be set, and with
    status 1 when a required flag has no value, after the log lines of the
    missing flags (at least one) and nothing else: no directory is made and
    no command is run. *)
Theorem main_exits_before_any_io
    (E : Env) (cfg : Config) (fuel : nat) (w : World) :
  (logtostderr_ok E = false → main E cfg fuel w = (Some 2%N, w)) ∧
  (logtostderr_ok E = true → flags_valid cfg = false →
   main E cfg fuel w
   = (Some 1%N, mkWorld (fs w) (trace w ++ missing_flags cfg)) ∧
   missing_flags cfg ≠ [] ∧
   Forall (λ ev, ∃ msg, ev = EvLog false [] msg) (missing_flags cfg)).
Proof.
  split.
  - intros H. unfold main. by rewrite H.
  - intros H Hv. split_and!.
    + unfold main. by rewrite H, validateFlags_run, Hv.
    + revert Hv. unfold flags_valid, missing_flags, missing_flag.
      by destruct (String.eqb (repoURL cfg) ""),
        (String.eqb (repoContentDir cfg) ""), (String.eqb (outputDir cfg) "").
    + unfold missing_flags, missing_flag.
      destruct (String.eqb (repoURL cfg) ""),
        (String.eqb (repoContentDir cfg) ""), (String.eqb (outputDir cfg) "");
        repeat constructor; eauto.
Qed.

Lemma main_exits_before_any_io_witness :
  main demo_env (mkConfig "" "content" "" "main" [] false) 5 demo_world
  = (Some 1%N,
     mkWorld (fs demo_world)
       [EvLog false [] "--repo-url must be specified";
        EvLog false [] "--output-dir must be specified"]).
Proof.
  refine (proj1 (proj2 (main_exits_before_any_io demo_env
            (mkConfig "" "content" "" "main" [] false) 5 demo_world) _ _));
    reflexivity.
Defined.

(** X3. [main] ends with status 0 exactly when the logging flag could be
    set, every required flag has a value and [run] returned without error;
    the world it leaves is then the world [run] left: a run with nothing to
    do ends with status 0 as well. *)
Theorem main_exit_status_zero
    (E : Env) (cfg : Config) (fuel : nat) (w w' : World) :
  main E cfg fuel w = (Some 0%N, w') ↔
  logtostderr_ok E = true ∧ flags_valid cfg = true ∧
  run E cfg fuel w = (Ok tt, w').
Proof.
  unfold main. rewrite validateFlags_run.
  destruct (logtostderr_ok E); simpl; [|by split; [|intros (? & _)]].
  destruct (flags_valid cfg) eqn:Hv; [|by split; [|intros (_ & ? & _)]].
  rewrite (missing_flags_valid _ Hv), app_nil_r, world_eta.
  destruct (run E cfg fuel w) as [[[]|e|] w2]; split;
    try (by intros (_ & _ & ?)); try done.
  - by intros [= <-].
  - by intros (_ & _ & [= <-]).
Qed.

Lemma main_exit_status_zero_witness :
  main demo_env demo_cfg_idle 5 demo_world
  = (Some 0%N, mkWorld (fs demo_world) [EvLog false [] "Nothing to do!"]).
Proof.
  apply (proj2 (main_exit_status_zero demo_env demo_cfg_idle 5 demo_world _)).
  split_and!; reflexivity.
Defined.

(** ** The tokens of [--branches] *)

Lemma parseBranchesFlag_body_entry out b :
  parseBranchesFlag_body out b
  = <[(token_entry b).1 := (token_entry b).2]> out.
Proof.
  unfold parseBranchesFlag_body, token_entry.
  by destruct (Nat.eqb (length (strings_Split b "=")) 1).
Qed.

Lemma has_byte_delete_byte c s : has_byte c (delete_byte c s) = false.
Proof.
  induction s as [|a s IH]; [done|]. simpl.
  destruct (Ascii.eqb a c) eqn:E; [done|]. simpl. by rewrite E.
Qed.

Lemma strings_Join_Split_empty s sep :
  strings_Join (strings_Split s sep) "" = delete_byte sep s.
Proof.
  induction s as [|a s IH]; [done|]. simpl.
  pose proof (strings_Split_nonempty s sep) as Hne.
  destruct (Ascii.eqb a sep).
  - destruct (strings_Split s sep) as [|p ps]; [done|].
    rewrite strings_Join_cons, !string_app_nil by done. exact IH.
  - destruct (strings_Split s sep) as [|p ps]; [done|].
    rewrite <- IH. destruct ps as [|q ps]; [done|].
    by rewrite !strings_Join_cons, !string_app_nil, string_app_cons by done.
Qed.

Lemma token_entry_plain tok :
  has_byte "=" tok = false → token_entry tok = (tok, tok).
Proof.
  intros H. unfold token_entry. by rewrite (strings_Split_no_sep _ _ H).
Qed.

Lemma token_entry_pair name rest :
  has_byte "=" name = false →
  token_entry (name +:+ "=" +:+ rest) = (name, delete_byte "=" rest).
Proof.
  intros H. unfold token_entry.
  change (name +:+ "=" +:+ rest) with (name +:+ String "=" rest).
  rewrite (strings_Split_app _ _ _ H). cbn [hd tl].
  rewrite strings_Join_Split_empty.
  pose proof (strings_Split_nonempty rest "=").
  by destruct (strings_Split rest "=").
Qed.

Lemma token_entry_free tok :
  has_byte "=" (token_entry tok).1 = false ∧
  has_byte "=" (token_entry tok).2 = false.
Proof.
  destruct (has_byte "=" tok) eqn:H.
  - destruct (has_byte_decompose _ _ H) as (name & rest & -> & Hn).
    change (name +:+ String "=" rest) with (name +:+ "=" +:+ rest).
    rewrite token_entry_pair by done. simpl.
    split; [done|apply has_byte_delete_byte].
  - by rewrite token_entry_plain.
Qed.

Lemma parseBranchesFlag_lookup_snoc bs tok v :
  parseBranchesFlag (bs ++ [tok]) !! v
  = if decide ((token_entry tok).1 = v) then Some (token_entry tok).2
    else parseBranchesFlag bs !! v.
Proof.
  rewrite parseBranchesFlag_snoc, parseBranchesFlag_body_entry.
  case_decide as H.
  - by rewrite <- H, lookup_insert_eq.
  - by rewrite lookup_insert_ne.
Qed.

(** X4. The branch of a token [name=rest] is [rest] without its ['=']
    signs: the token writes [name -> rest] with every ['='] of [rest]
    taken out, whatever tokens came before it. *)
Theorem parseBranchesFlag_branch_drops_equals
    (bs : list string) (name rest : string) :
  has_byte "=" name = false →
  parseBranchesFlag (bs ++ [name +:+ "=" +:+ rest]) !! name
  = Some (delete_byte "=" rest).
Proof.
  intros H. rewrite parseBranchesFlag_lookup_snoc, token_entry_pair by done.
  simpl. by rewrite decide_True.
Qed.

Lemma parseBranchesFlag_branch_drops_equals_witness :
  parseBranchesFlag (["v0"] ++ ["v1" +:+ "=" +:+ "a==b=c"]) !! "v1"
  = Some "abc".
Proof.
  apply (parseBranchesFlag_branch_drops_equals ["v0"] "v1" "a==b=c").
  reflexivity.
Defined.

(** X5. No version name and no branch name that [parseBranchesFlag]
    returns has an ['='] in it. *)
Theorem parseBranchesFlag_no_equals_left (bs : list string) (v b : string) :
  parseBranchesFlag bs !! v = Some b →
  has_byte "=" v = false ∧ has_byte "=" b = false.
Proof.
  revert v b. induction bs as [|tok bs IH] using rev_ind; intros v b.
  - change (parseBranchesFlag []) with (∅ : gmap string string).
    by rewrite lookup_empty.
  - rewrite parseBranchesFlag_lookup_snoc.
    destruct (token_entry_free tok) as [H1 H2].
    case_decide as Hv; [|by apply IH].
    intros [= <-]. by rewrite <- Hv.
Qed.

Lemma parseBranchesFlag_no_equals_left_witness :
  has_byte "=" "v1" = false ∧ has_byte "=" "r1x" = false.
Proof.
  apply (parseBranchesFlag_no_equals_left ["v1=r=1=x"; "v2"] "v1" "r1x").
  reflexivity.
Defined.

(** X6. The versions of the map are the versions of the tokens, no more
    and no fewer: a version is a key of the map exactly when some token
    names it; so the map of no tokens is empty and a version that no token
    names is looked up in vain. *)
Theorem parseBranchesFlag_versions (bs : list string) (v : string) :
  is_Some (parseBranchesFlag bs !! v) ↔
  ∃ tok, tok ∈ bs ∧ (token_entry tok).1 = v.
Proof.
  induction bs as [|tok bs IH] using rev_ind.
  - change (parseBranchesFlag []) with (∅ : gmap string string).
    rewrite lookup_empty. split; [by intros [? ?]|].
    by intros (tok & Hin%elem_of_nil & _).
  - rewrite parseBranchesFlag_lookup_snoc. case_decide as Hv.
    + split; [|by eauto]. intros _. exists tok. split; [|done].
      apply elem_of_app. right. apply list_elem_of_here.
    + rewrite IH. split.
      * intros (t & Hin & Ht). exists t. split; [|done].
        apply elem_of_app. by left.
      * intros (t & Hin & Ht). apply elem_of_app in Hin as [Hin|Hin]; [by eauto|].
        apply list_elem_of_singleton in Hin as ->. done.
Qed.

Lemma parseBranchesFlag_versions_witness :
  is_Some (parseBranchesFlag ["v1=release-1"; "master"] !! "v1") ∧
  parseBranchesFlag ["v1=release-1"; "master"] !! "release-1" = None.
Proof.
  split.
  - apply (parseBranchesFlag_versions ["v1=release-1"; "master"] "v1").
    exists "v1=release-1". split; [apply list_elem_of_here|reflexivity].
  - apply eq_None_not_Some.
    intros (tok & Hin & Ht)%(parseBranchesFlag_versions
                               ["v1=release-1"; "master"] "release-1").
    apply elem_of_cons in Hin as [->|Hin]; [discriminate|].
    apply list_elem_of_singleton in Hin as ->. discriminate.
Defined.

(** X7. When two tokens name the same version the later one wins: the
    branch of a version is the branch of the last token that names it. *)
Theorem parseBranchesFlag_last_token_wins
    (bs1 bs2 : list string) (tok : string) :
  Forall (λ t, (token_entry t).1 ≠ (token_entry tok).1) bs2 →
  parseBranchesFlag (bs1 ++ tok :: bs2) !! (token_entry tok).1
  = Some (token_entry tok).2.
Proof.
  induction bs2 as [|t bs2 IH] using rev_ind; intros H.
  - rewrite parseBranchesFlag_lookup_snoc. by rewrite decide_True.
  - apply Forall_app in H as [H Ht]. apply (proj1 (Forall_singleton _ _)) in Ht.
    replace (bs1 ++ tok :: bs2 ++ [t]) with ((bs1 ++ tok :: bs2) ++ [t])
      by by rewrite <- app_assoc.
    rewrite parseBranchesFlag_lookup_snoc. case_decide; [done|]. by apply IH.
Qed.

Lemma parseBranchesFlag_last_token_wins_witness :
  parseBranchesFlag (["v1=old"; "v2=x"] ++ "v1=new" :: ["v3"]) !! "v1"
  = Some "new".
Proof.
  apply (parseBranchesFlag_last_token_wins ["v1=old"; "v2=x"] ["v3"] "v1=new").
  repeat constructor. discriminate.
Defined.

(** ** [copyFile] *)

Lemma no_file_aboveb_sound f p : no_file_aboveb f p = true → no_file_above f p.
Proof.
  unfold no_file_aboveb. rewrite forallb_forall. intros H q m c [r ->] Hq.
  specialize (H (length q)). rewrite take_app_length, Hq in H.
  discriminate H. apply in_seq. rewrite length_app. lia.
Qed.

(** X8. [copyFile] opens the source before it touches the destination: when
    the name of the source is empty, or is a clean name of which the path
    does not exist and does not run through a regular file, the call
    returns [ENOENT] and the destination is neither created nor truncated:
    the world is as it was. *)
Theorem copyFile_missing_source (E : Env) (src dst : string) (w : World) :
  src = "" ∨
  (clean_name src = true ∧
   fs w !! resolve (cwd E) src = None ∧
   no_file_above (fs w) (resolve (cwd E) src)) →
  copyFile E src dst w = (Err ENOENT, w).
Proof.
  intros H. unfold copyFile, os_Open, named, bind, get_fs, throw.
  destruct (String.eqb_spec src "") as [->|Hne]; [done|].
  destruct H as [?|(_ & -> & _)]; done.
Qed.

Lemma copyFile_missing_source_witness :
  copyFile demo_env "/src/content/gone.md" "/out/index.md" demo_world_copy
  = (Err ENOENT, demo_world_copy).
Proof.
  apply (copyFile_missing_source demo_env "/src/content/gone.md"
           "/out/index.md" demo_world_copy).
  right. split_and!; [reflexivity|reflexivity|].
  apply no_file_aboveb_sound. vm_compute. reflexivity.
Defined.

(** X9. The source and the destination are given by clean names.
    [copyFile] of a regular file onto a new name in a directory, or onto a
    regular file, returns without error; the destination is then a
    file with the contents and the permission bits of the source, nothing
    is left of what the destination held, and no other path has changed.
    The calls that write are one [os.Create] and one [os.Chmod] of the
    destination. *)
Theorem copyFile_copies_file
    (E : Env) (src dst : string) (w : World) (m : N) (c : string) :
  clean_name src = true → clean_name dst = true →
  src ≠ "" → dst ≠ "" →
  fs w !! resolve (cwd E) src = Some (File m c) →
  resolve (cwd E) src ≠ resolve (cwd E) dst →
  (∀ x, fs w !! resolve (cwd E) dst = Some x → is_dir x = false) →
  (fs w !! resolve (cwd E) dst = None →
   ∃ m', fs w !! removelast (resolve (cwd E) dst) = Some (Dir m')) →
  ∃ w', copyFile E src dst w = (Ok tt, w') ∧
        fs w' !! resolve (cwd E) dst = Some (File m c) ∧
        (∀ q, q ≠ resolve (cwd E) dst → fs w' !! q = fs w !! q) ∧
        trace w' = trace w ++ [EvCall "os.Create" [dst]; EvCall "os.Chmod" [dst]].
Proof.
  intros _ _ Hs Hd Hsrc Hne Hkind Hparent.
  destruct (copyFile_ok E src dst w m c Hs Hd Hsrc Hne Hkind Hparent)
    as (w' & Hrun & Hfs & Htr).
  exists w'. split_and!; [done| | |done].
  - by rewrite Hfs, lookup_insert_eq.
  - intros q Hq. by rewrite Hfs, lookup_insert_ne.
Qed.

Lemma copyFile_copies_file_witness :
  fs demo_world_copy !! ["out"; "index.md"] = Some (File 384 "stale") ∧
  ∃ w', copyFile demo_env "/src/content/index.md" "/out/index.md"
                 demo_world_copy = (Ok tt, w') ∧
        fs w' !! ["out"; "index.md"] = Some (File 420 "hello").
Proof.
  split; [reflexivity|].
  destruct (copyFile_copies_file demo_env "/src/content/index.md"
              "/out/index.md" demo_world_copy 420 "hello")
    as (w' & Hrun & Hdst & _).
  - reflexivity.
  - reflexivity.
  - discriminate.
  - discriminate.
  - reflexivity.
  - discriminate.
  - intros x Hx. vm_compute in Hx. by injection Hx as <-.
  - intros Hx. vm_compute in Hx. discriminate.
  - exists w'. split; [exact Hrun|exact Hdst].
Defined.

(** X10. Whatever [copyFile] returns, a result or an error of any of its
    calls, it has changed no path but its destination. *)
Theorem copyFile_changes_destination_only
    (E : Env) (src dst : string) (w : World) (q : list string) :
  q ≠ resolve (cwd E) dst →
  fs (copyFile E src dst w).2 !! q = fs w !! q.
Proof.
  intros Hq. revert q Hq. change (touches_only (λ q, q = resolve (cwd E) dst)
                                     (copyFile E src dst) w).
  unfold copyFile. apply touches_bind.
  { intros q _. by rewrite os_Open_world. }
  intros srcfd w0 Hopen.
  assert (w0 = w) as -> by (by rewrite <- (os_Open_world E src w), Hopen).
  apply touches_bind; [apply os_Create_touches|].
  intros dstfd w1 Hcreate.
  apply (proj2 (os_Create_touches E dst w)) in Hcreate as ->.
  apply touches_bind; [apply io_Copy_touches|].
  intros [] w2 _. apply touches_bind.
  { intros q _. by rewrite os_Stat_world. }
  intros info w3 _. apply os_Chmod_touches.
Qed.

Lemma copyFile_changes_destination_only_witness :
  fs (copyFile demo_env "/src/content/docs" "/out/index.md"
               demo_world_copy).2 !! ["out"; "notes.txt"]
  = fs demo_world_copy !! ["out"; "notes.txt"].
Proof.
  apply (copyFile_changes_destination_only demo_env "/src/content/docs"
           "/out/index.md" demo_world_copy ["out"; "notes.txt"]).
  discriminate.
Defined.

(** X11. [copyFile] of a file onto itself (two clean names of one path, one
    of them relative to the working directory say) returns without error
    and leaves the file empty: [os.Create] truncates the file before
    [io.Copy] reads it. The permission bits stay. *)
Theorem copyFile_onto_itself_empties_file
    (E : Env) (src dst : string) (w : World) (m : N) (c : string) :
  clean_name src = true → clean_name dst = true →
  src ≠ "" → dst ≠ "" →
  resolve (cwd E) src = resolve (cwd E) dst →
  fs w !! resolve (cwd E) src = Some (File m c) →
  ∃ w', copyFile E src dst w = (Ok tt, w') ∧
        fs w' = <[resolve (cwd E) src := File m ""]> (fs w).
Proof.
  intros _ _ Hs%String.eqb_neq Hd%String.eqb_neq Heq Hsrc.
  unfold copyFile, os_Open, os_Create, io_Copy, os_Stat, os_Chmod, named.
  rewrite Hs, Hd, <- Heq.
  unfold bind, emit, get_fs, put_fs, ret, throw. cbn [fs trace].
  repeat (first [rewrite Hsrc|rewrite lookup_insert_eq]; cbn [fs trace]).
  eexists. split; [reflexivity|]. cbn [fs chmod Mode info_of perm_of].
  by rewrite !insert_insert_eq.
Qed.

Lemma copyFile_onto_itself_empties_file_witness :
  fs demo_world_copy !! ["src"; "content"; "index.md"]
  = Some (File 420 "hello") ∧
  ∃ w', copyFile demo_env "/src/content/index.md" "src/content/index.md"
                 demo_world_copy = (Ok tt, w') ∧
        fs w' !! ["src"; "content"; "index.md"] = Some (File 420 "").
Proof.
  split; [reflexivity|].
  destruct (copyFile_onto_itself_empties_file demo_env
              "/src/content/index.md" "src/content/index.md"
              demo_world_copy 420 "hello") as (w' & Hrun & Hfs).
  - reflexivity.
  - reflexivity.
  - discriminate.
  - discriminate.
  - reflexivity.
  - reflexivity.
  - exists w'. split; [exact Hrun|].
    refine (eq_trans (f_equal (λ f, f !! _) Hfs) _). apply lookup_insert_eq.
Defined.

(** X12. The source and the destination are given by clean names.
    [copyFile] of a directory onto a new name in a directory returns
    [EISDIR], but only after [os.Create] has made the destination: a new,
    empty file is left there. *)
Theorem copyFile_of_directory_leaves_empty_file
    (E : Env) (src dst : string) (w : World) (m m' : N) :
  clean_name src = true → clean_name dst = true →
  src ≠ "" → dst ≠ "" →
  fs w !! resolve (cwd E) src = Some (Dir m) →
  fs w !! resolve (cwd E) dst = None →
  fs w !! removelast (resolve (cwd E) dst) = Some (Dir m') →
  ∃ w', copyFile E src dst w = (Err EISDIR, w') ∧
        fs w' = <[resolve (cwd E) dst
                  := File (N.ldiff perm_0666 (umask E)) ""]> (fs w).
Proof.
  intros _ _ Hs%String.eqb_neq Hd%String.eqb_neq Hsrc Hdst Hpar.
  assert (resolve (cwd E) dst ≠ resolve (cwd E) src) as Hne by congruence.
  unfold copyFile, os_Open, os_Create, io_Copy, named.
  rewrite Hs, Hd.
  unfold bind, emit, get_fs, put_fs, ret, throw. cbn [fs trace].
  repeat (first [rewrite Hsrc|rewrite Hdst|rewrite Hpar
                |rewrite lookup_insert_ne by done]; cbn [fs trace]).
  eexists. split; reflexivity.
Qed.

Lemma copyFile_of_directory_leaves_empty_file_witness :
  ∃ w', copyFile demo_env "/src/content/docs" "/out/docs.md" demo_world_copy
        = (Err EISDIR, w') ∧
        fs w' !! ["out"; "docs.md"] = Some (File 420 "").
Proof.
  destruct (copyFile_of_directory_leaves_empty_file demo_env
              "/src/content/docs" "/out/docs.md" demo_world_copy 511 493)
    as (w' & Hrun & Hfs).
  - reflexivity.
  - reflexivity.
  - discriminate.
  - discriminate.
  - reflexivity.
  - reflexivity.
  - reflexivity.
  - exists w'. split; [exact Hrun|].
    refine (eq_trans (f_equal (λ f, f !! _) Hfs) _). apply lookup_insert_eq.
Defined.

(** ** [copyDir] *)

(** X13. [copyDir] looks at the source first: when the name of the source
    is empty, or is a clean name of which the path does not exist and does
    not run through a regular file, the call returns [ENOENT] and nothing
    has been made at the destination: the world is as it was. *)
Theorem copyDir_missing_source
    (E : Env) (fuel : nat) (src dst : string) (w : World) :
  src = "" ∨
  (clean_name src = true ∧
   fs w !! resolve (cwd E) src = None ∧
   no_file_above (fs w) (resolve (cwd E) src)) →
  copyDir E (Datatypes.S fuel) src dst w = (Err ENOENT, w).
Proof.
  intros H. simpl. unfold bind at 1. unfold os_Stat, named, bind, get_fs, throw.
  destruct (String.eqb_spec src "") as [->|Hne]; [done|].
  destruct H as [?|(_ & -> & _)]; done.
Qed.

Lemma copyDir_missing_source_witness :
  copyDir demo_env 3 "/src/nothing" "/out" demo_world_copy
  = (Err ENOENT, demo_world_copy).
Proof.
  apply (copyDir_missing_source demo_env 2 "/src/nothing" "/out"
           demo_world_copy).
  right. split_and!; [reflexivity|reflexivity|].
  apply no_file_aboveb_sound. vm_compute. reflexivity.
Defined.

(** X14. The source and the destination are given by clean names.
    [copyDir] of a regular file, to a destination whose nearest existing
    ancestor is a directory, returns [ENOTDIR] from [ioutil.ReadDir], but
    only after [os.MkdirAll] has made the destination: the destination is
    a directory then, and nothing has changed but on the way to it. *)
Theorem copyDir_of_file_makes_destination
    (E : Env) (fuel : nat) (src dst : string) (w : World)
    (k : nat) (m : N) (c : string) :
  clean_name src = true → clean_name dst = true →
  src ≠ "" → dst ≠ "" →
  fs w !! resolve (cwd E) src = Some (File m c) →
  dst_ok (fs w) (resolve (cwd E) dst) k →
  ∃ w', copyDir E (Datatypes.S fuel) src dst w = (Err ENOTDIR, w') ∧
        (∃ m', fs w' !! resolve (cwd E) dst = Some (Dir m')) ∧
        (∀ p, ¬ p `prefix_of` resolve (cwd E) dst → fs w' !! p = fs w !! p).
Proof.
  intros _ _ Hs Hd Hsrc Hdst.
  destruct (mkdir_all_spec E _ (fs w) k m Hdst) as (f1 & Hmk & Hf1).
  assert (f1 !! resolve (cwd E) src = Some (File m c)) as Hsrc1.
  { rewrite Hf1, made_at_keep; [done|]. intros [r Hr].
    destruct Hdst as (Hk & [m' Hm'] & Hnone).
    destruct (decide (length (resolve (cwd E) src) ≤ k)%nat); [done|].
    specialize (Hnone (length (resolve (cwd E) src))).
    rewrite Hr, take_app_length, Hsrc in Hnone.
    rewrite length_app in Hnone. discriminate Hnone. lia. }
  simpl. unfold bind at 1. rewrite (os_Stat_ok E src w _ Hs Hsrc).
  unfold bind at 1. rewrite os_MkdirAll_run by done.
  cbn [Mode info_of perm_of]. rewrite Hmk.
  unfold bind at 1. unfold ioutil_ReadDir. rewrite named_run by done.
  unfold bind, get_fs, throw. cbn [fs]. rewrite Hsrc1.
  eexists. split; [reflexivity|]. cbn [fs]. split.
  - rewrite Hf1. by apply made_at_D.
  - intros p Hp. rewrite Hf1. by apply made_at_off.
Qed.

Lemma copyDir_of_file_makes_destination_witness :
  fs demo_world_copy !! ["out"; "page"] = None ∧
  ∃ w', copyDir demo_env 3 "/src/content/index.md" "/out/page" demo_world_copy
        = (Err ENOTDIR, w') ∧
        ∃ m', fs w' !! ["out"; "page"] = Some (Dir m').
Proof.
  split; [reflexivity|].
  destruct (copyDir_of_file_makes_destination demo_env 2
              "/src/content/index.md" "/out/page" demo_world_copy 1 420 "hello")
    as (w' & Hrun & Hdir & _).
  - reflexivity.
  - reflexivity.
  - discriminate.
  - discriminate.
  - reflexivity.
  - split_and!; [simpl; lia|by eexists|].
    intros j Hj. simpl in Hj. assert (j = 2)%nat as -> by lia. reflexivity.
  - exists w'. split; [exact Hrun|exact Hdir].
Defined.

(** X15. The source and the destination are given by clean names. Whatever
    [copyDir] returns, a result or the error of any of its calls, and
    however far it got: when the source is a tree of directories and
    regular files and neither the source nor the destination lies in the
    other, the copy has changed nothing but below the destination and on
    the way to it; the source tree in particular is as it was. *)
Theorem copyDir_changes_destination_only
    (E : Env) (fuel : nat) (src dst : string) (w : World) :
  let S := resolve (cwd E) src in
  let D := resolve (cwd E) dst in
  clean_name src = true → clean_name dst = true →
  tree_ok (fs w) S → ¬ S `prefix_of` D → ¬ D `prefix_of` S →
  (∀ q, ¬ D `prefix_of` q → ¬ q `prefix_of` D →
        fs (copyDir E fuel src dst w).2 !! q = fs w !! q) ∧
  (∀ r, fs (copyDir E fuel src dst w).2 !! (S ++ r) = fs w !! (S ++ r)).
Proof.
  intros S D _ _ Hok Hap1 Hap2.
  pose proof (copyDir_touches E fuel src dst w Hok Hap1 Hap2) as Hkeep.
  fold S D in Hkeep. split.
  - intros q H1 H2. apply Hkeep. unfold around. tauto.
  - intros r. apply Hkeep. intros [Hp|Hp].
    + apply (apart_app D S [] r Hap2 Hap1). by rewrite app_nil_r.
    + apply (apart_app S D r [] Hap1 Hap2). by rewrite app_nil_r.
Qed.

Lemma copyDir_changes_destination_only_witness :
  (copyDir demo_env 3 "/src/content" "/out" demo_world_clash).1 = Err ENOTDIR ∧
  fs (copyDir demo_env 3 "/src/content" "/out" demo_world_clash).2
    !! (["src"; "content"] ++ ["docs"; "a.md"])
  = Some (File 384 "aaa").
Proof.
  split; [vm_compute; reflexivity|].
  refine (eq_trans (proj2 (copyDir_changes_destination_only demo_env 3
                             "/src/content" "/out" demo_world_clash
                             _ _ _ _ _)
                          ["docs"; "a.md"]) _).
  - reflexivity.
  - reflexivity.
  - apply tree_okb_sound. vm_compute. reflexivity.
  - by_decision.
  - by_decision.
  - reflexivity.
Defined.

(** X16. A second copy changes nothing: after [copyDir] has copied a tree
    (source and destination given by clean names, under the conditions
    under which it is sure to return without error), the same call returns
    without error again and leaves every path as the first call left
    it. *)
Theorem copyDir_again_changes_nothing
    (E : Env) (src dst : string) (w : World) (k : nat) (mS : N) :
  let S := resolve (cwd E) src in
  let D := resolve (cwd E) dst in
  clean_name src = true → clean_name dst = true →
  src ≠ "" → dst ≠ "" →
  fs w !! S = Some (Dir mS) →
  tree_ok (fs w) S →
  ¬ S `prefix_of` D → ¬ D `prefix_of` S →
  compatible (fs w) S D →
  dst_ok (fs w) D k →
  ∃ fuel0, ∀ fuel, (fuel0 ≤ fuel)%nat →
    ∃ w1 w2, copyDir E fuel src dst w = (Ok tt, w1) ∧
             copyDir E fuel src dst w1 = (Ok tt, w2) ∧
             fs w2 = fs w1.
Proof.
  intros S D _ _ Hns Hnd HS Hok Hap1 Hap2 Hcompat Hdst.
  destruct (copyDir_runs E src dst w k mS Hns Hnd HS Hok Hap1 Hap2 Hcompat Hdst)
    as [fuel0 Hrun].
  exists fuel0. intros fuel Hfuel.
  destruct (Hrun fuel Hfuel) as (Hfits & w1 & Hcopy & Hin & Hout & _).
  fold S D in Hin, Hout, Hfits.
  assert (∀ r, fs w1 !! (S ++ r) = fs w !! (S ++ r)) as Hsrc.
  { intros r. rewrite Hout.
    - apply made_at_off. rewrite <- (app_nil_r D). by apply apart_app.
    - rewrite <- (app_nil_r D). by apply apart_app. }
  assert (∀ r x, fs w !! (S ++ r) = Some x →
                 ∃ y, fs w1 !! (D ++ r) = Some y ∧ is_dir y = is_dir x) as Hdone.
  { intros r x Hx. rewrite Hin. unfold copied_at. rewrite Hx.
    destruct x as [m c|m]; [by eauto|].
    destruct (fs w !! (D ++ r)) as [y|] eqn:Hy; [|by eauto].
    exists y. split; [done|]. symmetry. by apply (Hcompat r). }
  destruct (copyDir_copies_tree E fuel src dst w1 (length D) mS)
    as (w2 & Hcopy2 & Hin2 & Hout2 & _).
  { unfold copy_pre. fold S D. split_and!; [| | |done|done| | |done|done].
    - rewrite <- (app_nil_r S), Hsrc, app_nil_r. done.
    - intros r n x. rewrite !Hsrc. apply Hok.
    - intros r. rewrite Hsrc. apply Hfits.
    - intros r x y. rewrite Hsrc. intros Hx Hy.
      destruct (Hdone r x Hx) as (y' & Hy' & Hd). congruence.
    - split_and!; [done| |intros j Hj; lia].
      rewrite firstn_all.
      destruct (Hdone [] (Dir mS)) as (y & Hy & Hd); [by rewrite app_nil_r|].
      rewrite app_nil_r in Hy. destruct y; [done|by eauto]. }
  fold S D in Hin2, Hout2.
  exists w1, w2. split_and!; [done..|]. apply map_eq. intros p.
  destruct (decide (D `prefix_of` p)) as [[r ->]|Hp].
  - rewrite Hin2. unfold copied_at. rewrite Hsrc.
    destruct (fs w !! (S ++ r)) as [x|] eqn:Hx; [|done].
    destruct (Hdone r x Hx) as (y & Hy & Hd). rewrite Hy.
    destruct x as [m c|m]; [|done].
    rewrite Hin in Hy. unfold copied_at in Hy. by rewrite Hx in Hy.
  - rewrite Hout2 by done. apply made_at_keep. by intros ?%prefix_length.
Qed.

Lemma copyDir_again_changes_nothing_witness :
  ∃ fuel0, ∀ fuel, (fuel0 ≤ fuel)%nat →
    ∃ w1 w2, copyDir demo_env fuel "/src/content" "/out" demo_world_copy
             = (Ok tt, w1) ∧
             copyDir demo_env fuel "/src/content" "/out" w1 = (Ok tt, w2) ∧
             fs w2 = fs w1.
Proof.
  apply (copyDir_again_changes_nothing demo_env "/src/content" "/out"
           demo_world_copy 1 493).
  - reflexivity.
  - reflexivity.
  - discriminate.
  - discriminate.
  - reflexivity.
  - exact demo_copy_tree_ok.
  - by_decision.
  - by_decision.
  - exact demo_copy_compatible_out.
  - exact demo_copy_dst_ok_out.
Defined.

(** X24. What [copyDir] does for a tree. The source and the destination
    are given by clean names. A source directory whose tree holds
    directories and regular files, and a destination that is not in the
    source tree nor around it, that holds a directory wherever it has a
    node where the source has a directory, and a file wherever it has a
    node where the source has a file, and whose nearest existing ancestor
    is a directory: with enough fuel [copyDir] returns without error, and
    then every file of the source is at the same place below the
    destination with the same contents and permission bits; every
    directory of the source is a directory there, the one that was there
    or a new one whose permission bits are those of the source less the
    bits of the umask (the same bits when the umask shares none with
    them); nothing else is new below the destination; and the directories
    and files the copy asks the file system for are, in the order of the
    calls, the nodes of the source tree in depth-first pre-order (the
    entries of a directory by name), each at its place below the
    destination. *)
Theorem copyDir_reproduces_tree
    (E : Env) (src dst : string) (w : World) (k : nat) (mS : N) :
  let S := resolve (cwd E) src in
  let D := resolve (cwd E) dst in
  clean_name src = true → clean_name dst = true →
  src ≠ "" → dst ≠ "" →
  fs w !! S = Some (Dir mS) →
  tree_ok (fs w) S →
  ¬ S `prefix_of` D → ¬ D `prefix_of` S →
  compatible (fs w) S D →
  dst_ok (fs w) D k →
  ∃ fuel0, ∀ fuel, (fuel0 ≤ fuel)%nat →
    ∃ w', copyDir E fuel src dst w = (Ok tt, w') ∧
      (∀ r m c, fs w !! (S ++ r) = Some (File m c) →
                fs w' !! (D ++ r) = Some (File m c)) ∧
      (∀ r m, fs w !! (S ++ r) = Some (Dir m) →
              fs w' !! (D ++ r)
              = Some (match fs w !! (D ++ r) with
                      | Some x => x
                      | None => Dir (N.ldiff m (umask E))
                      end)) ∧
      (∀ r m, fs w !! (S ++ r) = Some (Dir m) → fs w !! (D ++ r) = None →
              N.land m (umask E) = 0%N →
              fs w' !! (D ++ r) = Some (Dir m)) ∧
      (∀ r, fs w !! (S ++ r) = None → fs w' !! (D ++ r) = fs w !! (D ++ r)) ∧
      ∃ t, trace w' = trace w ++ t ∧
           written E t = moved_to D (tree_preorder (fs w) S).
Proof.
  intros S D _ _ Hns Hnd HS Hok Hap1 Hap2 Hcompat Hdst.
  destruct (copyDir_runs E src dst w k mS Hns Hnd HS Hok Hap1 Hap2 Hcompat Hdst)
    as [fuel0 Hrun].
  exists fuel0. intros fuel Hfuel.
  destruct (Hrun fuel Hfuel) as (Hfits & w' & Hcopy & Hin & _ & t & Htr & Hwr).
  exists w'. split; [done|]. fold S D in Hin, Hwr, Hfits.
  split_and!.
  5:{ exists t. split; [done|]. by rewrite Hwr, preorder_whole. }
  - intros r m c Hr. rewrite Hin. unfold copied_at. by rewrite Hr.
  - intros r m Hr. rewrite Hin. unfold copied_at. by rewrite Hr.
  - intros r m Hr Hd Hm. rewrite Hin. unfold copied_at, masked.
    rewrite Hr, Hd. do 2 f_equal.
    pose proof (N.lor_ldiff_and m (umask E)) as Hlor.
    by rewrite Hm, N.lor_0_r in Hlor.
  - intros r Hr. rewrite Hin. unfold copied_at. by rewrite Hr.
Qed.

Lemma copyDir_reproduces_tree_witness :
  ∃ fuel0, ∀ fuel, (fuel0 ≤ fuel)%nat →
    ∃ w', copyDir demo_env fuel "/src/content" "/new/place" demo_world_copy
          = (Ok tt, w') ∧
          fs w' !! ["new"; "place"; "docs"; "a.md"] = Some (File 384 "aaa") ∧
          fs w' !! ["new"; "place"; "index.md"] = Some (File 420 "hello") ∧
          fs w' !! ["new"; "place"; "docs"] = Some (Dir (N.ldiff 511 18)) ∧
          fs w' !! ["new"; "place"] = Some (Dir 493) ∧
          fs w' !! ["new"; "place"; "notes.txt"] = None ∧
          ∃ t, trace w' = trace demo_world_copy ++ t ∧
               written demo_env t
               = [(["new"; "place"], true);
                  (["new"; "place"; "docs"], true);
                  (["new"; "place"; "docs"; "a.md"], false);
                  (["new"; "place"; "index.md"], false)].
Proof.
  destruct (copyDir_reproduces_tree demo_env "/src/content" "/new/place"
              demo_world_copy 0 493) as [fuel0 H].
  - reflexivity.
  - reflexivity.
  - discriminate.
  - discriminate.
  - reflexivity.
  - exact demo_copy_tree_ok.
  - by_decision.
  - by_decision.
  - exact demo_copy_compatible_new.
  - exact demo_copy_dst_ok_new.
  - exists fuel0. intros fuel Hfuel.
    destruct (H fuel Hfuel)
      as (w' & Hrun & Hfiles & Hdirs & Hexact & Hrest & t & Htr & Hwr).
    exists w'. split; [exact Hrun|]. split_and!.
    6:{ exists t. split; [exact Htr|].
        refine (eq_trans Hwr _). vm_compute. reflexivity. }
    + apply (Hfiles ["docs"; "a.md"]). reflexivity.
    + apply (Hfiles ["index.md"]). reflexivity.
    + apply (Hdirs ["docs"] 511%N). reflexivity.
    + apply (Hexact [] 493%N); reflexivity.
    + refine (eq_trans (Hrest ["notes.txt"] _) _); reflexivity.
Defined.

(** ** [cleanup] and the ways out of [run] *)

(** X17. [cleanup] has no error to return: it returns normally for every
    directory name, and changes no path that is not at or below that
    directory. With [--debug] it changes nothing at all. When
    [os.RemoveAll] refuses the name (a name that ends in a dot), the
    refusal is logged as an error and nothing is removed. *)
Theorem cleanup_returns_and_keeps_the_rest
    (E : Env) (cfg : Config) (kv : list (string * string)) (dir : string)
    (w : World) :
  ∃ w', cleanup E cfg kv dir w = (Ok tt, w') ∧
        (∀ p, ¬ resolve (cwd E) dir `prefix_of` p → fs w' !! p = fs w !! p) ∧
        (debug cfg = true → fs w' = fs w) ∧
        (debug cfg = false → dir ≠ "" → endsWithDot dir = true →
         fs w' = fs w ∧
         trace w' = trace w ++
           [EvCall "os.RemoveAll" [dir];
            EvLog true (kv ++ [("directory", dir)])
                  "Failed to cleanup temporary directory"]).
Proof.
  unfold cleanup. destruct (debug cfg).
  { eexists. split; [reflexivity|]. by split_and!. }
  unfold os_RemoveAll, bind, emit, get_fs, put_fs, ret, throw, log_Error,
    log_Info. cbn [fs trace].
  destruct (String.eqb_spec dir "") as [->|Hne].
  { eexists. split; [reflexivity|]. by split_and!. }
  destruct (endsWithDot dir).
  { eexists. split; [reflexivity|]. cbn [fs trace]. split_and!; [done..|].
    intros _ _ _. split; [done|]. by rewrite <- app_assoc. }
  eexists. split; [reflexivity|]. cbn [fs trace]. split_and!; [|done..].
  intros p Hp. destruct (fs w !! p) as [n|] eqn:Hn.
  - apply map_lookup_filter_Some. by split.
  - apply map_lookup_filter_None. by left.
Qed.

Lemma cleanup_returns_and_keeps_the_rest_witness :
  ∃ w', cleanup demo_env demo_cfg [] "/src/." demo_world_copy = (Ok tt, w') ∧
        fs w' = fs demo_world_copy ∧
        trace w' = [EvCall "os.RemoveAll" ["/src/."];
                    EvLog true [("directory", "/src/.")]
                          "Failed to cleanup temporary directory"].
Proof.
  destruct (cleanup_returns_and_keeps_the_rest demo_env demo_cfg []
              "/src/." demo_world_copy) as (w' & Hrun & _ & _ & Hdot).
  exists w'. split; [exact Hrun|].
  apply Hdot; [reflexivity|discriminate|reflexivity].
Defined.

(** X18. When the output directory cannot be made, [run] logs "Error
    creating output directory" and returns the error of [os.MkdirAll]: no
    command has been run, and the workspace is cleaned up as on every
    other way out, everything outside it staying as [os.MkdirAll] left
    it. *)
Theorem run_output_directory_error
    (E : Env) (cfg : Config) (fuel : nat) (w w1 w2 : World)
    (tmpdir : string) (e : error) :
  latestBranch cfg ≠ "" ∨ branches cfg ≠ [] →
  ioutil_TempDir E "" "hugo-multiversion-" w = (Ok tmpdir, w1) →
  os_MkdirAll E (outputDir cfg) perm_0755 w1 = (Err e, w2) →
  ∃ w3, run E cfg fuel w = (Err e, w3) ∧
        trace w3 = trace w2 ++
                   [EvLog false [] "Error creating output directory"] ++
                   cleanup_events cfg tmpdir ∧
        commands_run (trace w3) = commands_run (trace w) ∧
        (∀ p, ¬ resolve (cwd E) tmpdir `prefix_of` p →
              fs w3 !! p = fs w2 !! p) ∧
        (debug cfg = false →
         ∀ p, resolve (cwd E) tmpdir `prefix_of` p → fs w3 !! p = None).
Proof.
  intros Hn Ht Hmk.
  assert (run_body E cfg fuel tmpdir w1
          = (Err e, mkWorld (fs w2)
                      (trace w2 ++ [EvLog false [] "Error creating output directory"])))
    as Hbody.
  { unfold run_body. unfold bind at 1. by rewrite Hmk. }
  pose proof (run_defer _ _ _ _ _ _ _ _ Hn Ht Hbody ltac:(done)) as Hrun.
  destruct (quiet_os_MkdirAll E (outputDir cfg) perm_0755 w1) as (t1 & Ht1 & Hq1).
  rewrite Hmk in Ht1. simpl in Ht1.
  apply ioutil_TempDir_name in Ht as (-> & t0 & Ht0 & Hq0).
  destruct (cleanup_workspace E cfg
              (mkWorld (fs w2)
                 (trace w2 ++ [EvLog false [] "Error creating output directory"])))
    as (w3 & Hc & Htr & Hfs).
  rewrite Hc in Hrun. simpl in Hrun, Htr.
  exists w3. split_and!; [done|by rewrite Htr, <- app_assoc| | |].
  - rewrite Htr, Ht1, Ht0, !commands_run_app.
    destruct (fs_calls_read _ Hq0) as (_ & _ & ->).
    destruct (fs_calls_read _ Hq1) as (_ & _ & ->).
    destruct (cleanup_events_read cfg (workspace E)) as (_ & _ & ->).
    simpl. by rewrite !app_nil_r.
  - intros p Hp. destruct (debug cfg); [by rewrite Hfs|]. by apply Hfs.
  - intros Hd. rewrite Hd in Hfs. apply Hfs.
Qed.

Lemma run_output_directory_error_witness :
  ∃ w3, run demo_env demo_cfg 5 demo_world_blocked = (Err ENOTDIR, w3) ∧
        commands_run (trace w3) = [] ∧
        fs w3 !! ["out"] = Some (File 420 "in the way") ∧
        fs w3 !! resolve (cwd demo_env) (workspace demo_env) = None.
Proof.
  destruct (run_output_directory_error demo_env demo_cfg 5 demo_world_blocked
              (ioutil_TempDir demo_env "" "hugo-multiversion-"
                              demo_world_blocked).2
              (os_MkdirAll demo_env (outputDir demo_cfg) perm_0755
                 (ioutil_TempDir demo_env "" "hugo-multiversion-"
                                 demo_world_blocked).2).2
              (workspace demo_env) ENOTDIR)
    as (w3 & Hrun & _ & Hcmd & Hkeep & Hgone).
  - left. discriminate.
  - vm_compute. reflexivity.
  - vm_compute. reflexivity.
  - exists w3. split; [exact Hrun|]. split_and!.
    + exact Hcmd.
    + refine (eq_trans (Hkeep ["out"] _) _); [by_decision|vm_compute; reflexivity].
    + apply Hgone; reflexivity.
Defined.

(** X19. When the directory for temporary files is missing or is not a
    directory, [run] returns the error of [ioutil.TempDir] at once: the
    file system is untouched, no output directory is made, no command is
    run, and there is no cleanup, as there is no workspace. *)
Theorem run_workspace_error
    (E : Env) (cfg : Config) (fuel : nat) (w : World) :
  latestBranch cfg ≠ "" ∨ branches cfg ≠ [] →
  (∀ m, fs w !! resolve (cwd E) (os_TempDir E) ≠ Some (Dir m)) →
  ∃ e, run E cfg fuel w
       = (Err e, mkWorld (fs w) (trace w ++ [EvCall "os.Mkdir" [workspace E]])).
Proof.
  intros Hn Htmp. rewrite run_not_idle, ioutil_TempDir_workspace by done.
  destruct (workspace_removable E) as [Hne _].
  unfold bind at 1. unfold bind at 1.
  unfold os_Mkdir. unfold bind at 1. unfold emit. rewrite named_run by done.
  unfold lift_fs, bind, get_fs, put_fs, throw. cbn [fs trace].
  unfold workspace at 1 2 3, filepath_Join.
  rewrite resolve_Join_entry by apply workspace_name_plain.
  unfold mkdir. rewrite removelast_last.
  destruct (resolve (cwd E) (os_TempDir E) ++ _) as [|a p] eqn:Hp.
  { by destruct (resolve (cwd E) (os_TempDir E)). }
  rewrite <- Hp.
  destruct (fs w !! (resolve (cwd E) (os_TempDir E) ++ _)); [by eauto|].
  destruct (fs w !! resolve (cwd E) (os_TempDir E)) as [[m c|m]|] eqn:Hd;
    [by eauto| |by eauto].
  by destruct (Htmp m).
Qed.

Lemma run_workspace_error_witness :
  ∃ e, run demo_env demo_cfg 5 demo_world_no_tmp
       = (Err e, mkWorld (fs demo_world_no_tmp)
                   [EvCall "os.Mkdir" [workspace demo_env]]).
Proof.
  apply (run_workspace_error demo_env demo_cfg 5 demo_world_no_tmp).
  - left. discriminate.
  - intros m. discriminate.
Defined.

(** ** What a call that returned has done *)

Lemma bind_Ok_inv {A B} (m : M A) (k : A → M B) w b w' :
  bind m k w = (Ok b, w') → ∃ a w1, m w = (Ok a, w1) ∧ k a w1 = (Ok b, w').
Proof. unfold bind. destruct (m w) as [[a|e|] w1]; [by eauto|done..]. Qed.

Lemma os_Stat_inv E name w info w' :
  os_Stat E name w = (Ok info, w') →
  w' = w ∧ ∃ n, fs w !! resolve (cwd E) name = Some n ∧
                info = info_of (basename name) n.
Proof.
  unfold os_Stat, named. destruct (String.eqb name ""); [done|].
  unfold bind, get_fs, ret, throw.
  destruct (fs w !! resolve (cwd E) name) as [n|]; [|done].
  intros [= <- <-]. eauto.
Qed.

Lemma os_Open_inv E name w fd w' :
  os_Open E name w = (Ok fd, w') → w' = w ∧ fd = resolve (cwd E) name.
Proof.
  unfold os_Open, named. destruct (String.eqb name ""); [done|].
  unfold bind, get_fs, ret, throw.
  destruct (fs w !! resolve (cwd E) name) as [n|]; [|done].
  by intros [= <- <-].
Qed.

Lemma os_Create_inv E name w fd w' :
  os_Create E name w = (Ok fd, w') →
  fd = resolve (cwd E) name ∧
  ∃ m0, fs w' = <[resolve (cwd E) name := File m0 ""]> (fs w).
Proof.
  unfold os_Create, named, bind, emit, get_fs, put_fs, ret, throw.
  destruct (String.eqb name ""); [done|]. cbn [fs trace].
  destruct (fs w !! resolve (cwd E) name) as [[m c|m]|].
  - intros [= <- <-]. eauto.
  - done.
  - destruct (fs w !! removelast (resolve (cwd E) name)) as [[m c|m]|];
      [done| |done].
    intros [= <- <-]. eauto.
Qed.

Lemma io_Copy_inv dstfd srcfd w w' :
  io_Copy dstfd srcfd w = (Ok tt, w') →
  ∃ m c m1 old, fs w !! srcfd = Some (File m c) ∧
                fs w !! dstfd = Some (File m1 old) ∧
                fs w' = <[dstfd := File m1 (write_at_start c old)]> (fs w).
Proof.
  unfold io_Copy, bind, get_fs, put_fs, throw.
  destruct (fs w !! srcfd) as [[m c|m]|]; [|done..].
  destruct (fs w !! dstfd) as [[m1 old|m1]|]; [|done..].
  intros [= <-]. by exists m, c, m1, old.
Qed.

Lemma os_Chmod_inv E name mode w w' :
  os_Chmod E name mode w = (Ok tt, w') →
  ∃ n, fs w !! resolve (cwd E) name = Some n ∧
       fs w' = <[resolve (cwd E) name := chmod n mode]> (fs w).
Proof.
  unfold os_Chmod, named, bind, emit, get_fs, put_fs, throw.
  destruct (String.eqb name ""); [done|]. cbn [fs trace].
  destruct (fs w !! resolve (cwd E) name) as [n|]; [|done].
  intros [= <-]. eauto.
Qed.

Lemma ioutil_ReadDir_dir E name w fds w' :
  ioutil_ReadDir E name w = (Ok fds, w') →
  ∃ m, fs w !! resolve (cwd E) name = Some (Dir m).
Proof.
  unfold ioutil_ReadDir, named. destruct (String.eqb name ""); [done|].
  unfold bind, get_fs, ret, throw.
  destruct (fs w !! resolve (cwd E) name) as [[m c|m]|]; [done|by eauto|done].
Qed.

(** A [copyFile] that has returned without error has copied a file. *)
Lemma copyFile_Ok_inv E src dst w w' x :
  copyFile E src dst w = (Ok tt, w') →
  fs w !! resolve (cwd E) src = Some x →
  resolve (cwd E) src ≠ resolve (cwd E) dst →
  ∃ m c, x = File m c ∧ fs w' !! resolve (cwd E) dst = Some (File m c).
Proof.
  intros H Hx Hne. unfold copyFile in H.
  set (S := resolve (cwd E) src) in *. set (D := resolve (cwd E) dst) in *.
  apply bind_Ok_inv in H as (srcfd & w0 & [-> ->]%os_Open_inv & H).
  apply bind_Ok_inv in H as (dstfd & w1 & [-> [m0 H1]]%os_Create_inv & H).
  apply bind_Ok_inv in H as ([] & w2 & Hcopy & H).
  apply io_Copy_inv in Hcopy as (m & c & m1 & old & Hs & Hd & H2).
  fold S D in H1, Hs, Hd, H2.
  rewrite H1, lookup_insert_ne, Hx in Hs by done. injection Hs as ->.
  rewrite H1, lookup_insert_eq in Hd. injection Hd as <- <-.
  apply bind_Ok_inv in H as (info & w3 & [-> (n & Hn & ->)]%os_Stat_inv & H).
  fold S in Hn. rewrite H2, lookup_insert_ne, H1, lookup_insert_ne, Hx in Hn
    by done.
  injection Hn as <-.
  apply os_Chmod_inv in H as (n & Hn & H3). fold D in Hn, H3.
  rewrite H2, lookup_insert_eq in Hn. injection Hn as <-.
  exists m, c. split; [done|].
  rewrite H3, lookup_insert_eq. cbn [chmod Mode info_of perm_of].
  by rewrite write_at_start_empty.
Qed.

Lemma tree_ok_entry_exists f S n r y :
  tree_ok f S → f !! (S ++ n :: r) = Some y → ∃ x, f !! (S ++ [n]) = Some x.
Proof.
  intros Hok. revert y.
  induction r as [|a r IH] using rev_ind; intros y Hy; [by eauto|].
  destruct (Hok (n :: r) a y Hy) as (_ & m & Hm). eauto.
Qed.

(** One entry of the loop of [copyDir] touches what is below the entry of
    the destination, and what is on the way to the destination. *)
Lemma copyDir_entry_touches E fuel src dst n x w :
  plain n = true →
  tree_ok (fs w) (resolve (cwd E) src) →
  ¬ resolve (cwd E) src `prefix_of` resolve (cwd E) dst →
  ¬ resolve (cwd E) dst `prefix_of` resolve (cwd E) src →
  touches_only (λ q, resolve (cwd E) dst ++ [n] `prefix_of` q ∨
                     q `prefix_of` resolve (cwd E) dst)
               (copyDir_entry E (copyDir E fuel) src dst (info_of n x)) w.
Proof.
  intros Hplain Hok Hap1 Hap2. unfold copyDir_entry. cbn [Name IsDir info_of].
  destruct (is_dir x).
  - eapply touches_weaken; [|apply copyDir_touches].
    + intros q. rewrite resolve_Join_entry by done.
      intros [Hq|[->|Hq]%prefix_snoc_inv]; [by left|by left|by right].
    + rewrite resolve_Join_entry by done. by apply tree_ok_entry.
    + rewrite !resolve_Join_entry by done. by apply apart_app.
    + rewrite !resolve_Join_entry by done. by apply apart_app.
  - eapply touches_weaken; [|apply copyFile_touches].
    intros q ->. rewrite resolve_Join_entry by done. by left.
Qed.

Section copy_ok.
Context (E : Env) (fuel : nat).
Context (Hrec : ∀ src dst w w',
  copyDir E fuel src dst w = (Ok tt, w') →
  tree_ok (fs w) (resolve (cwd E) src) →
  ¬ resolve (cwd E) src `prefix_of` resolve (cwd E) dst →
  ¬ resolve (cwd E) dst `prefix_of` resolve (cwd E) src →
  ∀ r m c, fs w !! (resolve (cwd E) src ++ r) = Some (File m c) →
           fs w' !! (resolve (cwd E) dst ++ r) = Some (File m c)).
Context (src dst : string) (f0 : gmap (list string) node).

Local Abbreviation S := (resolve (cwd E) src).
Local Abbreviation D := (resolve (cwd E) dst).

Context (Hok : tree_ok f0 S).
Context (Hap1 : ¬ S `prefix_of` D) (Hap2 : ¬ D `prefix_of` S).

Lemma entries_touch fds : ∀ w,
  (∀ r, fs w !! (S ++ r) = f0 !! (S ++ r)) →
  (∀ fd, fd ∈ fds →
     ∃ x, f0 !! (S ++ [Name fd]) = Some x ∧ fd = info_of (Name fd) x) →
  touches_only (λ q, q `prefix_of` D ∨
                     ∃ fd, fd ∈ fds ∧ D ++ [Name fd] `prefix_of` q)
               (for_each fds (copyDir_entry E (copyDir E fuel) src dst)) w.
Proof.
  intros w Hw Hfds.
  apply (for_each_touches _ _ (λ w', ∀ r, fs w' !! (S ++ r) = f0 !! (S ++ r)));
    [|done].
  intros fd w1 Hfd Hw1. destruct (Hfds fd Hfd) as (x & Hx & Hinfo).
  destruct (Hok [] (Name fd) x Hx) as [Hplain _].
  assert (tree_ok (fs w1) S) as Hok1.
  { intros r z y. rewrite !Hw1. apply Hok. }
  pose proof (copyDir_entry_touches E fuel src dst (Name fd) x w1
                Hplain Hok1 Hap1 Hap2) as Htouch.
  rewrite <- Hinfo in Htouch. split.
  - eapply touches_weaken; [|exact Htouch].
    intros q [Hq|Hq]; [right; by eauto|by left].
  - intros r. rewrite <- Hw1. apply Htouch. intros [Hq|Hq].
    + by apply (apart_app D S [Name fd] r Hap2 Hap1).
    + apply (apart_app S D r [] Hap1 Hap2). by rewrite app_nil_r.
Qed.

Lemma entries_Ok_files fds : ∀ w w',
  for_each fds (copyDir_entry E (copyDir E fuel) src dst) w = (Ok tt, w') →
  (∀ r, fs w !! (S ++ r) = f0 !! (S ++ r)) →
  NoDup (Name <$> fds) →
  (∀ fd, fd ∈ fds →
     ∃ x, f0 !! (S ++ [Name fd]) = Some x ∧ fd = info_of (Name fd) x) →
  ∀ fd r m c, fd ∈ fds → f0 !! (S ++ Name fd :: r) = Some (File m c) →
              fs w' !! (D ++ Name fd :: r) = Some (File m c).
Proof.
  induction fds as [|a fds IH]; intros w w' Hrun Hw Hnd Hfds fd r m c Hfd Hfile.
  { by apply elem_of_nil in Hfd. }
  simpl in Hrun. apply bind_Ok_inv in Hrun as ([] & w1 & Hbody & Hrest).
  rewrite fmap_cons in Hnd. apply NoDup_cons in Hnd as [Ha Hnd].
  destruct (Hfds a ltac:(left)) as (x & Hx & Hinfo).
  destruct (Hok [] (Name a) x Hx) as [Hplain _].
  assert (tree_ok (fs w) S) as Hokw.
  { intros r0 z y. rewrite !Hw. apply Hok. }
  pose proof (copyDir_entry_touches E fuel src dst (Name a) x w
                Hplain Hokw Hap1 Hap2) as Htouch.
  unfold touches_only in Htouch. rewrite <- Hinfo, Hbody in Htouch.
  simpl in Htouch.
  assert (∀ r0, fs w1 !! (S ++ r0) = f0 !! (S ++ r0)) as Hw1.
  { intros r0. rewrite <- Hw. apply Htouch. intros [Hq|Hq].
    - by apply (apart_app D S [Name a] r0 Hap2 Hap1).
    - apply (apart_app S D r0 [] Hap1 Hap2). by rewrite app_nil_r. }
  assert (∀ fd', fd' ∈ fds →
            ∃ x', f0 !! (S ++ [Name fd']) = Some x' ∧ fd' = info_of (Name fd') x')
    as Hfds'.
  { intros fd' Hin. apply Hfds. by right. }
  apply elem_of_cons in Hfd as [->|Hfd]; [|by eapply IH].
  (* the entry copied first, and the rest of the loop beside it *)
  pose proof (entries_touch fds w1 Hw1 Hfds' (D ++ Name a :: r)) as Hkeep.
  rewrite Hrest in Hkeep. simpl in Hkeep. rewrite Hkeep.
  2:{ intros [Hq|(fd' & Hin & Hq)].
      - apply prefix_length in Hq. rewrite length_app in Hq. simpl in Hq. lia.
      - apply prefix_entry_inv in Hq. apply Ha. rewrite <- Hq.
        by apply list_elem_of_fmap_2. }
  unfold copyDir_entry in Hbody. rewrite Hinfo in Hbody.
  cbn [Name IsDir info_of] in Hbody.
  pose proof (resolve_Join_entry (cwd E) src (Name a) Hplain) as Hrs.
  pose proof (resolve_Join_entry (cwd E) dst (Name a) Hplain) as Hrd.
  destruct x as [m0 c0|m0]; cbn [is_dir] in Hbody.
  - destruct r as [|z r].
    2:{ by rewrite (tree_ok_below_file f0 S (Name a) m0 c0 (z :: r)) in Hfile. }
    rewrite Hx in Hfile. injection Hfile as -> ->.
    destruct (copyFile_Ok_inv E _ _ w w1 (File m c) Hbody) as (m' & c' & Heq & Hd).
    + by rewrite Hrs, Hw.
    + rewrite Hrs, Hrd. by apply apart_ne.
    + injection Heq as <- <-. by rewrite Hrd in Hd.
  - pose proof (Hrec _ _ w w1 Hbody) as Hcopy. rewrite Hrs, Hrd in Hcopy.
    replace (D ++ Name a :: r) with ((D ++ [Name a]) ++ r)
      by by rewrite <- app_assoc.
    apply Hcopy.
    + by apply tree_ok_entry.
    + by apply apart_app.
    + by apply apart_app.
    + by rewrite <- app_assoc, Hw.
Qed.

End copy_ok.

(** A [copyDir] that has returned without error has copied every file of
    the source tree. *)
Lemma copyDir_Ok_files E fuel : ∀ src dst w w',
  copyDir E fuel src dst w = (Ok tt, w') →
  tree_ok (fs w) (resolve (cwd E) src) →
  ¬ resolve (cwd E) src `prefix_of` resolve (cwd E) dst →
  ¬ resolve (cwd E) dst `prefix_of` resolve (cwd E) src →
  ∀ r m c, fs w !! (resolve (cwd E) src ++ r) = Some (File m c) →
           fs w' !! (resolve (cwd E) dst ++ r) = Some (File m c).
Proof.
  induction fuel as [|fuel IH]; intros src dst w w' Hrun Hok Hap1 Hap2 r m c Hr;
    [done|].
  set (S := resolve (cwd E) src) in *. set (D := resolve (cwd E) dst) in *.
  simpl in Hrun.
  apply bind_Ok_inv in Hrun as (info & w0 & [-> _]%os_Stat_inv & Hrun).
  apply bind_Ok_inv in Hrun as ([] & w1 & Hmk & Hrun).
  assert (∀ r0, fs w1 !! (S ++ r0) = fs w !! (S ++ r0)) as Hw1.
  { intros r0. pose proof (os_MkdirAll_touches E dst (Mode info) w (S ++ r0)) as H.
    rewrite Hmk in H. apply H. fold D. intros Hp.
    apply (apart_app S D r0 [] Hap1 Hap2). by rewrite app_nil_r. }
  apply bind_Ok_inv in Hrun as (fds & w2 & Hrd & Hrun).
  destruct (ioutil_ReadDir_dir _ _ _ _ _ Hrd) as [mS HS]. fold S in HS.
  apply ioutil_ReadDir_inv in Hrd as [-> Hfds].
  specialize (Hfds fds eq_refl). fold S in Hfds.
  destruct r as [|n r].
  { rewrite <- Hw1, app_nil_r, HS in Hr. done. }
  destruct (tree_ok_entry_exists _ _ _ _ _ Hok Hr) as [x Hx].
  apply (entries_Ok_files E fuel IH src dst (fs w) Hok Hap1 Hap2 fds w1 w'
           Hrun Hw1) with (fd := info_of n x).
  - rewrite Hfds, merge_sort_Permutation. apply NoDup_entries.
  - intros fd Hfd. rewrite Hfds, merge_sort_Permutation in Hfd.
    apply elem_of_entries in Hfd as (n' & x' & Hx' & ->).
    exists x'. by rewrite <- Hw1.
  - rewrite Hfds, merge_sort_Permutation. apply elem_of_entries.
    exists n, x. by rewrite Hw1.
  - done.
Qed.

(** X20. Whenever [copyDir] returns without error, from any destination
    and in any state of it: every regular file of the source tree is at the
    same place below the destination, with the same contents and the same
    permission bits (the source a tree of directories and regular files,
    and neither the source nor the destination inside the other). *)
Theorem copyDir_returned_has_copied_every_file
    (E : Env) (fuel : nat) (src dst : string) (w w' : World)
    (r : list string) (m : N) (c : string) :
  copyDir E fuel src dst w = (Ok tt, w') →
  tree_ok (fs w) (resolve (cwd E) src) →
  ¬ resolve (cwd E) src `prefix_of` resolve (cwd E) dst →
  ¬ resolve (cwd E) dst `prefix_of` resolve (cwd E) src →
  fs w !! (resolve (cwd E) src ++ r) = Some (File m c) →
  fs w' !! (resolve (cwd E) dst ++ r) = Some (File m c) ∧
  fs w' !! (resolve (cwd E) src ++ r) = Some (File m c).
Proof.
  intros Hrun Hok Hap1 Hap2 Hr. split.
  - by apply (copyDir_Ok_files E fuel src dst w w' Hrun Hok Hap1 Hap2).
  - rewrite <- Hr.
    pose proof (copyDir_touches E fuel src dst w Hok Hap1 Hap2
                  (resolve (cwd E) src ++ r)) as Hkeep.
    rewrite Hrun in Hkeep. apply Hkeep. intros [Hp|Hp].
    + apply (apart_app _ _ [] r Hap2 Hap1). by rewrite app_nil_r.
    + apply (apart_app _ _ r [] Hap1 Hap2). by rewrite app_nil_r.
Qed.

Lemma copyDir_returned_has_copied_every_file_witness :
  fs (copyDir demo_env 3 "/src/content" "/out" demo_world_copy).2
    !! (resolve (cwd demo_env) "/out" ++ ["docs"; "a.md"])
  = Some (File 384 "aaa").
Proof.
  refine (proj1 (copyDir_returned_has_copied_every_file demo_env 3
                   "/src/content" "/out" demo_world_copy
                   (copyDir demo_env 3 "/src/content" "/out" demo_world_copy).2
                   ["docs"; "a.md"] 384 "aaa" _ _ _ _ _)).
  - vm_compute. reflexivity.
  - exact demo_copy_tree_ok.
  - by_decision.
  - by_decision.
  - reflexivity.
Defined.

(** ** The whole run *)

Section whole_run.
Context (E : Env) (cfg : Config) (fuel : nat).
Context (content : string → list string → option node).

Local Abbreviation Ws := (resolve (cwd E) (workspace E)).
Local Abbreviation Out := (resolve (cwd E) (outputDir cfg)).
Local Abbreviation vmap := (versionMap (branches cfg) (latestBranch cfg)).

Context (HC : plain (repoContentDir cfg) = true).
Context (Hvers : ∀ v b, vmap !! v = Some b → plain v = true).
Context (Hap1 : ¬ Ws `prefix_of` Out) (Hap2 : ¬ Out `prefix_of` Ws).
Context (Hgit : ∀ w0 v b f',
  vmap !! v = Some b →
  exec E w0 "git" (clone_args b (repoURL cfg) (clone_dir (workspace E) v))
  = (true, f') →
  (∀ p, ¬ Ws `prefix_of` p → f' !! p = fs w0 !! p) ∧
  (∀ r, f' !! (Ws ++ ["repo"; v; repoContentDir cfg] ++ r) = content b r)).
Context (Htree : ∀ b r n x,
  content b (r ++ [n]) = Some x →
  plain n = true ∧ ∃ m, content b r = Some (Dir m)).

Lemma version_src v :
  plain v = true →
  resolve (cwd E)
    (filepath_Join [clone_dir (workspace E) v; repoContentDir cfg])
  = Ws ++ ["repo"; v; repoContentDir cfg].
Proof.
  intros Hv. unfold filepath_Join.
  rewrite resolve_Join_entry, clone_dir_resolve by done.
  by rewrite <- app_assoc.
Qed.

Lemma version_dst v :
  plain v = true →
  resolve (cwd E) (filepath_Join [outputDir cfg; v]) = Out ++ [v].
Proof. intros Hv. unfold filepath_Join. by rewrite resolve_Join_entry. Qed.

(** One turn of the loop that has returned without error. *)
Lemma turn_Ok v b w w' :
  run_version E cfg fuel (workspace E) (v, b) w = (Ok tt, w') →
  vmap !! v = Some b →
  (∀ r m c, content b r = Some (File m c) →
            fs w' !! (Out ++ v :: r) = Some (File m c)) ∧
  (∀ q, ¬ Ws `prefix_of` q → ¬ around (Out ++ [v]) q →
        fs w' !! q = fs w !! q).
Proof.
  intros Hrun Hvb. pose proof (Hvers v b Hvb) as Hv.
  rewrite run_version_unfold in Hrun. cbv zeta in Hrun. cbn [fst snd] in Hrun.
  destruct (exec E _ _ _) as [[] f'] eqn:Hexec; [|done].
  destruct (Hgit _ _ _ _ Hvb Hexec) as [Hout Hin].
  match type of Hrun with
  | context [copyDir E fuel ?s ?d ?w0] =>
      destruct (copyDir E fuel s d w0) as [[[]|e|] w3] eqn:Hcopy; try done
  end.
  injection Hrun as <-.
  pose proof (version_src v Hv) as Hs. pose proof (version_dst v Hv) as Hd.
  assert (tree_ok f' (Ws ++ ["repo"; v; repoContentDir cfg])) as Hok.
  { intros r n x. rewrite <- !app_assoc, !Hin. apply Htree. }
  assert (¬ Ws ++ ["repo"; v; repoContentDir cfg] `prefix_of` Out ++ [v])
    as Ha1 by by apply apart_app.
  assert (¬ Out ++ [v] `prefix_of` Ws ++ ["repo"; v; repoContentDir cfg])
    as Ha2 by by apply apart_app.
  split.
  - intros r m c Hr.
    match type of Hcopy with
    | copyDir E fuel ?s ?d ?w0 = _ =>
        pose proof (copyDir_Ok_files E fuel s d w0 w3 Hcopy) as Hfiles
    end.
    rewrite Hs, Hd in Hfiles. cbn [fs] in Hfiles.
    replace (Out ++ v :: r) with ((Out ++ [v]) ++ r) by by rewrite <- app_assoc.
    apply Hfiles; [done..|]. by rewrite <- app_assoc, Hin.
  - intros q Hq1 Hq2.
    match type of Hcopy with
    | copyDir E fuel ?s ?d ?w0 = _ =>
        pose proof (copyDir_touches E fuel s d w0) as Hkeep
    end.
    rewrite Hs, Hd in Hkeep. cbn [fs] in Hkeep.
    specialize (Hkeep Hok Ha1 Ha2 q Hq2). rewrite Hcopy in Hkeep.
    simpl in Hkeep. rewrite Hkeep. by apply Hout.
Qed.

Lemma turns_Ok_keep entries : ∀ w w',
  for_each entries (run_version E cfg fuel (workspace E)) w = (Ok tt, w') →
  (∀ e, e ∈ entries → vmap !! e.1 = Some e.2) →
  ∀ q, ¬ Ws `prefix_of` q →
       (∀ e, e ∈ entries → ¬ around (Out ++ [e.1]) q) →
       fs w' !! q = fs w !! q.
Proof.
  induction entries as [|[v b] entries IH]; intros w w' Hrun Hin q Hq Hqs.
  { by injection Hrun as <-. }
  cbn [for_each] in Hrun.
  apply bind_Ok_inv in Hrun as ([] & w1 & Hturn & Hrest).
  destruct (turn_Ok v b w w1 Hturn) as [_ Hkeep].
  { apply (Hin (v, b)). left. }
  rewrite (IH w1 w' Hrest).
  - apply Hkeep; [done|]. apply (Hqs (v, b)). left.
  - intros e He. apply Hin. by right.
  - done.
  - intros e He. apply Hqs. by right.
Qed.

Lemma turns_Ok_files entries : ∀ w w',
  for_each entries (run_version E cfg fuel (workspace E)) w = (Ok tt, w') →
  NoDup entries.*1 →
  (∀ e, e ∈ entries → vmap !! e.1 = Some e.2) →
  ∀ v b r m c, (v, b) ∈ entries → content b r = Some (File m c) →
               fs w' !! (Out ++ v :: r) = Some (File m c).
Proof.
  induction entries as [|[v0 b0] entries IH];
    intros w w' Hrun Hnd Hin v b r m c Hvb Hr.
  { by apply elem_of_nil in Hvb. }
  cbn [for_each] in Hrun.
  apply bind_Ok_inv in Hrun as ([] & w1 & Hturn & Hrest).
  rewrite fmap_cons in Hnd. apply NoDup_cons in Hnd as [Hv0 Hnd].
  cbn [fst] in Hv0.
  assert (∀ e, e ∈ entries → vmap !! e.1 = Some e.2) as Hin'.
  { intros e He. apply Hin. by right. }
  apply elem_of_cons in Hvb as [[= -> ->]|Hvb]; [|by eapply IH].
  destruct (turn_Ok v0 b0 w w1 Hturn) as [Hfiles _].
  { apply (Hin (v0, b0)). left. }
  rewrite (turns_Ok_keep entries w1 w' Hrest Hin'); [by apply Hfiles| |].
  - rewrite <- (app_nil_r Ws). by apply apart_app.
  - intros e He [Hq|Hq].
    + apply prefix_entry_inv in Hq. apply Hv0. rewrite <- Hq.
      by apply list_elem_of_fmap_2.
    + apply entry_prefix_inv in Hq. apply Hv0. rewrite <- Hq.
      by apply list_elem_of_fmap_2.
Qed.

Lemma run_Ok_files w w' v b r m c :
  run E cfg fuel w = (Ok tt, w') →
  vmap !! v = Some b → content b r = Some (File m c) →
  fs w' !! (Out ++ v :: r) = Some (File m c).
Proof.
  intros Hrun Hvb Hr.
  destruct (decide (latestBranch cfg = "" ∧ branches cfg = [])) as [[Hl Hb]|Hn].
  { rewrite Hl, Hb in Hvb.
    change (versionMap [] "") with (∅ : gmap string string) in Hvb.
    by rewrite lookup_empty in Hvb. }
  rewrite run_not_idle in Hrun.
  2:{ destruct (decide (latestBranch cfg = "")) as [Hl|Hl]; [right|by left].
      intros Hb. by apply Hn. }
  apply bind_Ok_inv in Hrun as (name & w1 & Ht & Hrun).
  apply ioutil_TempDir_name in Ht as [-> _].
  unfold defer in Hrun.
  destruct (run_body E cfg fuel (workspace E) w1) as [[[]|e|] w2] eqn:Hbody;
    try done.
  injection Hrun as <-.
  destruct (cleanup_workspace E cfg w2) as (w3 & Hc & _ & Hfs).
  rewrite Hc. cbn [snd].
  assert (fs w3 !! (Out ++ v :: r) = fs w2 !! (Out ++ v :: r)) as ->.
  { destruct (debug cfg); [by rewrite Hfs|]. apply Hfs.
    rewrite <- (app_nil_r Ws). by apply apart_app. }
  unfold run_body in Hbody.
  apply bind_Ok_inv in Hbody as ([] & w4 & _ & Hbody).
  apply bind_Ok_inv in Hbody as ([] & w5 & Hloop & Hbody).
  apply bind_Ok_inv in Hbody as ([] & w6 & Hlog & Hbody).
  injection Hbody as <-. injection Hlog as <-. cbn [fs].
  apply (turns_Ok_files _ w4 w5 Hloop) with (b := b); [| | |done].
  - rewrite range_order_Permutation. apply NoDup_fst_map_to_list.
  - intros [v' b'] He. rewrite range_order_Permutation in He.
    by apply elem_of_map_to_list in He.
  - rewrite range_order_Permutation. by apply elem_of_map_to_list.
Qed.

End whole_run.

(** X21. A run that returns without error has populated the output
    directory: for every version of the version map, every regular file
    that the branch of the version holds below the content directory is at
    the same place below [<output>/<version>], with the same contents and
    permission bits; in whatever order the versions were taken, and after
    the workspace is cleaned up. This is for version names and a content
    directory that are plain names, a workspace and an output directory of
    which neither lies in the other, and a [git] whose clone, when it
    succeeds, puts the content tree of the branch (directories and regular
    files) into the clone directory and changes nothing outside the
    workspace. *)
Theorem run_populates_every_version
    (E : Env) (cfg : Config) (fuel : nat)
    (content : string → list string → option node) (w w' : World)
    (v b : string) (r : list string) (m : N) (c : string) :
  let Ws := resolve (cwd E) (workspace E) in
  let Out := resolve (cwd E) (outputDir cfg) in
  let vmap := versionMap (branches cfg) (latestBranch cfg) in
  plain (repoContentDir cfg) = true →
  (∀ v b, vmap !! v = Some b → plain v = true) →
  ¬ Ws `prefix_of` Out → ¬ Out `prefix_of` Ws →
  (∀ w0 v b f',
     vmap !! v = Some b →
     exec E w0 "git" (clone_args b (repoURL cfg) (clone_dir (workspace E) v))
     = (true, f') →
     (∀ p, ¬ Ws `prefix_of` p → f' !! p = fs w0 !! p) ∧
     (∀ r, f' !! (Ws ++ ["repo"; v; repoContentDir cfg] ++ r) = content b r)) →
  (∀ b r n x, content b (r ++ [n]) = Some x →
              plain n = true ∧ ∃ m, content b r = Some (Dir m)) →
  run E cfg fuel w = (Ok tt, w') →
  vmap !! v = Some b → content b r = Some (File m c) →
  fs w' !! (Out ++ v :: r) = Some (File m c).
Proof.
  intros Ws Out vmap HC Hvers Hap1 Hap2 Hgit Htree Hrun Hvb Hr.
  by apply (run_Ok_files E cfg fuel content HC Hvers Hap1 Hap2 Hgit Htree
              w w' v b r m c).
Qed.

(** The sample [git] is one the theorem is about. *)
#[local] Instance list_app_inj {A} (l : list A) : Inj (=) (=) (app l).
Proof. intros x y. apply app_inv_head. Qed.

Lemma fresh_clone_below parent n tree f r :
  fresh_clone (parent ++ [n]) tree f !! ((parent ++ [n]) ++ r)
  = (list_to_map tree : gmap (list string) node) !! r.
Proof.
  unfold fresh_clone.
  rewrite removelast_last, lookup_union, lookup_kmap; [|apply _].
  assert (<[parent := Dir 493]>
            (filter (λ kn : list string * node, ¬ parent ++ [n] `prefix_of` kn.1) f)
          !! ((parent ++ [n]) ++ r) = None) as ->.
  { rewrite lookup_insert_ne.
    - apply map_lookup_filter_None. right. intros x _ H. apply H. simpl.
      by apply prefix_app_r.
    - intros Heq. apply (f_equal length) in Heq.
      rewrite !length_app in Heq. simpl in Heq. lia. }
  by destruct (_ !! r).
Qed.

Lemma fresh_clone_outside parent n tree f p :
  ¬ parent `prefix_of` p → fresh_clone (parent ++ [n]) tree f !! p = f !! p.
Proof.
  intros Hp. unfold fresh_clone. rewrite removelast_last, lookup_union.
  assert (kmap (app (parent ++ [n]))
            (list_to_map tree : gmap (list string) node) !! p = None) as ->.
  { apply lookup_kmap_None; [apply _|]. intros j ->. exfalso. apply Hp.
    rewrite <- app_assoc. by apply prefix_app_r. }
  rewrite lookup_insert_ne by (intros <-; by apply Hp).
  assert (filter (λ kn : list string * node, ¬ parent ++ [n] `prefix_of` kn.1) f
          !! p = f !! p) as ->.
  { destruct (f !! p) as [x|] eqn:Hx.
    - apply map_lookup_filter_Some. split; [done|]. simpl. intros H. apply Hp.
      trans (parent ++ [n]); [by apply prefix_app_r|done].
    - apply map_lookup_filter_None. by left. }
  by destruct (f !! p).
Qed.

Lemma demo_git_fresh_clone w0 b url dir tree :
  demo_repo b = Some tree →
  demo_git_fresh w0 "git" (clone_args b url dir)
  = (true, fresh_clone (resolve [] dir) tree (fs w0)).
Proof. intros H. unfold demo_git_fresh, clone_args. by rewrite H. Qed.

Lemma demo_versions v b :
  versionMap (branches demo_cfg) (latestBranch demo_cfg) !! v = Some b →
  (v = "latest" ∧ b = "main") ∨ (v = "v1" ∧ b = "release-1").
Proof.
  change (versionMap (branches demo_cfg) (latestBranch demo_cfg))
    with (<["latest" := "main"]> (<["v1" := "release-1"]>
            (∅ : gmap string string))).
  intros [[<- <-]|[_ [[<- <-]|[_ H]]%lookup_insert_Some]]%lookup_insert_Some;
    [by left|by right|by rewrite lookup_empty in H].
Qed.

Lemma demo_content_tree b r n x :
  demo_content b (r ++ [n]) = Some x →
  plain n = true ∧ ∃ m, demo_content b r = Some (Dir m).
Proof.
  unfold demo_content, demo_repo.
  assert (tree_ok (list_to_map demo_branch) ["content"]) as H1.
  { apply tree_okb_sound. vm_compute. reflexivity. }
  assert (tree_ok (list_to_map demo_branch_flat) ["content"]) as H2.
  { apply tree_okb_sound. vm_compute. reflexivity. }
  destruct (String.eqb b "main"); [apply (H1 r n x)|].
  destruct (String.eqb b "release-1"); [apply (H1 r n x)|].
  destruct (String.eqb b "release-2"); [apply (H2 r n x)|done].
Qed.

Lemma demo_git_fresh_behaves w0 v b f' :
  versionMap (branches demo_cfg) (latestBranch demo_cfg) !! v = Some b →
  exec demo_env_fresh w0 "git"
    (clone_args b (repoURL demo_cfg) (clone_dir (workspace demo_env_fresh) v))
  = (true, f') →
  (∀ p, ¬ resolve (cwd demo_env_fresh) (workspace demo_env_fresh) `prefix_of` p →
        f' !! p = fs w0 !! p) ∧
  (∀ r, f' !! (resolve (cwd demo_env_fresh) (workspace demo_env_fresh)
               ++ ["repo"; v; repoContentDir demo_cfg] ++ r)
        = demo_content b r).
Proof.
  intros Hvb Hexec.
  change (exec demo_env_fresh) with demo_git_fresh in Hexec.
  change (cwd demo_env_fresh) with (@nil string).
  change (repoContentDir demo_cfg) with "content".
  assert (plain v = true ∧ ∃ tree, demo_repo b = Some tree ∧
          ∀ r, demo_content b r
               = (list_to_map tree : gmap (list string) node) !! ("content" :: r))
    as (Hv & tree & Htree & Hcontent).
  { apply demo_versions in Hvb as [[-> ->]|[-> ->]];
      (split; [reflexivity|]); exists demo_branch; by split. }
  rewrite (demo_git_fresh_clone _ _ _ _ _ Htree) in Hexec.
  injection Hexec as <-. rewrite clone_dir_resolve by done.
  set (Ws := resolve [] (workspace demo_env_fresh)).
  replace (Ws ++ ["repo"; v]) with ((Ws ++ ["repo"]) ++ [v])
    by by rewrite <- app_assoc.
  split.
  - intros p Hp. apply fresh_clone_outside. intros Hq. apply Hp.
    by apply prefix_app_l in Hq.
  - intros r.
    replace (Ws ++ ["repo"; v; "content"] ++ r)
      with (((Ws ++ ["repo"]) ++ [v]) ++ "content" :: r)
      by by rewrite <- !app_assoc.
    by rewrite fresh_clone_below, Hcontent.
Qed.

Lemma run_populates_every_version_witness :
  fs (run demo_env_fresh demo_cfg 5 demo_world).2
    !! (resolve (cwd demo_env_fresh) (outputDir demo_cfg)
        ++ "v1" :: ["docs"; "a.md"])
  = Some (File 384 "aaa").
Proof.
  apply (run_populates_every_version demo_env_fresh demo_cfg 5 demo_content
           demo_world (run demo_env_fresh demo_cfg 5 demo_world).2
           "v1" "release-1" ["docs"; "a.md"] 384 "aaa").
  - reflexivity.
  - intros v b [[-> ->]|[-> ->]]%demo_versions; reflexivity.
  - by_decision.
  - by_decision.
  - exact demo_git_fresh_behaves.
  - exact demo_content_tree.
  - vm_compute. reflexivity.
  - reflexivity.
  - reflexivity.
Defined.

(** ** The commands of a run *)

Lemma run_version_any_commands E cfg fuel tmpdir entry w :
  ∃ t, trace (run_version E cfg fuel tmpdir entry w).2 = trace w ++ t ∧
       commands_run t = [clone_command cfg tmpdir entry].
Proof.
  rewrite run_version_unfold. cbv zeta.
  destruct (fetch_events_read cfg tmpdir entry) as (_ & _ & F3).
  destruct (fetched_events_read tmpdir entry) as (_ & _ & G3).
  destruct (exec E _ _ _) as [[] f'].
  - match goal with
    | |- context [copyDir E fuel ?s ?d ?w2] =>
        destruct (quiet_copyDir E fuel s d w2) as (tq & Htq & Hq);
        destruct (copyDir E fuel s d w2) as [[[]|e|] w3]
    end; simpl in Htq; destruct (fs_calls_read _ Hq) as (_ & _ & Q3);
      cbn [snd trace].
    + exists (fetch_events cfg tmpdir entry ++ fetched_events tmpdir entry ++ tq).
      split; [by rewrite Htq, <- !app_assoc|].
      by rewrite !commands_run_app, F3, G3, Q3.
    + exists (fetch_events cfg tmpdir entry ++ fetched_events tmpdir entry
              ++ tq ++ copy_failed_events entry).
      split; [by rewrite Htq, <- !app_assoc|].
      by rewrite !commands_run_app, F3, G3, Q3.
    + exists (fetch_events cfg tmpdir entry ++ fetched_events tmpdir entry ++ tq).
      split; [by rewrite Htq, <- !app_assoc|].
      by rewrite !commands_run_app, F3, G3, Q3.
  - exists (fetch_events cfg tmpdir entry ++ fetch_failed_events cfg tmpdir entry).
    split; [cbn [snd trace at_fetch]; by rewrite <- !app_assoc|].
    by rewrite !commands_run_app, F3.
Qed.

Lemma run_loop_any_commands E cfg fuel tmpdir entries : ∀ w,
  ∃ t done,
    trace (for_each entries (run_version E cfg fuel tmpdir) w).2 = trace w ++ t ∧
    done `prefix_of` entries ∧
    commands_run t = map (clone_command cfg tmpdir) done.
Proof.
  induction entries as [|entry entries IH]; intros w.
  { exists [], []. by rewrite app_nil_r. }
  cbn [for_each]. unfold bind.
  destruct (run_version_any_commands E cfg fuel tmpdir entry w) as (t1 & T1 & R1).
  destruct (run_version E cfg fuel tmpdir entry w) as [[[]|e|] w1];
    cbn [snd] in *.
  - destruct (IH w1) as (t2 & done & T2 & Hd & R2).
    exists (t1 ++ t2), (entry :: done). split_and!.
    + by rewrite T2, T1, <- app_assoc.
    + by apply prefix_cons.
    + by rewrite commands_run_app, R1, R2.
  - exists t1, [entry]. split_and!; [done| |done].
    apply prefix_cons, prefix_nil.
  - exists t1, [entry]. split_and!; [done| |done].
    apply prefix_cons, prefix_nil.
Qed.

Lemma run_body_any_commands E cfg fuel tmpdir w :
  ∃ t done,
    trace (run_body E cfg fuel tmpdir w).2 = trace w ++ t ∧
    done `prefix_of`
      range_order E (versionMap (branches cfg) (latestBranch cfg)) ∧
    commands_run t = map (clone_command cfg tmpdir) done.
Proof.
  unfold run_body. unfold bind at 1.
  destruct (quiet_os_MkdirAll E (outputDir cfg) perm_0755 w) as (t0 & T0 & Hq0).
  destruct (fs_calls_read _ Hq0) as (_ & _ & Q0).
  destruct (os_MkdirAll E (outputDir cfg) perm_0755 w) as [[[]|e|] w1];
    cbn [snd] in *.
  - unfold bind at 1.
    destruct (run_loop_any_commands E cfg fuel tmpdir
                (range_order E (versionMap (branches cfg) (latestBranch cfg))) w1)
      as (t1 & done & T1 & Hd & R1).
    destruct (for_each _ _ w1) as [[[]|e|] w2]; cbn [snd] in *.
    + exists (t0 ++ t1 ++ [EvLog false [] "Built content directory"]), done.
      split_and!; [|done|].
      * cbn. by rewrite T1, T0, <- !app_assoc.
      * rewrite !commands_run_app, Q0, R1. cbn. by rewrite app_nil_r.
    + exists (t0 ++ t1), done. split_and!; [|done|].
      * by rewrite T1, T0, <- !app_assoc.
      * by rewrite !commands_run_app, Q0, R1.
    + exists (t0 ++ t1), done. split_and!; [|done|].
      * by rewrite T1, T0, <- !app_assoc.
      * by rewrite !commands_run_app, Q0, R1.
  - exists (t0 ++ [EvLog false [] "Error creating output directory"]), [].
    split_and!; [|apply prefix_nil|].
    + cbn. by rewrite T0, <- !app_assoc.
    + rewrite !commands_run_app, Q0. done.
  - exists t0, []. split_and!; [done|apply prefix_nil|done].
Qed.

(** X22. Whatever a run does and however it ends, the only commands it
    runs are the [git clone] commands of versions of the version map, each
    once, in the order in which the loop takes the versions and up to the
    version at which the run stops: the command lines of the run are those
    of a starting stretch of that order. *)
Theorem run_only_runs_its_clones
    (E : Env) (cfg : Config) (fuel : nat) (w : World) :
  ∃ t done,
    trace (run E cfg fuel w).2 = trace w ++ t ∧
    done `prefix_of`
      range_order E (versionMap (branches cfg) (latestBranch cfg)) ∧
    NoDup done.*1 ∧
    commands_run t = map (clone_command cfg (workspace E)) done.
Proof.
  assert (∀ done,
            done `prefix_of`
              range_order E (versionMap (branches cfg) (latestBranch cfg)) →
            NoDup done.*1) as Hnd.
  { intros done [k Hk].
    pose proof (NoDup_fst_map_to_list
                  (versionMap (branches cfg) (latestBranch cfg))) as H.
    rewrite <- (range_order_Permutation E), Hk, fmap_app in H.
    by apply NoDup_app in H as [H _]. }
  destruct (decide (latestBranch cfg = "" ∧ branches cfg = [])) as [[Hl Hb]|Hn].
  { rewrite run_nothing_to_do by done.
    exists [EvLog false [] "Nothing to do!"], [].
    split_and!; [done|apply prefix_nil|constructor|done]. }
  rewrite run_not_idle.
  2:{ destruct (decide (latestBranch cfg = "")) as [Hl|Hl]; [right|by left].
      intros Hb. by apply Hn. }
  rewrite ioutil_TempDir_workspace. unfold bind at 1. unfold bind at 1.
  destruct (quiet_os_Mkdir E (workspace E) perm_0700 w) as (t0 & T0 & Hq0).
  destruct (fs_calls_read _ Hq0) as (_ & _ & Q0).
  destruct (os_Mkdir E (workspace E) perm_0700 w) as [[[]|e|] w1];
    cbn [snd] in *.
  - unfold ret, defer.
    destruct (run_body_any_commands E cfg fuel (workspace E) w1)
      as (t1 & done & T1 & Hd & R1).
    destruct (cleanup_events_read cfg (workspace E)) as (_ & _ & X3).
    destruct (run_body E cfg fuel (workspace E) w1) as [[[]|e|] w2];
      cbn [snd] in *.
    + destruct (cleanup_workspace E cfg w2) as (w3 & Hc & Htr & _).
      rewrite Hc. cbn [snd].
      exists (t0 ++ t1 ++ cleanup_events cfg (workspace E)), done.
      split_and!; [|done|by apply Hnd|].
      * by rewrite Htr, T1, T0, <- !app_assoc.
      * by rewrite !commands_run_app, Q0, R1, X3, app_nil_r.
    + destruct (cleanup_workspace E cfg w2) as (w3 & Hc & Htr & _).
      rewrite Hc. cbn [snd].
      exists (t0 ++ t1 ++ cleanup_events cfg (workspace E)), done.
      split_and!; [|done|by apply Hnd|].
      * by rewrite Htr, T1, T0, <- !app_assoc.
      * by rewrite !commands_run_app, Q0, R1, X3, app_nil_r.
    + exists (t0 ++ t1), done. split_and!; [|done|by apply Hnd|].
      * by rewrite T1, T0, <- !app_assoc.
      * by rewrite !commands_run_app, Q0, R1.
  - exists t0, []. split_and!; [done|apply prefix_nil|constructor|done].
  - exists t0, []. split_and!; [done|apply prefix_nil|constructor|done].
Qed.

(** X23. [main] ends with status 1 in two cases and no other: a required
    flag has no value, and then nothing but the lines of the missing flags
    has been logged; or [run] has returned an error, and then the last
    thing [main] does is to log it with "Failed to run". *)
Theorem main_exit_status_one
    (E : Env) (cfg : Config) (fuel : nat) (w w' : World) :
  main E cfg fuel w = (Some 1%N, w') ↔
  logtostderr_ok E = true ∧
  ((flags_valid cfg = false ∧
    w' = mkWorld (fs w) (trace w ++ missing_flags cfg)) ∨
   (flags_valid cfg = true ∧
    ∃ e w2, run E cfg fuel w = (Err e, w2) ∧
            w' = mkWorld (fs w2) (trace w2 ++ [EvLog true [] "Failed to run"]))).
Proof.
  unfold main. rewrite validateFlags_run.
  destruct (logtostderr_ok E); simpl; [|by split; [|intros (? & _)]].
  destruct (flags_valid cfg) eqn:Hv.
  - rewrite (missing_flags_valid _ Hv), app_nil_r, world_eta.
    destruct (run E cfg fuel w) as [[[]|e|] w2]; split.
    + done.
    + by intros (_ & [(? & _)|(_ & e & w3 & ? & _)]).
    + intros [= <-]. split; [done|]. right. split; [done|]. by exists e, w2.
    + intros (_ & [(? & _)|(_ & e' & w3 & [= <- <-] & ->)]); done.
    + done.
    + by intros (_ & [(? & _)|(_ & e & w3 & ? & _)]).
  - split.
    + intros [= <-]. split; [done|]. by left.
    + by intros (_ & [(_ & ->)|(? & _)]).
Qed.

Lemma main_exit_status_one_witness :
  main demo_env demo_cfg 5 demo_world_no_tmp
  = (Some 1%N,
     mkWorld (fs demo_world_no_tmp)
       [EvCall "os.Mkdir" [workspace demo_env];
        EvLog true [] "Failed to run"]).
Proof.
  apply (proj2 (main_exit_status_one demo_env demo_cfg 5 demo_world_no_tmp _)).
  split; [reflexivity|]. right. split; [reflexivity|].
  exists ENOENT. eexists. split; vm_compute; reflexivity.
Defined.
